(** * Minesweeper: the game session of [ui.js] over the grid engine

    The repository is a browser Minesweeper.  Its session logic lives in
    [createUI] (the [state] object and the closures [applyConfig],
    [validateCustom], [newGame], [gameOver], [checkWin],
    [ensureMinesPlaced], [openAt], [flagAt], [chordAt]) and in the helper
    [sanitizeCfg].  The session drives a grid engine, [game.js], through
    [createEmptyGrid], [placeMines], [openCell], [toggleFlag],
    [countFlags], [countOpenSafe] and [chordOpen].

    The session functions are embedded from the source.  The engine file
    is not among the sources; its operations are modelled from the
    written specification and marked as such.

    Conventions of the embedding:
    - the grid is a JavaScript array of rows, each an array of cell
      objects: [list (list Cell)]; a read [grid[r][c]] outside the array
      yields [undefined], and using it raises a [TypeError]: [None];
    - engine calls mutate the grid in place; here they return the new grid;
    - an uncaught exception aborts the running handler: the session
      functions return [option State], [None] being the exception;
    - the numbers of the configuration checks are JavaScript's binary64
      numbers, fractions, infinities and [NaN] included; the engine is
      specified for a whole number of rows, columns and mines, so [State]
      holds these three as integers and the sessions that are followed are
      those whose configurations have integer sizes: [applyConfig] gives
      [None] also for a configuration it keeps with a size that is not an
      integer;
    - [Math.random] is an explicit stream [rnd : nat -> nat] of draws;
    - DOM effects (counters, face, sounds, dialogs, the timer) do not feed
      back into the modelled fields and are left out, except that
      [renderBoard] reads every cell [grid[r][c]] with [r < rows] and
      [c < cols] and so raises when the grid is smaller than that;
    - the field [calls] is a ghost log of the mutating engine calls the
      session makes, in order.

    Around the session, the development embeds the counters and the
    seven-segment displays ([clamp], [pad3], [formatTime], [DIGIT_MAP],
    [buildSevenSeg], [setDigit], [setSevenSeg], [updateCounters]), the rest
    of the [state] object (the timer and its interval, the keyboard focus,
    the touch mode, with [startTimer], [stopTimer], [focusCell], the
    [keydown] handler, [setTouchMode], [applyTouchModeUI] and
    [performByMode]), the buttons and labels [renderBoard] and
    [getCellAriaLabel] give the cells, and the stored settings ([save] and
    [load] of the storage helper, [clearSettings] of the entry script).
    Texts are [string]s of bytes; a decimal text is read back with
    [Number_dec]. *)

From Stdlib Require Import Floats Uint63.
From Stdlib Require Import ZArith Lia Ascii String DecimalString.
From stdpp Require Import base list numbers option strings gmap.
Open Scope Z_scope.

(** ** Cells and grids *)

Record Cell := mkCell { mine : bool; open : bool; flag : bool; num : nat }.

Abbreviation Grid := (list (list Cell)).
Abbreviation Pos := (Z * Z)%type.

Inductive GameStatus := READY | RUNNING | WON | LOST.

Definition status_eqb (a b : GameStatus) : bool :=
  match a, b with
  | READY, READY | RUNNING, RUNNING | WON, WON | LOST, LOST => true
  | _, _ => false
  end.

Definition default_cell : Cell := mkCell false false false 0%nat.
Definition set_mine (b : bool) (c : Cell) : Cell := mkCell b (open c) (flag c) (num c).
Definition set_open (b : bool) (c : Cell) : Cell := mkCell (mine c) b (flag c) (num c).
Definition set_flag (b : bool) (c : Cell) : Cell := mkCell (mine c) (open c) b (num c).
Definition set_num (n : nat) (c : Cell) : Cell := mkCell (mine c) (open c) (flag c) n.

(** [grid[r][c]]: [None] stands for [undefined] (a negative or too large
    index on either axis). *)
Definition cell_at (g : Grid) (p : Pos) : option Cell :=
  if (0 <=? p.1) && (0 <=? p.2)
  then row ← g !! Z.to_nat p.1; row !! Z.to_nat p.2
  else None.

(** In-place update of the cell object at [p]; nothing to update when
    there is no such cell. *)
Definition upd (f : Cell → Cell) (p : Pos) (g : Grid) : Grid :=
  if (0 <=? p.1) && (0 <=? p.2)
  then alter (alter f (Z.to_nat p.2)) (Z.to_nat p.1) g
  else g.

(** One pass over all cells, each updated from its position. *)
Definition grid_imap (F : Pos → Cell → Cell) (g : Grid) : Grid :=
  imap (λ i row, imap (λ j c, F (Z.of_nat i, Z.of_nat j) c) row) g.

Definition shape (g : Grid) : list nat := map length g.

Definition in_grid (g : Grid) (p : Pos) : bool :=
  match cell_at g p with Some _ => true | None => false end.
Definition mine_at (g : Grid) (p : Pos) : bool :=
  match cell_at g p with Some c => mine c | None => false end.
Definition open_at (g : Grid) (p : Pos) : bool :=
  match cell_at g p with Some c => open c | None => false end.
Definition flag_at (g : Grid) (p : Pos) : bool :=
  match cell_at g p with Some c => flag c | None => false end.
Definition num_at (g : Grid) (p : Pos) : nat :=
  match cell_at g p with Some c => num c | None => 0%nat end.

Definition positions (g : Grid) : list Pos :=
  concat (imap (λ i row, imap (λ j (_ : Cell), (Z.of_nat i, Z.of_nat j)) row) g).
Definition totalCells (g : Grid) : Z := Z.of_nat (length (positions g)).

Definition offsets : list Pos :=
  [(-1, -1); (-1, 0); (-1, 1); (0, -1); (0, 1); (1, -1); (1, 0); (1, 1)].
Definition neighbors (p : Pos) : list Pos :=
  map (λ d : Pos, (p.1 + d.1, p.2 + d.2)) offsets.
Arguments neighbors : simpl never.

Definition count_where (f : Pos → bool) (l : list Pos) : nat :=
  length (List.filter f l).

Definition inb (p : Pos) (l : list Pos) : bool := bool_decide (p ∈ l).

(** ** The grid engine *)

(** Modelled from the spec: [createEmptyGrid] of the engine file
    [game.js], which is not among the sources.  All cells unopened,
    unflagged, non-mine, [num = 0]; [InvalidDimension] ([None]) when
    [rows < 1] or [cols < 1]. *)
Definition createEmptyGrid (rows cols : Z) : option Grid :=
  if (rows <? 1) || (cols <? 1) then None
  else Some (replicate (Z.to_nat rows) (replicate (Z.to_nat cols) default_cell)).

(** Modelled from the spec: the safe region of [placeMines], the clicked
    cell and those of its eight neighbours that exist, cut down to
    [min(9, totalCells - 1)] cells with the clicked cell first. *)
Definition reserved (g : Grid) (safe : Pos) : list Pos :=
  take (Z.to_nat (Z.min 9 (totalCells g - 1)))
       (List.filter (in_grid g) (safe :: neighbors safe)).

(** Modelled from the spec: the random selection of [k] distinct cells
    among the candidates, each draw removing the chosen candidate. *)
Fixpoint pick (rnd : nat → nat) (k : nat) (cands : list Pos) : list Pos :=
  match k with
  | O => []
  | S k' =>
    let i := (rnd k' mod length cands)%nat in
    match cands !! i with
    | Some p => p :: pick rnd k' (delete i cands)
    | None => []
    end
  end.

(** Modelled from the spec: [placeMines] of [game.js].  It refuses
    ([InfeasibleMineCount], [None], grid untouched) when
    [mineCount > totalCells - reservedCells]; otherwise it marks
    [mineCount] distinct cells outside the safe region and then sets the
    [num] of every non-mine cell to the number of neighbouring mines. *)
Definition placeMines (rnd : nat → nat) (g : Grid) (mineCount : Z) (safe : Pos)
  : option Grid :=
  let res := reserved g safe in
  if totalCells g - Z.of_nat (length res) <? mineCount then None
  else
    let cands := List.filter (λ p, negb (inb p res)) (positions g) in
    let chosen := pick rnd (Z.to_nat mineCount) cands in
    let g1 := grid_imap (λ p c, if inb p chosen then set_mine true c else c) g in
    Some (grid_imap
            (λ p c, if mine c then c
                    else set_num (count_where (mine_at g1) (neighbors p)) c) g1).

Record OpenResult := mkOpenResult
  { o_grid : Grid; opened : list Pos; hitMine : bool }.

(** A cell the flood fill may open: on the grid, not a mine, not flagged. *)
Definition floodable (g : Grid) (p : Pos) : bool :=
  match cell_at g p with
  | Some c => negb (mine c) && negb (flag c)
  | None => false
  end.

(** Modelled from the spec: the flood fill of [openCell], iterative with
    an explicit work list and a visited list.  A cell taken from the work
    list is skipped when it was visited or may not be opened; otherwise it
    is visited, and its eight neighbours join the work list when its
    [num] is zero. *)
Fixpoint flood (fuel : nat) (g : Grid) (visited work : list Pos) : list Pos :=
  match fuel with
  | O => visited
  | S fuel' =>
    match work with
    | [] => visited
    | p :: rest =>
      if inb p visited || negb (floodable g p) then flood fuel' g visited rest
      else if (num_at g p =? 0)%nat
           then flood fuel' g (p :: visited) (neighbors p ++ rest)
           else flood fuel' g (p :: visited) rest
    end
  end.

(** Every visit consumes one unvisited cell and adds eight work items, so
    nine steps per cell and one for the start empty the work list. *)
Definition flood_fuel (g : Grid) : nat := (9 * length (positions g) + 2)%nat.

(** Modelled from the spec: [openCell] of [game.js].  No-op on a cell
    that is off the grid, open or flagged; a mine is opened and reported;
    any other cell is opened, with the flood fill when its [num] is 0.
    [opened] lists the newly opened coordinates in visiting order. *)
Definition openCell (g : Grid) (p : Pos) : OpenResult :=
  match cell_at g p with
  | None => mkOpenResult g [] false
  | Some c =>
    if open c || flag c then mkOpenResult g [] false
    else if mine c then mkOpenResult (upd (set_open true) p g) [p] true
    else
      let vis := flood (flood_fuel g) g [] [p] in
      mkOpenResult
        (grid_imap (λ q c, if inb q vis then set_open true c else c) g)
        (List.filter (λ q, negb (open_at g q)) (reverse vis))
        false
  end.

(** Modelled from the spec: [toggleFlag] of [game.js]; [false] and no
    change on an open cell or off the grid. *)
Definition toggleFlag (g : Grid) (p : Pos) : Grid * bool :=
  match cell_at g p with
  | None => (g, false)
  | Some c =>
    if open c then (g, false)
    else (upd (set_flag (negb (flag c))) p g, true)
  end.

(** Modelled from the spec: [countFlags] of [game.js]. *)
Definition countFlags (g : Grid) : nat :=
  length (List.filter flag (concat g)).

(** Modelled from the spec: [countOpenSafe] of [game.js], the pair
    [(opened, totalSafe)] recomputed from the cells. *)
Definition countOpenSafe (g : Grid) : nat * nat :=
  (length (List.filter (λ c, negb (mine c) && open c) (concat g)),
   length (List.filter (λ c, negb (mine c)) (concat g))).

Record ChordResult := mkChordResult
  { c_grid : Grid; did : bool; c_hitMine : bool }.

(** Modelled from the spec: the reveal of the neighbours in [chordOpen],
    one [openCell] per unflagged, unopened neighbour, stopping at the
    first mine. *)
Fixpoint chord_loop (g : Grid) (ns : list Pos) : Grid * bool :=
  match ns with
  | [] => (g, false)
  | q :: rest =>
    if open_at g q || flag_at g q || negb (in_grid g q) then chord_loop g rest
    else
      let r := openCell g q in
      if hitMine r then (o_grid r, true) else chord_loop (o_grid r) rest
  end.

(** Modelled from the spec: [chordOpen] of [game.js]; it acts only on an
    open cell with [num > 0] whose flagged neighbours number [num]. *)
Definition chordOpen (g : Grid) (p : Pos) : ChordResult :=
  match cell_at g p with
  | None => mkChordResult g false false
  | Some c =>
    if open c && (0 <? num c)%nat
       && (count_where (flag_at g) (neighbors p) =? num c)%nat
    then let '(g', hit) := chord_loop g (neighbors p) in mkChordResult g' true hit
    else mkChordResult g false false
  end.

(** ** JavaScript numbers in the configuration checks

    The numbers of [sanitizeCfg] and [validateCustom] are the binary64
    floating-point numbers of JavaScript, here the kernel's [float] with
    its own arithmetic and comparisons: [Number.isFinite] is
    [PrimFloat.is_finite], [<] is [PrimFloat.ltb], [*] and [-] round as
    JavaScript does.  A field of [CfgIn] is the value of
    [Number(cfg.field)], which can be any number: an integer, a fraction
    such as 5.5, an infinity or [NaN]. *)

(** The number an integer of a literal or a loop counter is; exact below
    2^53. *)
Definition float_of_Z (z : Z) : float := PrimFloat.of_uint63 (Uint63.of_Z z).

(** [Math.min] of two arguments: [NaN] when one of them is, and the
    negative zero of two zeros. *)
Definition Math_min (a b : float) : float :=
  if PrimFloat.is_nan a || PrimFloat.is_nan b then PrimFloat.nan
  else if PrimFloat.ltb b a then b
  else if PrimFloat.ltb a b then a
  else if PrimFloat.get_sign a then a else b.

Record CfgIn := mkCfgIn { in_rows : float; in_cols : float; in_mines : float }.
Record Cfg := mkCfg { cfg_rows : float; cfg_cols : float; cfg_mines : float }.

(** [DIFFICULTIES] *)
Definition beginner : Cfg := mkCfg 9 9 10.
Definition intermediate : Cfg := mkCfg 16 16 40.
Definition expert : Cfg := mkCfg 16 30 99.

(** [sanitizeCfg]; the argument [None] is a falsy [cfg], the result [None]
    is [null]. *)
Definition sanitizeCfg (cfg : option CfgIn) : option Cfg :=
  match cfg with
  | None => None
  | Some cfg =>
    let rows := in_rows cfg in
    let cols := in_cols cfg in
    let mines := in_mines cfg in
    if negb (forallb PrimFloat.is_finite [rows; cols; mines]) then None
    else if PrimFloat.ltb rows 5 || PrimFloat.ltb 30 rows then None
    else if PrimFloat.ltb cols 5 || PrimFloat.ltb 40 cols then None
    else
      let cells := PrimFloat.mul rows cols in
      let reserve := Math_min 9 (PrimFloat.sub cells 1) in
      if PrimFloat.ltb mines 1 || PrimFloat.ltb (PrimFloat.sub cells reserve) mines
      then None
      else Some (mkCfg rows cols mines)
  end.

(** The five messages of [validateCustom]; the last one quotes the
    largest mine count it would accept. *)
Inductive Msg :=
| MsgNotNumber | MsgRows | MsgCols | MsgMinesLow | MsgMinesHigh (limit : float).

(** [validateCustom] on the numbers [Number(rows)], [Number(cols)] and
    [Number(mines)]; [None] is [null], the configuration is accepted. *)
Definition validateCustom (rows cols mines : float) : option Msg :=
  let r := rows in
  let c := cols in
  let m := mines in
  if negb (forallb PrimFloat.is_finite [r; c; m]) then Some MsgNotNumber
  else if PrimFloat.ltb r 5 || PrimFloat.ltb 30 r then Some MsgRows
  else if PrimFloat.ltb c 5 || PrimFloat.ltb 40 c then Some MsgCols
  else if PrimFloat.ltb m 1 then Some MsgMinesLow
  else
    let cells := PrimFloat.mul r c in
    let reserve := Math_min 9 (PrimFloat.sub cells 1) in
    if PrimFloat.ltb (PrimFloat.sub cells reserve) m
    then Some (MsgMinesHigh (PrimFloat.sub cells reserve))
    else None.

(** [sanitizeCfg(cfg) || DIFFICULTIES.beginner], the configuration
    [applyConfig] keeps. *)
Definition safe_config (c : option CfgIn) : Cfg := default beginner (sanitizeCfg c).

(** *** Integer sizes

    The engine is specified for a whole number of rows, columns and mines,
    and [State] holds [rows], [cols] and [mines] as integers.  The sizes
    [sanitizeCfg] keeps lie between 1 and 1191. *)
Definition size_range : list Z := seqZ 1 1200.

(** The integer from 1 to 1200 that a number is, [None] for every other
    number. *)
Definition int_of_float (f : float) : option Z :=
  List.find (λ z, PrimFloat.Leibniz.eqb f (float_of_Z z)) size_range.

(** The three sizes of a configuration when all of them are integers. *)
Definition integer_sizes (k : Cfg) : option (Z * Z * Z) :=
  r ← int_of_float (cfg_rows k);
  c ← int_of_float (cfg_cols k);
  m ← int_of_float (cfg_mines k);
  Some (r, c, m).

(** ** The session *)

Inductive Call :=
| CallCreate (rows cols : Z)
| CallPlace (mineCount r c : Z)
| CallOpen (r c : Z)
| CallToggle (r c : Z)
| CallChord (r c : Z).

Record State := mkState
  { cfg : Cfg; rows : Z; cols : Z; mines : Z;
    grid : Grid; status : GameStatus; firstClick : bool;
    calls : list Call }.

Definition set_grid (g : Grid) (s : State) : State :=
  mkState (cfg s) (rows s) (cols s) (mines s) g (status s) (firstClick s) (calls s).
Definition set_status (st : GameStatus) (s : State) : State :=
  mkState (cfg s) (rows s) (cols s) (mines s) (grid s) st (firstClick s) (calls s).
Definition set_firstClick (b : bool) (s : State) : State :=
  mkState (cfg s) (rows s) (cols s) (mines s) (grid s) (status s) b (calls s).
Definition log_call (c : Call) (s : State) : State :=
  mkState (cfg s) (rows s) (cols s) (mines s) (grid s) (status s) (firstClick s)
          (calls s ++ [c]).

(** [for (let i = start; ...; i++) body], [n] iterations. *)
Fixpoint for_loop (n : nat) (i : Z) (body : Z → Grid → option Grid) (g : Grid)
  : option Grid :=
  match n with
  | O => Some g
  | S n' => g' ← body i g; for_loop n' (i + 1) body g'
  end.

(** The nested loops over [r < rows], [c < cols] that read the cell
    [grid[r][c]] and use its fields. *)
Definition each_cell (rows cols : Z) (f : Cell → Cell) (g : Grid) : option Grid :=
  for_loop (Z.to_nat rows) 0
    (λ r, for_loop (Z.to_nat cols) 0
       (λ c g, _ ← cell_at g (r, c); Some (upd f (r, c) g))) g.

Definition renderBoard (s : State) : option State :=
  _ ← each_cell (rows s) (cols s) id (grid s); Some s.

Definition newGame (s : State) : option State :=
  g ← createEmptyGrid (rows s) (cols s);
  let s1 := log_call (CallCreate (rows s) (cols s)) (set_grid g s) in
  renderBoard (set_firstClick true (set_status READY s1)).

(** [applyConfig].  [state.rows], [state.cols] and [state.mines] receive
    the numbers of the configuration it keeps.  [State] holds them as
    integers: when one of them is not an integer, what [createEmptyGrid]
    and [placeMines] then do is not specified, the session is not followed
    any further, and the result is [None]. *)
Definition applyConfig (c : option CfgIn) (s : State) : option State :=
  let safe := safe_config c in
  '(rows, cols, mines) ← integer_sizes safe;
  newGame (mkState safe rows cols mines (grid s) (status s) (firstClick s) (calls s)).

(** The body of the loops of [gameOver]. *)
Definition reveal_kind (win : bool) (c : Cell) : Cell :=
  if win then (if negb (mine c) then set_open true c else c)
  else (if mine c then set_open true c else c).

Definition gameOver (win : bool) (s : State) : option State :=
  let s1 := set_status (if win then WON else LOST) s in
  g ← each_cell (rows s1) (cols s1) (reveal_kind win) (grid s1);
  renderBoard (set_grid g s1).

Definition checkWin (s : State) : option State :=
  let '(opened, totalSafe) := countOpenSafe (grid s) in
  if (opened =? totalSafe)%nat && negb (status_eqb (status s) WON)
  then gameOver true s else Some s.

Definition ensureMinesPlaced (rnd : nat → nat) (firstR firstC : Z) (s : State)
  : option State :=
  if negb (firstClick s) then Some s
  else
    g ← placeMines rnd (grid s) (mines s) (firstR, firstC);
    let s1 := log_call (CallPlace (mines s) firstR firstC) (set_grid g s) in
    Some (set_status RUNNING (set_firstClick false s1)).

(** [state.status === LOST || state.status === WON] *)
Definition terminal (s : State) : bool :=
  status_eqb (status s) LOST || status_eqb (status s) WON.

Definition openAt (rnd : nat → nat) (r c : Z) (s : State) : option State :=
  if terminal s then Some s
  else
    s1 ← ensureMinesPlaced rnd r c s;
    let res := openCell (grid s1) (r, c) in
    let s2 := log_call (CallOpen r c) (set_grid (o_grid res) s1) in
    if hitMine res then
      _ ← cell_at (grid s2) (r, c);
      s3 ← renderBoard (set_grid (upd (set_open true) (r, c) (grid s2)) s2);
      gameOver false s3
    else
      s3 ← renderBoard s2;
      checkWin s3.

Definition flagAt (r c : Z) (s : State) : option State :=
  if terminal s then Some s
  else
    cell ← cell_at (grid s) (r, c);
    if open cell then Some s
    else
      let '(g, ok) := toggleFlag (grid s) (r, c) in
      let s1 := log_call (CallToggle r c) (set_grid g s) in
      if negb ok then Some s1 else renderBoard s1.

Definition chordAt (r c : Z) (s : State) : option State :=
  if negb (status_eqb (status s) RUNNING) then Some s
  else
    let res := chordOpen (grid s) (r, c) in
    let s1 := log_call (CallChord r c) (set_grid (c_grid res) s) in
    if negb (did res) then Some s1
    else if c_hitMine res then
      s2 ← renderBoard s1; gameOver false s2
    else
      s2 ← renderBoard s1; checkWin s2.

(** The requests the page sends to the session. *)
Inductive Op :=
| OpApplyConfig (c : option CfgIn)
| OpNewGame
| OpOpen (rnd : nat → nat) (r c : Z)
| OpFlag (r c : Z)
| OpChord (r c : Z).

Definition step (o : Op) (s : State) : option State :=
  match o with
  | OpApplyConfig c => applyConfig c s
  | OpNewGame => newGame s
  | OpOpen rnd r c => openAt rnd r c s
  | OpFlag r c => flagAt r c s
  | OpChord r c => chordAt r c s
  end.

Fixpoint run (ops : list Op) (s : State) : option State :=
  match ops with
  | [] => Some s
  | o :: rest => s' ← step o s; run rest s'
  end.

(** The [state] literal of [createUI]. *)
Definition initial : State :=
  mkState beginner 9 9 10 [] READY true [].

(** [createUI] applies a configuration before it installs any handler;
    from then on the page sends requests.  Only completed requests are
    steps: in a reachable state the one request that can raise is [flagAt]
    off the board, and it raises on its first read, before any change.
    The states are those of sessions with integer sizes: every
    configuration applied has kept a whole number of rows, columns and
    mines (see [applyConfig]). *)
Inductive reachable : State → Prop :=
| reachable_start c s : applyConfig c initial = Some s → reachable s
| reachable_step o s s' : reachable s → step o s = Some s' → reachable s'.

(** The requests of a game in progress: reveal, flag, chord. *)
Definition play_op (o : Op) : bool :=
  match o with
  | OpOpen _ _ _ | OpFlag _ _ | OpChord _ _ => true
  | OpApplyConfig _ | OpNewGame => false
  end.

Definition is_place (c : Call) : bool :=
  match c with CallPlace _ _ _ => true | _ => false end.

(** ** Predicates used in the statements *)

(** The grid has exactly [rows] rows of [cols] cells. *)
Definition dims_ok (s : State) : bool :=
  (0 <=? rows s) && (0 <=? cols s)
  && bool_decide (shape (grid s) = replicate (Z.to_nat (rows s)) (Z.to_nat (cols s))).

(** The bounds the callers enforce on a configuration. *)
Definition cfg_bounds (rows cols mines : Z) : Prop :=
  5 ≤ rows ≤ 30 ∧ 5 ≤ cols ≤ 40 ∧
  1 ≤ mines ≤ rows * cols - Z.min 9 (rows * cols - 1).

(** [rows*cols - min(9, rows*cols - 1)] as JavaScript computes it. *)
Definition mines_limit (rows cols : float) : float :=
  let cells := PrimFloat.mul rows cols in
  PrimFloat.sub cells (Math_min 9 (PrimFloat.sub cells 1)).

(** The bounds of the configuration checks on numbers: the three are
    finite, 5 <= rows <= 30, 5 <= cols <= 40, mines >= 1 and
    mines <= rows*cols - min(9, rows*cols - 1), with the comparisons and
    the arithmetic of JavaScript. *)
Definition cfg_bounds_num (rows cols mines : float) : Prop :=
  PrimFloat.is_finite rows = true ∧ PrimFloat.is_finite cols = true ∧
  PrimFloat.is_finite mines = true ∧
  PrimFloat.leb 5 rows = true ∧ PrimFloat.leb rows 30 = true ∧
  PrimFloat.leb 5 cols = true ∧ PrimFloat.leb cols 40 = true ∧
  PrimFloat.leb 1 mines = true ∧
  PrimFloat.leb mines (mines_limit rows cols) = true.

(** The bounds on integers, as a test. *)
Definition cfg_boundsb (rows cols mines : Z) : bool :=
  (5 <=? rows) && (rows <=? 30) && (5 <=? cols) && (cols <=? 40)
  && (1 <=? mines) && (mines <=? rows * cols - Z.min 9 (rows * cols - 1)).

(** A number of sign [s] that is not [NaN], in the representation that
    specifies the arithmetic. *)
Definition signed (s : bool) (f : spec_float) : Prop :=
  f = S754_zero s ∨ f = S754_infinity s ∨ ∃ m e, f = S754_finite s m e.

Definition not_nan (f : spec_float) : Prop := ∃ s, signed s f.

(** What is checked of each integer from 1 to 1200: it is a finite number
    that [int_of_float] reads back, and the tests on rows and on columns
    decide on it as on the integer. *)
Definition size_ok (z : Z) : bool :=
  PrimFloat.is_finite (float_of_Z z)
  && Bool.eqb (PrimFloat.ltb (float_of_Z z) 5 || PrimFloat.ltb 30 (float_of_Z z))
              (negb ((5 <=? z) && (z <=? 30)))
  && Bool.eqb (PrimFloat.ltb (float_of_Z z) 5 || PrimFloat.ltb 40 (float_of_Z z))
              (negb ((5 <=? z) && (z <=? 40)))
  && bool_decide (int_of_float (float_of_Z z) = Some z).

(** For integer rows and columns within the bounds, the limit on the mines
    is the integer [rows * cols - 9]. *)
Definition cells_ok (r c : Z) : bool :=
  PrimFloat.Leibniz.eqb (mines_limit (float_of_Z r) (float_of_Z c))
                        (float_of_Z (r * c - 9)).

(** On integers from 1 to 1200 the tests on the mines decide as on
    integers. *)
Definition mines_ok (m l : Z) : bool :=
  negb (PrimFloat.ltb (float_of_Z m) 1)
  && Bool.eqb (PrimFloat.ltb (float_of_Z l) (float_of_Z m)) (l <? m).


Definition any_open (g : Grid) : bool := existsb open (concat g).

(** Work left for the flood fill: cells it may open and has not visited. *)
Definition pending (g : Grid) (visited : list Pos) : nat :=
  length (List.filter (λ p, floodable g p && negb (inb p visited)) (positions g)).

(** What the flood fill from [start] reaches: [start] when it may be
    opened, and every cell that may be opened next to a reached cell
    whose [num] is 0. *)
Inductive flooded (g : Grid) (start : Pos) : Pos → Prop :=
| flooded_start : floodable g start = true → flooded g start start
| flooded_step q p :
    flooded g start q → num_at g q = 0%nat → p ∈ neighbors q →
    floodable g p = true → flooded g start p.

Definition closed_upto (g : Grid) (visited work : list Pos) : Prop :=
  ∀ q, q ∈ visited → num_at g q = 0%nat →
    ∀ p, p ∈ neighbors q → floodable g p = true → p ∈ visited ∨ p ∈ work.

(** The zero region of [start]: the cells connected to it by a path of
    adjacent unflagged non-mine cells with [num = 0]. *)
Inductive zero_region (g : Grid) (start : Pos) : Pos → Prop :=
| zero_region_start :
    floodable g start = true → num_at g start = 0%nat →
    zero_region g start start
| zero_region_step q p :
    zero_region g start q → p ∈ neighbors q →
    floodable g p = true → num_at g p = 0%nat →
    zero_region g start p.

(** The numbered border of the zero region: non-mine, unflagged cells
    with [num > 0] next to a cell of the region. *)
Definition border (g : Grid) (start p : Pos) : Prop :=
  floodable g p = true ∧ (0 < num_at g p)%nat ∧
  ∃ q, zero_region g start q ∧ p ∈ neighbors q.

(** The connected component of [start] among the cells with [num = 0]
    that are not mines, flags not being looked at. *)
Inductive zero_component (g : Grid) (start : Pos) : Pos → Prop :=
| zero_component_start :
    mine_at g start = false → in_grid g start = true → num_at g start = 0%nat →
    zero_component g start start
| zero_component_step q p :
    zero_component g start q → p ∈ neighbors q →
    mine_at g p = false → in_grid g p = true → num_at g p = 0%nat →
    zero_component g start p.

(** [g'] is [g] with some cells opened, each of them satisfying [P]
    before; nothing else differs. *)
Definition opens (P : Cell → Prop) (g g' : Grid) : Prop :=
  shape g' = shape g ∧
  ∀ q, cell_at g' q = cell_at g q ∨
       ∃ c, cell_at g q = Some c ∧ cell_at g' q = Some (set_open true c) ∧ P c.

(** The invariant of the session. *)
Record Inv (s : State) : Prop := mkInv
  { inv_dims : dims_ok s = true;
    inv_bounds : cfg_bounds (rows s) (cols s) (mines s);
    inv_fresh : firstClick s = true →
                status s = READY ∧
                ∀ p, mine_at (grid s) p = false ∧ open_at (grid s) p = false;
    inv_flag : ∀ p, open_at (grid s) p = true → flag_at (grid s) p = true →
               mine_at (grid s) p = true ∧ status s = LOST }.

(** What holds between the engine call and the end of a request. *)
Record PreInv (s : State) : Prop := mkPreInv
  { pre_dims : dims_ok s = true;
    pre_bounds : cfg_bounds (rows s) (cols s) (mines s);
    pre_first : firstClick s = false;
    pre_flag : ∀ p, open_at (grid s) p = true → flag_at (grid s) p = true →
               mine_at (grid s) p = true }.

(** What the status says about the revealed cells. *)
Record Inv2 (s : State) : Prop := mkInv2
  { inv_ready : status s = READY → firstClick s = true;
    inv_mine : ∀ p, open_at (grid s) p = true → mine_at (grid s) p = true →
               status s = LOST;
    inv_won : status s = WON →
              ∀ p c, cell_at (grid s) p = Some c → mine c = false → open c = true }.

(** ** A sample game

    A 5 by 5 board with 3 mines.  The draws put the mines at (0,1), (1,0)
    and (1,1) when the first reveal is at (4,4); the corner (0,0) is then
    walled in by mines and the flood fill does not reach it. *)

Definition demo_cfg : option CfgIn := Some (mkCfgIn 5 5 3).

Definition demo_rnd (n : nat) : nat :=
  match n with 2%nat => 1%nat | _ => 4%nat end.

Definition demo_ops : list Op :=
  [OpOpen demo_rnd 4 4; OpFlag 0 1; OpOpen demo_rnd 1 0].

Definition demo_fresh : State :=
  Eval vm_compute in default initial (applyConfig demo_cfg initial).

Definition demo_running : State :=
  Eval vm_compute in default initial (openAt demo_rnd 4 4 demo_fresh).

(** The running game with both mines next to (2,0) flagged. *)
Definition demo_flagged : State :=
  Eval vm_compute in default initial (run [OpFlag 1 0; OpFlag 1 1] demo_running).

Definition demo_lost : State :=
  Eval vm_compute in default initial (run demo_ops demo_fresh).

(** The same board when the first reveal lands on a flagged cell. *)
Definition demo_blocked : State :=
  Eval vm_compute in
    default initial
      (run [OpApplyConfig demo_cfg; OpFlag 4 4; OpOpen demo_rnd 4 4] initial).

Definition demo_blocked_lost : State :=
  Eval vm_compute in default initial (openAt demo_rnd 1 0 demo_blocked).

Definition flood_demo : Grid :=
  [[mkCell false false false 0; mkCell false false false 1;
    mkCell true false false 0];
   [mkCell false false true 0; mkCell false false false 1;
    mkCell false false false 1]].

(** [opened === totalSafe], the test of [checkWin]. *)
Definition all_safe_open (g : Grid) : Prop :=
  (countOpenSafe g).1 = (countOpenSafe g).2.

(** ** Counters and the seven-segment displays *)

(** [clamp]: [Math.max(min, Math.min(max, n))]. *)
Definition clamp (n min max : Z) : Z := Z.max min (Z.min max n).

(** [String(n)] of an integer. *)
Definition String_of_int (n : Z) : string := NilEmpty.string_of_int (Z.to_int n).

(** The numbers the counters read back from their own texts: [String] of
    an integer is a decimal text, and [Number] of a decimal text is an
    integer; [NaN] and the infinities are the other values [Number] and
    [Math.abs] can give. *)
Inductive Num := NaN | Inf (negative : bool) | Fin (z : Z).

(** [String(x)] of such a number. *)
Definition String_of_Num (x : Num) : string :=
  match x with
  | NaN => "NaN"
  | Inf negative => if negative then "-Infinity" else "Infinity"
  | Fin z => String_of_int z
  end.

(** [Number(s)] on the strings the page gives it: a run of decimal digits
    after an optional minus sign, the empty string being 0.  Other strings
    are outside this reading and give [NaN]. *)
Definition Number_dec (s : string) : Num :=
  if String.eqb s "-" then NaN
  else match NilEmpty.int_of_string s with
       | Some d => Fin (Z.of_int d)
       | None => NaN
       end.

(** [Math.abs] *)
Definition num_abs (x : Num) : Num :=
  match x with
  | NaN => NaN
  | Inf _ => Inf false
  | Fin z => Fin (Z.abs z)
  end.

(** [n] copies of a character. *)
Fixpoint repeat_char (n : nat) (c : ascii) : string :=
  match n with
  | O => EmptyString
  | S n' => String c (repeat_char n' c)
  end.

(** [s.padStart(len, c)] for a one-character filler. *)
Definition padStart (len : nat) (c : ascii) (s : string) : string :=
  repeat_char (len - String.length s) c +:+ s.

(** [pad3]: the three characters of a counter. *)
Definition pad3 (n : Z) : string :=
  let s := String_of_int (clamp n (-99) 999) in
  if String.prefix "-" s
  then "-" +:+ padStart 2 "0" (String_of_Num (num_abs (Number_dec s)))
  else padStart 3 "0" s.

(** [formatTime]: [Math.floor(s / 60)] and [s % 60], the remainder taking
    the sign of [s]. *)
Definition formatTime (s : Z) : string :=
  let m := s / 60 in
  let ss := Z.rem s 60 in
  padStart 2 "0" (String_of_int m) +:+ ":" +:+ padStart 2 "0" (String_of_int ss).

#[global] Instance Num_eq_dec : EqDecision Num.
Proof. solve_decision. Defined.

(** The segments "a" to "g" of a digit. *)
Inductive Seg := Sa | Sb | Sc | Sd | Se | Sf | Sg.

#[global] Instance Seg_eq_dec : EqDecision Seg.
Proof. solve_decision. Defined.

(** [DIGIT_MAP]; [None] is a missing key. *)
Definition DIGIT_MAP (ch : ascii) : option (list Seg) :=
  if Ascii.eqb ch "0" then Some [Sa; Sb; Sc; Sd; Se; Sf]
  else if Ascii.eqb ch "1" then Some [Sb; Sc]
  else if Ascii.eqb ch "2" then Some [Sa; Sb; Sg; Se; Sd]
  else if Ascii.eqb ch "3" then Some [Sa; Sb; Sg; Sc; Sd]
  else if Ascii.eqb ch "4" then Some [Sf; Sg; Sb; Sc]
  else if Ascii.eqb ch "5" then Some [Sa; Sf; Sg; Sc; Sd]
  else if Ascii.eqb ch "6" then Some [Sa; Sf; Sg; Se; Sc; Sd]
  else if Ascii.eqb ch "7" then Some [Sa; Sb; Sc]
  else if Ascii.eqb ch "8" then Some [Sa; Sb; Sc; Sd; Se; Sf; Sg]
  else if Ascii.eqb ch "9" then Some [Sa; Sb; Sc; Sd; Sf; Sg]
  else if Ascii.eqb ch "-" then Some [Sg]
  else if Ascii.eqb ch " " then Some []
  else None.

(** A digit of a display: its segment spans, each with its name and
    whether it carries the class [on]. *)
Abbreviation DigitEl := (list (Seg * bool)).

(** [buildSevenSeg]: three digits of seven unlit segments. *)
Definition buildSevenSeg : list DigitEl :=
  replicate 3 (map (λ name, (name, false)) [Sa; Sb; Sc; Sd; Se; Sf; Sg]).

(** [setDigit]; [ch] is [None] for [text[i]] past the end of the text. *)
Definition setDigit (digitEl : DigitEl) (ch : option ascii) : DigitEl :=
  let on := default [] (ch ≫= DIGIT_MAP) in
  map (λ seg : Seg * bool, (seg.1, bool_decide (seg.1 ∈ on))) digitEl.

(** [setSevenSeg]: the loop over the first three digits of the container;
    a missing digit raises. *)
Definition setSevenSeg (container : list DigitEl) (value : Z) : option (list DigitEl) :=
  let text := pad3 value in
  foldl (λ acc i, c ← acc; d ← c !! i;
                  Some (<[i := setDigit d (String.get i text)]> c))
        (Some container) [0; 1; 2]%nat.

(** The minutes and seconds read off a clock text. *)
Definition read_clock (t : string) : Num * Num :=
  (Number_dec (String.substring 0 2 t), Number_dec (String.substring 3 2 t)).

(** The characters with an entry in [DIGIT_MAP]. *)
Definition glyphs : list ascii :=
  ["0"; "1"; "2"; "3"; "4"; "5"; "6"; "7"; "8"; "9"; "-"; " "]%char.

(** The character a digit of a display shows: the one whose segments are
    those that are lit. *)
Definition read_digit (d : DigitEl) : option ascii :=
  List.find (λ ch, bool_decide (setDigit d (Some ch) = d)) glyphs.

(** The text a display shows, [None] when a digit shows no character. *)
Definition read_display (c : list DigitEl) : option string :=
  chars ← mapM read_digit c; Some (string_of_list_ascii chars).

(** The values of the counters: the integers from -99 to 999. *)
Definition counter_range : list Z := seqZ (-99) 1099.

(** The values of the clock texts of five characters: 0 to 5999 seconds. *)
Definition clock_range : list Z := seqZ 0 6000.

(** What is checked of [pad3] at each value of a counter: three
    characters, each with an entry in [DIGIT_MAP], that read back as the
    value and as what the display shows. *)
Definition pad3_ok (c : Z) : bool :=
  forallb (λ i, match String.get i (pad3 c) with
                | Some ch => bool_decide (is_Some (DIGIT_MAP ch))
                | None => false
                end) [0; 1; 2]%nat
  && (String.length (pad3 c) =? 3)%nat
  && bool_decide (Number_dec (pad3 c) = Fin c)
  && bool_decide (setSevenSeg buildSevenSeg c ≫= read_display = Some (pad3 c)).

(** What is checked of [formatTime] at each time: five characters, the
    colon in the middle, minutes and seconds on its sides. *)
Definition formatTime_ok (s : Z) : bool :=
  (String.length (formatTime s) =? 5)%nat
  && bool_decide (String.get 2 (formatTime s) = Some ":"%char)
  && bool_decide (read_clock (formatTime s) = (Fin (s / 60), Fin (s mod 60))).

(** ** The whole [state] object

    [UI] adds to the game fields of [State] the fields [timer], [timerId]
    (whether an interval is installed), [focus] and [touchMode], and the
    functions below add to the session functions the statements that touch
    them: [stopTimer] in [gameOver] and [newGame], [startTimer] in
    [ensureMinesPlaced], the resets of [newGame]. *)

Record UI := mkUI
  { core : State; timer : Z; timerId : bool; focus : Pos; touchMode : string }.

Definition set_core (s : State) (ui : UI) : UI :=
  mkUI s (timer ui) (timerId ui) (focus ui) (touchMode ui).
Definition set_timer (t : Z) (ui : UI) : UI :=
  mkUI (core ui) t (timerId ui) (focus ui) (touchMode ui).
Definition set_focus (p : Pos) (ui : UI) : UI :=
  mkUI (core ui) (timer ui) (timerId ui) p (touchMode ui).
Definition set_touchMode (m : string) (ui : UI) : UI :=
  mkUI (core ui) (timer ui) (timerId ui) (focus ui) m.

Definition stopTimer (ui : UI) : UI :=
  mkUI (core ui) (timer ui) false (focus ui) (touchMode ui).

Definition startTimer (ui : UI) : UI :=
  let ui := stopTimer ui in
  mkUI (core ui) (timer ui) true (focus ui) (touchMode ui).

(** The callback [startTimer] installs, run once. *)
Definition timerTick (ui : UI) : UI :=
  if negb (status_eqb (status (core ui)) RUNNING) then ui
  else set_timer (clamp (timer ui + 1) 0 999) ui.

(** [newGame] with its resets of [timer] and [focus] and its [stopTimer]. *)
Definition newGameU (ui : UI) : option UI :=
  s ← newGame (core ui);
  Some (set_focus (0, 0) (stopTimer (set_timer 0 (set_core s ui)))).

Definition applyConfigU (c : option CfgIn) (ui : UI) : option UI :=
  let safe := safe_config c in
  '(rows, cols, mines) ← integer_sizes safe;
  newGameU (set_core (mkState safe rows cols mines
                        (grid (core ui)) (status (core ui)) (firstClick (core ui))
                        (calls (core ui))) ui).

(** [gameOver], which begins with [stopTimer]. *)
Definition gameOverU (win : bool) (ui : UI) : option UI :=
  let ui := stopTimer ui in
  s ← gameOver win (core ui); Some (set_core s ui).

Definition checkWinU (ui : UI) : option UI :=
  let '(opened, totalSafe) := countOpenSafe (grid (core ui)) in
  if (opened =? totalSafe)%nat && negb (status_eqb (status (core ui)) WON)
  then gameOverU true ui else Some ui.

(** [ensureMinesPlaced], which ends with [startTimer]. *)
Definition ensureMinesPlacedU (rnd : nat → nat) (firstR firstC : Z) (ui : UI)
  : option UI :=
  if negb (firstClick (core ui)) then Some ui
  else
    s ← ensureMinesPlaced rnd firstR firstC (core ui);
    Some (startTimer (set_core s ui)).

Definition openAtU (rnd : nat → nat) (r c : Z) (ui : UI) : option UI :=
  if terminal (core ui) then Some ui
  else
    ui1 ← ensureMinesPlacedU rnd r c ui;
    let res := openCell (grid (core ui1)) (r, c) in
    let s2 := log_call (CallOpen r c) (set_grid (o_grid res) (core ui1)) in
    if hitMine res then
      _ ← cell_at (grid s2) (r, c);
      s3 ← renderBoard (set_grid (upd (set_open true) (r, c) (grid s2)) s2);
      gameOverU false (set_core s3 ui1)
    else
      s3 ← renderBoard s2;
      checkWinU (set_core s3 ui1).

Definition flagAtU (r c : Z) (ui : UI) : option UI :=
  s ← flagAt r c (core ui); Some (set_core s ui).

Definition chordAtU (r c : Z) (ui : UI) : option UI :=
  if negb (status_eqb (status (core ui)) RUNNING) then Some ui
  else
    let res := chordOpen (grid (core ui)) (r, c) in
    let s1 := log_call (CallChord r c) (set_grid (c_grid res) (core ui)) in
    if negb (did res) then Some (set_core s1 ui)
    else if c_hitMine res then
      s2 ← renderBoard s1; gameOverU false (set_core s2 ui)
    else
      s2 ← renderBoard s1; checkWinU (set_core s2 ui).

(** [focusCell]: the new focus, clamped to the board. *)
Definition focusCell (r c : Z) (ui : UI) : UI :=
  set_focus (clamp r 0 (rows (core ui) - 1), clamp c 0 (cols (core ui) - 1)) ui.

(** [s.toLowerCase()] on the letters A to Z; other characters are kept. *)
Definition lower_char (ch : ascii) : ascii :=
  let n := nat_of_ascii ch in
  if (65 <=? n)%nat && (n <=? 90)%nat then ascii_of_nat (n + 32) else ch.
Fixpoint toLowerCase (s : string) : string :=
  match s with
  | EmptyString => EmptyString
  | String ch s' => String (lower_char ch) (toLowerCase s')
  end.

(** The [keydown] handler of the board; [key] is [e.key]. *)
Definition keydown (rnd : nat → nat) (key : string) (ui : UI) : option UI :=
  let '(r, c) := focus ui in
  if String.eqb key "ArrowUp" then Some (focusCell (r - 1) c ui)
  else if String.eqb key "ArrowDown" then Some (focusCell (r + 1) c ui)
  else if String.eqb key "ArrowLeft" then Some (focusCell r (c - 1) ui)
  else if String.eqb key "ArrowRight" then Some (focusCell r (c + 1) ui)
  else if String.eqb key " " || String.eqb key "Spacebar" then openAtU rnd r c ui
  else if String.eqb (toLowerCase key) "f" then flagAtU r c ui
  else if String.eqb key "Enter" then chordAtU r c ui
  else Some ui.

(** The three touch modes, [modes] of [applyTouchModeUI] and
    [setTouchMode]. *)
Definition modes : list string := ["reveal"; "flag"; "chord"].

Definition normal_mode (mode : string) : string :=
  if bool_decide (mode ∈ modes) then mode else "reveal".

(** [applyTouchModeUI]: the [aria-selected] attributes it gives the
    reveal, flag and chord tabs. *)
Definition applyTouchModeUI (mode : string) : bool * bool * bool :=
  let mode := normal_mode mode in
  (String.eqb mode "reveal", String.eqb mode "flag", String.eqb mode "chord").

Definition setTouchMode (mode : string) (ui : UI) : UI :=
  set_touchMode (normal_mode mode) ui.

(** [performByMode]; [touch] is the answer of [isTouchPrimary]. *)
Definition performByMode (touch : bool) (rnd : nat → nat) (r c : Z) (ui : UI)
  : option UI :=
  if touch then
    if String.eqb (touchMode ui) "flag" then flagAtU r c ui
    else if String.eqb (touchMode ui) "chord" then chordAtU r c ui
    else openAtU rnd r c ui
  else openAtU rnd r c ui.

(** What the page can make the session do. *)
Inductive UOp :=
| UApplyConfig (c : option CfgIn)
| UNewGame
| UOpen (rnd : nat → nat) (r c : Z)
| UFlag (r c : Z)
| UChord (r c : Z)
| UTick
| UKey (rnd : nat → nat) (key : string)
| UPointerDown (r c : Z)
| USetTouchMode (mode : string)
| UPerform (touch : bool) (rnd : nat → nat) (r c : Z).

(** One event.  The interval callback runs only while an interval is
    installed. *)
Definition ustep (o : UOp) (ui : UI) : option UI :=
  match o with
  | UApplyConfig c => applyConfigU c ui
  | UNewGame => newGameU ui
  | UOpen rnd r c => openAtU rnd r c ui
  | UFlag r c => flagAtU r c ui
  | UChord r c => chordAtU r c ui
  | UTick => Some (if timerId ui then timerTick ui else ui)
  | UKey rnd key => keydown rnd key ui
  | UPointerDown r c => Some (focusCell r c ui)
  | USetTouchMode mode => Some (setTouchMode mode ui)
  | UPerform touch rnd r c => performByMode touch rnd r c ui
  end.

Fixpoint urun (ops : list UOp) (ui : UI) : option UI :=
  match ops with
  | [] => Some ui
  | o :: rest => ui' ← ustep o ui; urun rest ui'
  end.

(** The [state] literal of [createUI]; [mode] is the stored touch mode. *)
Definition initialU (mode : string) : UI := mkUI initial 0 false (0, 0) mode.

Inductive ureachable : UI → Prop :=
| ureachable_start mode c ui :
    applyConfigU c (initialU mode) = Some ui → ureachable ui
| ureachable_step o ui ui' :
    ureachable ui → ustep o ui = Some ui' → ureachable ui'.

(** The invariant of the whole state. *)
Record UInv (ui : UI) : Prop := mkUInv
  { uinv_timer : 0 ≤ timer ui ≤ 999;
    uinv_clock : timerId ui = true ↔ status (core ui) = RUNNING;
    uinv_ready : status (core ui) = READY → timer ui = 0;
    uinv_focus : in_grid (grid (core ui)) (focus ui) = true }.

(** What a reveal, flag or chord request leaves of the whole state: the
    timer, the focus, the touch mode and the board size stay, and the
    interval follows the status. *)
Definition kept (ui ui' : UI) : Prop :=
  timer ui' = timer ui ∧ focus ui' = focus ui ∧ touchMode ui' = touchMode ui ∧
  rows (core ui') = rows (core ui) ∧ cols (core ui') = cols (core ui) ∧
  ((status (core ui') = status (core ui) ∧ timerId ui' = timerId ui) ∨
   (terminal (core ui') = true ∧ timerId ui' = false) ∨
   (status (core ui') = RUNNING ∧ timerId ui' = true)).

(** The sample game in the whole state: started with the stored touch mode
    "flag", the first reveal at (4,4), two ticks of the clock, and the
    focus moved down once. *)
Definition demo_ui_ops : list UOp :=
  [UOpen demo_rnd 4 4; UTick; UTick; UKey demo_rnd "ArrowDown"].

Definition demo_ui_fresh : UI :=
  Eval vm_compute in
    default (initialU "flag") (applyConfigU demo_cfg (initialU "flag")).

Definition demo_ui : UI :=
  Eval vm_compute in default (initialU "flag") (urun demo_ui_ops demo_ui_fresh).

(** The four arrow keys. *)
Definition arrows : list string :=
  ["ArrowUp"; "ArrowDown"; "ArrowLeft"; "ArrowRight"].

(** ** What [renderBoard] draws

    The six texts of [getCellAriaLabel] after the row and the column, in
    the order of its [return]s. *)
Inductive Label :=
| LabelMine
| LabelMineExploded
| LabelBlankOpen
| LabelNumberOpen (n : nat)
| LabelFlagged
| LabelClosed.

(** [getCellAriaLabel]: the row and the column it names, from 1, and the
    text that follows them. *)
Definition getCellAriaLabel (st : GameStatus) (r c : Z) (cell : Cell)
  : Z * Z * Label :=
  let base := (r + 1, c + 1) in
  if status_eqb st LOST && mine cell then (base, LabelMine)
  else if open cell then
    if mine cell then (base, LabelMineExploded)
    else if (num cell =? 0)%nat then (base, LabelBlankOpen)
    else (base, LabelNumberOpen (num cell))
  else if flag cell then (base, LabelFlagged)
  else (base, LabelClosed).

(** What a cell's button contains: the explosion, the bomb, a number, the
    flag icon, or nothing. *)
Inductive Content :=
| ContentBoom
| ContentBomb
| ContentNumber (n : nat)
| ContentFlag
| ContentNone.

Record Button := mkButton
  { b_r : Z; b_c : Z; b_open : bool; b_boom : bool;
    b_content : Content; b_label : Z * Z * Label }.

(** [boomAt && boomAt[0] === r && boomAt[1] === c] *)
Definition is_boom (boomAt : option Pos) (r c : Z) : bool :=
  match boomAt with
  | Some (br, bc) => (br =? r) && (bc =? c)
  | None => false
  end.

(** The body of the loops of [renderBoard]: the button of one cell. *)
Definition cellButton (st : GameStatus) (boomAt : option Pos) (r c : Z) (cell : Cell)
  : Button :=
  mkButton r c (open cell) (is_boom boomAt r c)
    (if open cell then
       if mine cell then (if is_boom boomAt r c then ContentBoom else ContentBomb)
       else if (0 <? num cell)%nat then ContentNumber (num cell)
       else ContentNone
     else if flag cell then ContentFlag else ContentNone)
    (getCellAriaLabel st r c cell).

(** The buttons [renderBoard] puts on the board, row after row; it raises
    when it reads a field of a cell that is not there. *)
Definition renderBoard_buttons (boomAt : option Pos) (s : State)
  : option (list Button) :=
  rws ← mapM (λ r, mapM (λ c, cell ← cell_at (grid s) (r, c);
                              Some (cellButton (status s) boomAt r c cell))
                        (seqZ 0 (cols s)))
             (seqZ 0 (rows s));
  Some (concat rws).

(** The coordinates the loops of [renderBoard] run through, row after
    row. *)
Definition loop_cells (rs cs : list Z) : list Pos :=
  concat (map (λ r, map (λ c, (r, c)) cs) rs).

(** Whether a button shows a mine. *)
Definition shows_mine (b : Button) : bool :=
  match b_content b, b_label b with
  | ContentBoom, _ | ContentBomb, _ => true
  | _, (_, LabelMine) | _, (_, LabelMineExploded) => true
  | _, _ => false
  end.

(** In a lost game every mine is open. *)
Definition Inv3 (s : State) : Prop :=
  status s = LOST →
  ∀ p c, cell_at (grid s) p = Some c → mine c = true → open c = true.

(** ** The stored settings

    [localStorage] as the two files use it: its entries, whether every
    access raises (storage disabled), and which writes the quota lets
    through. *)
Record LocalStorage := mkLocalStorage
  { ls_items : gmap string string;
    ls_denied : bool;
    ls_room : string → string → bool }.

(** [localStorage.getItem]: [None] when it raises. *)
Definition getItem (k : string) (ls : LocalStorage) : option (option string) :=
  if ls_denied ls then None else Some (ls_items ls !! k).

(** [localStorage.setItem]: [None] when it raises. *)
Definition setItem (k v : string) (ls : LocalStorage) : option LocalStorage :=
  if ls_denied ls || negb (ls_room ls k v) then None
  else Some (mkLocalStorage (<[k := v]> (ls_items ls)) (ls_denied ls) (ls_room ls)).

(** [PREFIX] of the entry script and [KEY_PREFIX] of the storage helper. *)
Definition PREFIX : string := "msw_ret:".
Definition KEY_PREFIX : string := "msw_ret".

(** The template [`${KEY_PREFIX}:${key}`]. *)
Definition storage_key (key : string) : string := KEY_PREFIX +:+ ":" +:+ key.

Section Storage.
(** The values of the page, with [JSON.stringify] and [JSON.parse];
    [None] is a raised exception. *)
Context {V : Type}.
Variable stringify : V → option string.
Variable parse : string → option V.

Definition save (key : string) (value : V) (ls : LocalStorage) : LocalStorage :=
  default ls (text ← stringify value; setItem (storage_key key) text ls).

Definition load (key : string) (fallback : V) (ls : LocalStorage) : V :=
  default fallback
    (raw ← getItem (storage_key key) ls;
     match raw with
     | None | Some EmptyString => Some fallback
     | Some raw => parse raw
     end).
End Storage.

(** [clearSettings]: the keys that start with [PREFIX] are collected, then
    removed. *)
Definition clearSettings (ls : LocalStorage) : LocalStorage :=
  if ls_denied ls then ls
  else
    let keys :=
      List.filter (λ k, negb (String.eqb k "") && String.prefix PREFIX k)
                  (map fst (map_to_list (ls_items ls))) in
    mkLocalStorage (foldl (λ m k, delete k m) (ls_items ls) keys)
                   (ls_denied ls) (ls_room ls).

(** [JSON.stringify] and [JSON.parse] on the two booleans. *)
Definition stringify_bool (b : bool) : option string :=
  Some (if b then "true" else "false").
Definition parse_bool (s : string) : option bool :=
  if String.eqb s "true" then Some true
  else if String.eqb s "false" then Some false
  else None.

(** A storage with the sound setting of this page and an entry of another. *)
Definition demo_storage : LocalStorage :=
  mkLocalStorage (<["msw_ret:sound" := "false"]> (<["other" := "1"]> ∅)) false
                 (λ _ _, true).

(** The displays of the page: made by [buildSevenSeg], then only changed by
    [setSevenSeg]. *)
Inductive display : list DigitEl → Prop :=
| display_built : display buildSevenSeg
| display_set c v c' : display c → setSevenSeg c v = Some c' → display c'.

(** [state.mines - flags], the number [updateCounters] shows. *)
Definition remaining (s : State) : Z := mines s - Z.of_nat (countFlags (grid s)).

(** [updateCounters]: the mine display after it, and the number in the
    text beside it. *)
Definition updateCounters (container : list DigitEl) (s : State)
  : option (list DigitEl) * Z :=
  let flags := Z.of_nat (countFlags (grid s)) in
  (setSevenSeg container (mines s - flags), mines s - flags).

(** A fresh game of 30 rows and 40 columns with the 1191 mines the checks
    allow. *)
Definition demo_big : State :=
  Eval vm_compute in
    default initial
      (applyConfig (Some (mkCfgIn 30 40 1191)) initial).

(** * Proofs *)

(** ** Reading and updating the grid *)

Lemma cell_at_upd f p g q :
  cell_at (upd f p g) q = if decide (p = q) then f <$> cell_at g q else cell_at g q.
Proof.
  destruct p as [pr pc], q as [qr qc]. unfold cell_at, upd; simpl.
  destruct (Z.leb_spec 0 pr), (Z.leb_spec 0 pc); simpl;
    try (case_decide as E; [inversion E; subst|]; repeat case_match; done || lia).
  destruct (Z.leb_spec 0 qr), (Z.leb_spec 0 qc); simpl;
    try (case_decide; reflexivity).
  destruct (decide (Z.to_nat pr = Z.to_nat qr)) as [Er|Er].
  - rewrite Er, list_lookup_alter_eq.
    destruct (g !! Z.to_nat qr) as [row|]; simpl; [|by case_decide].
    destruct (decide (Z.to_nat pc = Z.to_nat qc)) as [Ec|Ec].
    + rewrite Ec, list_lookup_alter_eq.
      rewrite decide_True; [reflexivity|]. f_equal; lia.
    + rewrite list_lookup_alter_ne by done.
      rewrite decide_False; [reflexivity|]. intros [=]; lia.
  - rewrite list_lookup_alter_ne by done.
    rewrite decide_False; [reflexivity|]. intros [=]; lia.
Qed.

Lemma cell_at_grid_imap F g p :
  cell_at (grid_imap F g) p = F p <$> cell_at g p.
Proof.
  destruct p as [r c]. unfold cell_at, grid_imap; simpl.
  destruct (Z.leb_spec 0 r), (Z.leb_spec 0 c); simpl; try reflexivity.
  rewrite list_lookup_imap.
  destruct (g !! Z.to_nat r) as [row|]; simpl; [|reflexivity].
  rewrite list_lookup_imap. rewrite !Z2Nat.id by lia. reflexivity.
Qed.

Lemma shape_upd f p g : shape (upd f p g) = shape g.
Proof.
  unfold shape, upd. case_match; [|done].
  generalize (Z.to_nat p.1) as i. clear. induction g as [|row g IH]; intros [|i]; simpl.
  - done.
  - done.
  - f_equal. apply length_alter.
  - f_equal. apply IH.
Qed.

Lemma shape_grid_imap F g : shape (grid_imap F g) = shape g.
Proof.
  unfold shape, grid_imap. apply list_eq. intros i.
  rewrite !list_lookup_fmap, list_lookup_imap.
  destruct (g !! i) as [row|]; simpl; [|done].
  by rewrite length_imap.
Qed.

Lemma cell_at_shape g p :
  is_Some (cell_at g p) ↔
  0 ≤ p.1 ∧ 0 ≤ p.2 ∧ ∃ n, shape g !! Z.to_nat p.1 = Some n ∧ (Z.to_nat p.2 < n)%nat.
Proof.
  unfold cell_at, shape. rewrite list_lookup_fmap.
  destruct (Z.leb_spec 0 p.1), (Z.leb_spec 0 p.2); simpl;
    try (split; [by intros [? [=]]|intros; lia]).
  destruct (g !! Z.to_nat p.1) as [row|]; simpl.
  - rewrite lookup_lt_is_Some. split.
    + intros Hlt. repeat split; try lia. by exists (length row).
    + intros (_ & _ & n & [= <-] & Hlt). done.
  - split; [by intros [? [=]]|]. by intros (_ & _ & n & [=] & _).
Qed.

Lemma in_grid_is_Some g p : in_grid g p = true ↔ is_Some (cell_at g p).
Proof.
  unfold in_grid. destruct (cell_at g p); split; try done; by intros [? [=]].
Qed.

Lemma in_grid_shape g g' p : shape g' = shape g → in_grid g' p = in_grid g p.
Proof.
  intros Hs. apply eq_true_iff_eq. rewrite !in_grid_is_Some, !cell_at_shape.
  by rewrite Hs.
Qed.

Lemma in_grid_dims s p :
  dims_ok s = true →
  in_grid (grid s) p = true ↔ (0 ≤ p.1 < rows s ∧ 0 ≤ p.2 < cols s).
Proof.
  unfold dims_ok. intros [[Hr Hc]%andb_true_iff Hs%bool_decide_eq_true]%andb_true_iff.
  apply Z.leb_le in Hr, Hc.
  rewrite in_grid_is_Some, cell_at_shape, Hs. split.
  - intros (H1 & H2 & n & [-> Hn]%lookup_replicate & Hlt). lia.
  - intros [H1 H2]. repeat split; try lia. exists (Z.to_nat (cols s)). split; [|lia].
    apply lookup_replicate. split; [done|lia].
Qed.

Lemma inb_true p l : inb p l = true ↔ p ∈ l.
Proof. unfold inb. apply bool_decide_eq_true. Qed.

Lemma inb_false p l : inb p l = false ↔ p ∉ l.
Proof. unfold inb. apply bool_decide_eq_false. Qed.

Lemma floodable_in_grid g p : floodable g p = true → in_grid g p = true.
Proof. unfold floodable, in_grid. by destruct (cell_at g p). Qed.

Lemma positions_spec g p : p ∈ positions g ↔ in_grid g p = true.
Proof.
  unfold positions, in_grid, cell_at. rewrite list_elem_of_In, in_concat. split.
  - intros (l & Hl & Hp).
    apply list_elem_of_In, elem_of_lookup_imap in Hl as (i & row & -> & Hrow).
    apply list_elem_of_In, elem_of_lookup_imap in Hp as (j & c & -> & Hc). simpl.
    rewrite !Nat2Z.id.
    destruct (Z.leb_spec 0 (Z.of_nat i)), (Z.leb_spec 0 (Z.of_nat j)); try lia.
    simpl. rewrite Hrow. simpl. by rewrite Hc.
  - destruct p as [r c]; simpl.
    destruct (Z.leb_spec 0 r), (Z.leb_spec 0 c); simpl; try done.
    destruct (g !! Z.to_nat r) as [row|] eqn:Hrow; simpl; [|done].
    destruct (row !! Z.to_nat c) as [x|] eqn:Hx; [|done]. intros _.
    exists (imap (λ j (_ : Cell), (r, Z.of_nat j)) row). split.
    + apply list_elem_of_In, elem_of_lookup_imap. exists (Z.to_nat r), row.
      rewrite Z2Nat.id by lia. done.
    + apply list_elem_of_In, elem_of_lookup_imap. exists (Z.to_nat c), x.
      rewrite Z2Nat.id by lia. done.
Qed.

Lemma cell_in_concat (g : Grid) p c : cell_at g p = Some c → In c (concat g).
Proof.
  unfold cell_at. case_match; [|done].
  destruct (g !! Z.to_nat p.1) as [row|] eqn:Hrow; simpl; [|done]. intros Hc.
  apply in_concat. exists row.
  split; apply list_elem_of_In; eapply list_elem_of_lookup_2; eauto.
Qed.

(** A filter that keeps less than another on one element at least is
    strictly shorter. *)
Lemma filter_length_lt {A} (f f' : A → bool) (l : list A) x :
  (∀ y, f' y = true → f y = true) → In x l → f x = true → f' x = false →
  (length (List.filter f' l) < length (List.filter f l))%nat.
Proof.
  intros Himp.
  assert (Hle : ∀ l', (length (List.filter f' l') ≤ length (List.filter f l'))%nat).
  { induction l' as [|a l' IH]; simpl; [lia|].
    destruct (f' a) eqn:Ea; [rewrite (Himp _ Ea); simpl; lia|].
    destruct (f a); simpl; lia. }
  induction l as [|a l IH]; simpl; [done|].
  intros [->|Hin] Hf Hf'.
  - rewrite Hf, Hf'. simpl. specialize (Hle l). lia.
  - specialize (IH Hin Hf Hf').
    destruct (f' a) eqn:Ea; [rewrite (Himp _ Ea); simpl; lia|].
    destruct (f a); simpl; lia.
Qed.

(** ** The flood fill *)

Section FloodFill.
Variable g : Grid.

Lemma pending_le_positions visited : (pending g visited ≤ length (positions g))%nat.
Proof. apply List.filter_length_le. Qed.

Lemma pending_visit p visited :
  floodable g p = true → inb p visited = false →
  (pending g (p :: visited) < pending g visited)%nat.
Proof.
  intros Hf Hv. unfold pending. apply filter_length_lt with (x := p).
  - intros y [Hy1 Hy2]%andb_true_iff. rewrite Hy1. simpl.
    apply negb_true_iff, inb_false in Hy2. apply negb_true_iff, inb_false.
    intros Hin. apply Hy2. by apply elem_of_cons; right.
  - apply list_elem_of_In, positions_spec. by apply floodable_in_grid.
  - by rewrite Hf, Hv.
  - rewrite Hf. simpl. apply negb_false_iff, inb_true. by apply elem_of_cons; left.
Qed.

Lemma neighbors_length p : length (neighbors p) = 8%nat.
Proof. reflexivity. Qed.

Lemma flood_sound start fuel : ∀ visited work,
  (∀ x, x ∈ visited → flooded g start x) →
  (∀ x, x ∈ work → floodable g x = true → flooded g start x) →
  ∀ x, x ∈ flood fuel g visited work → flooded g start x.
Proof.
  induction fuel as [|fuel IH]; intros visited work Hv Hw x; cbn [flood];
    [by apply Hv|].
  destruct work as [|p rest]; [by apply Hv|].
  destruct (inb p visited || negb (floodable g p)) eqn:Hskip.
  { apply IH; [done|]. intros y Hy. apply Hw. by apply elem_of_cons; right. }
  apply orb_false_iff in Hskip as [Hnv Hfl]. apply negb_false_iff in Hfl.
  assert (Hp : flooded g start p) by (apply Hw; [by apply elem_of_cons; left|done]).
  assert (Hv' : ∀ y, y ∈ p :: visited → flooded g start y).
  { intros y [->|Hy]%elem_of_cons; [done|by apply Hv]. }
  destruct (Nat.eqb_spec (num_at g p) 0) as [Hz|Hz].
  - apply IH; [done|]. intros y [Hy|Hy]%elem_of_app Hfy.
    + by apply flooded_step with (q := p).
    + apply Hw; [by apply elem_of_cons; right|done].
  - apply IH; [done|]. intros y Hy. apply Hw. by apply elem_of_cons; right.
Qed.

Lemma flood_complete fuel : ∀ visited work,
  (9 * pending g visited + length work < fuel)%nat →
  closed_upto g visited work →
  let R := flood fuel g visited work in
  (∀ x, x ∈ visited → x ∈ R) ∧
  (∀ x, x ∈ work → floodable g x = true → x ∈ R) ∧
  closed_upto g R [].
Proof.
  induction fuel as [|fuel IH]; intros visited work Hfuel Hcl; [lia|]. cbn [flood].
  destruct work as [|p rest].
  { split; [done|]. split; [by intros x Hx%elem_of_nil|]. done. }
  cbn [length] in Hfuel.
  destruct (inb p visited || negb (floodable g p)) eqn:Hskip.
  { destruct (IH visited rest) as (H1 & H2 & H3); [lia| |].
    - intros q Hq Hz y Hy Hfy.
      destruct (Hcl q Hq Hz y Hy Hfy) as [?|[->|?]%elem_of_cons]; auto.
      rewrite Hfy in Hskip. simpl in Hskip. rewrite orb_false_r in Hskip.
      left. by apply inb_true.
    - split; [done|]. split; [|done].
      intros x [->|Hx]%elem_of_cons Hfx; [|by apply H2].
      rewrite Hfx in Hskip. simpl in Hskip. rewrite orb_false_r in Hskip.
      by apply H1, inb_true. }
  apply orb_false_iff in Hskip as [Hnv Hfl]. apply negb_false_iff in Hfl.
  pose proof (pending_visit p visited Hfl Hnv) as Hpend.
  destruct (Nat.eqb_spec (num_at g p) 0) as [Hz|Hz].
  - destruct (IH (p :: visited) (neighbors p ++ rest)) as (H1 & H2 & H3).
    + rewrite length_app, neighbors_length. lia.
    + intros q [->|Hq]%elem_of_cons Hzq y Hy Hfy.
      * right. apply elem_of_app. by left.
      * destruct (Hcl q Hq Hzq y Hy Hfy) as [?|[->|?]%elem_of_cons].
        -- left. by apply elem_of_cons; right.
        -- left. by apply elem_of_cons; left.
        -- right. apply elem_of_app. by right.
    + split; [intros x Hx; apply H1; by apply elem_of_cons; right|].
      split; [|done]. intros x [->|Hx]%elem_of_cons Hfx.
      * apply H1. by apply elem_of_cons; left.
      * apply H2; [|done]. apply elem_of_app. by right.
  - destruct (IH (p :: visited) rest) as (H1 & H2 & H3).
    + lia.
    + intros q [->|Hq]%elem_of_cons Hzq y Hy Hfy; [done|].
      destruct (Hcl q Hq Hzq y Hy Hfy) as [?|[->|?]%elem_of_cons].
      * left. by apply elem_of_cons; right.
      * left. by apply elem_of_cons; left.
      * by right.
    + split; [intros x Hx; apply H1; by apply elem_of_cons; right|].
      split; [|done]. intros x [->|Hx]%elem_of_cons Hfx.
      * apply H1. by apply elem_of_cons; left.
      * by apply H2.
Qed.

(** With the fuel [openCell] gives it, the flood fill visits exactly the
    cells of [flooded]. *)
Lemma flood_exact start x :
  x ∈ flood (flood_fuel g) g [] [start] ↔ flooded g start x.
Proof.
  split.
  - apply flood_sound; [by intros y Hy%elem_of_nil|].
    intros y Hy%list_elem_of_singleton Hf. subst. by constructor.
  - destruct (flood_complete (flood_fuel g) [] [start]) as (_ & H2 & H3).
    + unfold flood_fuel. pose proof (pending_le_positions []). simpl. lia.
    + by intros q Hq%elem_of_nil.
    + induction 1 as [Hs|q p Hq IH Hz Hp Hf].
      * apply H2; [by apply list_elem_of_singleton|done].
      * destruct (H3 q IH Hz p Hp Hf) as [?|[]%elem_of_nil]. done.
Qed.

Lemma flooded_floodable start x : flooded g start x → floodable g x = true.
Proof. by destruct 1. Qed.

Lemma zero_region_flooded start x : zero_region g start x → flooded g start x.
Proof.
  induction 1 as [Hf Hz|q p Hq IH Hp Hf Hz]; [by constructor|].
  eapply flooded_step; eauto.
  clear -Hq. by destruct Hq.
Qed.

Lemma zero_region_zero start x : zero_region g start x → num_at g x = 0%nat.
Proof. by destruct 1. Qed.

(** From a start cell with [num = 0] the flood fill reaches the zero
    region and its numbered border, and nothing else. *)
Lemma flooded_closure start x :
  num_at g start = 0%nat →
  flooded g start x ↔ zero_region g start x ∨ border g start x.
Proof.
  intros Hz0. split.
  - induction 1 as [Hs|q p Hq IH Hz Hp Hf].
    + left. by constructor.
    + assert (Hzq : zero_region g start q).
      { destruct IH as [?|(_ & Hn & _)]; [done|lia]. }
      destruct (Nat.eq_dec (num_at g p) 0%nat) as [Hzp|Hnp].
      * left. eapply zero_region_step; eauto.
      * right. split; [done|]. split; [lia|]. eauto.
  - intros [Hzr|(Hf & Hn & q & Hq & Hp)].
    + by apply zero_region_flooded.
    + eapply flooded_step; eauto using zero_region_flooded, zero_region_zero.
Qed.

End FloodFill.

(** ** Grids that differ by opened cells *)

Lemma opens_refl P g : opens P g g.
Proof. split; [done|]. intros q. by left. Qed.

Lemma opens_weaken (P Q : Cell → Prop) g g' :
  (∀ c, P c → Q c) → opens P g g' → opens Q g g'.
Proof.
  intros HPQ [Hs H]. split; [done|]. intros q.
  destruct (H q) as [?|(c & ? & ? & ?)]; [by left|right]. exists c. auto.
Qed.

Lemma opens_trans (P : Cell → Prop) g g1 g2 :
  (∀ c, P (set_open true c) → P c) →
  opens P g g1 → opens P g1 g2 → opens P g g2.
Proof.
  intros HP [Hs1 H1] [Hs2 H2]. split; [congruence|]. intros q.
  destruct (H2 q) as [E2|(c1 & E1 & E2 & HP1)].
  - rewrite E2. apply H1.
  - destruct (H1 q) as [E|(c & E & E' & HPc)].
    + right. exists c1. rewrite <- E. done.
    + right. exists c. rewrite E1 in E'. injection E' as ->.
      split; [done|]. split; [|done]. rewrite E2. done.
Qed.

Lemma opens_upd (P : Cell → Prop) g p c :
  cell_at g p = Some c → P c → opens P g (upd (set_open true) p g).
Proof.
  intros Hc HP. split; [apply shape_upd|]. intros q. rewrite cell_at_upd.
  case_decide as E; [subst q|by left]. right. exists c. by rewrite Hc.
Qed.

Lemma opens_imap (P : Cell → Prop) (b : Pos → bool) g :
  (∀ q c, b q = true → cell_at g q = Some c → P c) →
  opens P g (grid_imap (λ q c, if b q then set_open true c else c) g).
Proof.
  intros HP. split; [apply shape_grid_imap|]. intros q. rewrite cell_at_grid_imap.
  destruct (cell_at g q) as [c|] eqn:Hc; simpl; [|by left].
  destruct (b q) eqn:Hb; [|by left]. right. exists c. eauto.
Qed.

Lemma opens_mine_at P g g' q : opens P g g' → mine_at g' q = mine_at g q.
Proof.
  intros [_ H]. unfold mine_at.
  destruct (H q) as [->|(c & -> & -> & _)]; done.
Qed.

Lemma opens_flag_at P g g' q : opens P g g' → flag_at g' q = flag_at g q.
Proof.
  intros [_ H]. unfold flag_at.
  destruct (H q) as [->|(c & -> & -> & _)]; done.
Qed.

Lemma opens_open_at (P : Cell → Prop) g g' q :
  opens P g g' → open_at g' q = true →
  open_at g q = true ∨ ∃ c, cell_at g q = Some c ∧ P c.
Proof.
  intros [_ H]. unfold open_at.
  destruct (H q) as [->|(c & Hc & -> & HP)]; [by left|]. intros _. right. eauto.
Qed.

(** ** The engine operations *)

Lemma openCell_opens g p :
  opens (λ c, flag c = false ∧ open c = false) g (o_grid (openCell g p)).
Proof.
  unfold openCell. destruct (cell_at g p) as [c|] eqn:Hc; [|apply opens_refl].
  destruct (open c || flag c) eqn:Hof; [apply opens_refl|].
  apply orb_false_iff in Hof as [Ho Hf].
  destruct (mine c) eqn:Hm; simpl.
  - by apply opens_upd with (c := c).
  - split; [apply shape_grid_imap|]. intros q. rewrite cell_at_grid_imap.
    destruct (cell_at g q) as [cq|] eqn:Hq; simpl; [|by left].
    destruct (inb q _) eqn:Hb; [|by left].
    destruct (open cq) eqn:Hoq.
    + left. f_equal. destruct cq; simpl in *; by subst.
    + right. exists cq. split; [done|]. split; [done|]. split; [|done].
      apply inb_true, flood_exact, flooded_floodable in Hb.
      unfold floodable in Hb. rewrite Hq in Hb.
      apply andb_true_iff in Hb as [_ Hb]. by apply negb_true_iff in Hb.
Qed.

Lemma openCell_opens_safe g p :
  hitMine (openCell g p) = false →
  opens (λ c, mine c = false ∧ flag c = false) g (o_grid (openCell g p)).
Proof.
  unfold openCell. destruct (cell_at g p) as [c|] eqn:Hc; [|intros; apply opens_refl].
  destruct (open c || flag c) eqn:Hof; [intros; apply opens_refl|].
  destruct (mine c) eqn:Hm; simpl; [done|]. intros _.
  apply opens_imap. intros q cq Hb Hq.
  apply inb_true, flood_exact, flooded_floodable in Hb.
  unfold floodable in Hb. rewrite Hq in Hb.
  apply andb_true_iff in Hb as [Hb1 Hb2].
  by apply negb_true_iff in Hb1, Hb2.
Qed.

Lemma openCell_hit g p :
  hitMine (openCell g p) = true →
  ∃ c, cell_at g p = Some c ∧ mine c = true ∧ open c = false ∧ flag c = false ∧
       o_grid (openCell g p) = upd (set_open true) p g ∧
       opened (openCell g p) = [p].
Proof.
  unfold openCell. destruct (cell_at g p) as [c|] eqn:Hc; [|done].
  destruct (open c || flag c) eqn:Hof; [done|].
  apply orb_false_iff in Hof as [Ho Hf].
  destruct (mine c) eqn:Hm; simpl; [|done]. intros _. by exists c.
Qed.

Lemma chord_loop_opens ns : ∀ g,
  opens (λ c, flag c = false ∧ open c = false) g (chord_loop g ns).1.
Proof.
  induction ns as [|q ns IH]; intros g; simpl; [apply opens_refl|].
  destruct (open_at g q || flag_at g q || negb (in_grid g q)); [apply IH|].
  destruct (hitMine (openCell g q)); simpl; [apply openCell_opens|].
  eapply opens_trans; [|apply openCell_opens|apply IH].
  by intros c [_ [=]].
Qed.

Lemma chord_loop_opens_safe ns : ∀ g,
  (chord_loop g ns).2 = false →
  opens (λ c, mine c = false ∧ flag c = false) g (chord_loop g ns).1.
Proof.
  induction ns as [|q ns IH]; intros g; simpl; [intros; apply opens_refl|].
  destruct (open_at g q || flag_at g q || negb (in_grid g q)); [apply IH|].
  destruct (hitMine (openCell g q)) eqn:Hhit; simpl; [done|]. intros Hrest.
  eapply opens_trans; [|by apply openCell_opens_safe|by apply IH].
  by intros c.
Qed.

Lemma chordOpen_opens g p :
  opens (λ c, flag c = false ∧ open c = false) g (c_grid (chordOpen g p)).
Proof.
  unfold chordOpen. destruct (cell_at g p) as [c|]; [|apply opens_refl].
  case_match; [|apply opens_refl].
  pose proof (chord_loop_opens (neighbors p) g) as Hl.
  by destruct (chord_loop g (neighbors p)).
Qed.

Lemma chordOpen_opens_safe g p :
  c_hitMine (chordOpen g p) = false →
  opens (λ c, mine c = false ∧ flag c = false) g (c_grid (chordOpen g p)).
Proof.
  unfold chordOpen. destruct (cell_at g p) as [c|]; [|intros; apply opens_refl].
  case_match; [|intros; apply opens_refl].
  pose proof (chord_loop_opens_safe (neighbors p) g) as Hl.
  destruct (chord_loop g (neighbors p)); simpl in *. done.
Qed.

Lemma toggleFlag_shape g p : shape (toggleFlag g p).1 = shape g.
Proof.
  unfold toggleFlag. destruct (cell_at g p) as [c|]; [|done].
  destruct (open c); [done|]. apply shape_upd.
Qed.

Lemma toggleFlag_cell g p q :
  cell_at (toggleFlag g p).1 q = cell_at g q ∨
  (q = p ∧ ∃ c, cell_at g p = Some c ∧ open c = false ∧
                cell_at (toggleFlag g p).1 p = Some (set_flag (negb (flag c)) c)).
Proof.
  unfold toggleFlag. destruct (cell_at g p) as [c|] eqn:Hc; [|by left].
  destruct (open c) eqn:Ho; [by left|]. simpl. rewrite !cell_at_upd.
  case_decide as E; [subst q|by left]. right. split; [done|]. exists c.
  rewrite decide_True by done. by rewrite Hc.
Qed.

(** ** Flood-fill reveal *)

(** C2 (as amended).  For every grid and every unopened non-mine cell
    [start] with [num = 0], [openCell] reports no mine and opens exactly the
    zero region of [start] (the cells joined to it through unflagged
    non-mine cells with [num = 0]) and the non-mine, unflagged numbered
    cells bordering that region: a cell is open afterwards iff it was open
    before or belongs to that closure, its other fields are unchanged, and
    [opened] lists the cells of the closure that were not open before.  No
    mine and no flagged cell is among them. *)
Theorem openCell_flood_fill g start c0 :
  cell_at g start = Some c0 →
  mine c0 = false → num c0 = 0%nat → open c0 = false →
  let r := openCell g start in
  hitMine r = false ∧
  shape (o_grid r) = shape g ∧
  (∀ p c, cell_at g p = Some c →
     ∃ c', cell_at (o_grid r) p = Some c' ∧
           mine c' = mine c ∧ flag c' = flag c ∧ num c' = num c ∧
           (open c' = true ↔
            open c = true ∨ zero_region g start p ∨ border g start p)) ∧
  (∀ p, p ∈ opened r ↔
        open_at g p = false ∧ (zero_region g start p ∨ border g start p)) ∧
  (∀ p, p ∈ opened r → mine_at g p = false ∧ flag_at g p = false).
Proof.
  intros Hc Hm Hn Ho r.
  assert (Hz0 : num_at g start = 0%nat) by (unfold num_at; by rewrite Hc).
  destruct (flag c0) eqn:Hf.
  - (* a flagged start cell: nothing is opened, and the region is empty *)
    assert (Hnf : floodable g start = false).
    { unfold floodable. rewrite Hc, Hf. by rewrite andb_false_r. }
    assert (Hempty : ∀ p, ¬ (zero_region g start p ∨ border g start p)).
    { intros p H%flooded_closure; [|done].
      assert (flooded g start start → False) by
        (intros H'%flooded_floodable; congruence).
      clear -H H0. induction H; [apply H0; by constructor|done]. }
    subst r. unfold openCell. rewrite Hc, Ho, Hf. simpl.
    split; [done|]. split; [done|]. split; [|split].
    + intros p c Hp. exists c. repeat split; try done.
      * by left.
      * intros [?|H]; [done|]. by destruct (Hempty p).
    + intros p. split; [by intros ?%elem_of_nil|]. intros [_ H].
      by destruct (Hempty p).
    + by intros p ?%elem_of_nil.
  - subst r. unfold openCell. rewrite Hc, Ho, Hf, Hm. simpl.
    set (vis := flood (flood_fuel g) g [] [start]).
    assert (Hvis : ∀ p, inb p vis = true ↔
                        zero_region g start p ∨ border g start p).
    { intros p. unfold vis. by rewrite inb_true, flood_exact, flooded_closure. }
    assert (Hfl : ∀ p, zero_region g start p ∨ border g start p →
                       floodable g p = true).
    { intros p H. apply flooded_closure in H; [|done].
      by apply flooded_floodable in H. }
    split; [done|]. split; [apply shape_grid_imap|]. split; [|split].
    + intros p c Hp. rewrite cell_at_grid_imap, Hp. simpl.
      destruct (inb p vis) eqn:Hb.
      * exists (set_open true c). repeat split; try done.
        intros _. right. by apply Hvis.
      * exists c. repeat split; try done; [by left|].
        intros [?|H]; [done|]. apply Hvis in H. congruence.
    + intros p. rewrite list_elem_of_In, filter_In, <- list_elem_of_In.
      rewrite elem_of_reverse, negb_true_iff, <- inb_true, Hvis. tauto.
    + intros p. rewrite list_elem_of_In, filter_In, <- list_elem_of_In.
      rewrite elem_of_reverse, <- inb_true, Hvis. intros [H%Hfl _].
      unfold floodable in H. unfold mine_at, flag_at.
      destruct (cell_at g p) as [c|]; [|done].
      apply andb_true_iff in H as [H1 H2].
      by apply negb_true_iff in H1, H2.
Qed.

(** The theorem on a 2 by 3 grid with a flagged zero cell, two numbered
    cells and a mine, opened at (0,0). *)
Lemma openCell_flood_fill_witness :
  let r := openCell flood_demo (0, 0) in
  hitMine r = false ∧
  shape (o_grid r) = shape flood_demo ∧
  (∀ p c, cell_at flood_demo p = Some c →
     ∃ c', cell_at (o_grid r) p = Some c' ∧
           mine c' = mine c ∧ flag c' = flag c ∧ num c' = num c ∧
           (open c' = true ↔
            open c = true ∨ zero_region flood_demo (0, 0) p ∨
            border flood_demo (0, 0) p)) ∧
  (∀ p, p ∈ opened r ↔
        open_at flood_demo p = false ∧
        (zero_region flood_demo (0, 0) p ∨ border flood_demo (0, 0) p)) ∧
  (∀ p, p ∈ opened r → mine_at flood_demo p = false ∧ flag_at flood_demo p = false).
Proof.
  apply (openCell_flood_fill flood_demo (0, 0) (mkCell false false false 0));
    reflexivity.
Defined.

(** C2 (as stated) fails.  A row of three cells without a mine, all with
    [num = 0], the middle one flagged.  The reveal of the unopened,
    unflagged cell (0,0) opens that cell only: the flag blocks the fill, and
    the cell (0,2), which is neither flagged nor a mine and belongs to the
    connected component of [num = 0] cells of (0,0), stays closed. *)
Lemma openCell_component_counterexample :
  let g := [[mkCell false false false 0; mkCell false false true 0;
             mkCell false false false 0]] in
  cell_at g (0, 0) = Some (mkCell false false false 0) ∧
  zero_component g (0, 0) (0, 2) ∧
  mine_at g (0, 2) = false ∧ flag_at g (0, 2) = false ∧
  opened (openCell g (0, 0)) = [(0, 0)] ∧
  open_at (o_grid (openCell g (0, 0))) (0, 2) = false.
Proof.
  cbv zeta. split; [reflexivity|]. split; [|by vm_compute].
  apply zero_component_step with (q := (0, 1)); try reflexivity.
  - apply zero_component_step with (q := (0, 0)); try reflexivity.
    + by constructor.
    + apply inb_true. reflexivity.
  - apply inb_true. reflexivity.
Qed.

(** ** The loops over the board *)

Lemma row_loop_spec f r : ∀ n j g,
  (∀ c, j ≤ c < j + Z.of_nat n → in_grid g (r, c) = true) →
  ∃ g', for_loop n j (λ c g, _ ← cell_at g (r, c); Some (upd f (r, c) g)) g = Some g' ∧
        shape g' = shape g ∧
        ∀ q, cell_at g' q =
             if decide (q.1 = r ∧ j ≤ q.2 < j + Z.of_nat n)
             then f <$> cell_at g q else cell_at g q.
Proof.
  induction n as [|n IH]; intros j g Hin; cbn [for_loop].
  - exists g. split; [done|]. split; [done|]. intros q.
    rewrite decide_False; [done|lia].
  - assert (Hj : in_grid g (r, j) = true) by (apply Hin; lia).
    apply in_grid_is_Some in Hj as [cj Hcj]. rewrite Hcj. simpl.
    destruct (IH (j + 1) (upd f (r, j) g)) as (g' & Hrun & Hs & Hcell).
    { intros c Hc. rewrite (in_grid_shape g) by apply shape_upd. apply Hin. lia. }
    exists g'. split; [done|]. split; [by rewrite Hs, shape_upd|].
    intros q. rewrite Hcell, cell_at_upd. destruct q as [qr qc]; simpl.
    assert (Hpair : (r, j) = (qr, qc) ↔ r = qr ∧ j = qc)
      by (split; [by intros [=]|by intros [-> ->]]).
    repeat case_decide;
      repeat match goal with H : _ |- _ => rewrite Hpair in H end;
      try done; exfalso; lia.
Qed.

Lemma board_loop_spec f cols : ∀ n i g,
  0 ≤ cols →
  (∀ r c, i ≤ r < i + Z.of_nat n → 0 ≤ c < cols → in_grid g (r, c) = true) →
  ∃ g', for_loop n i
          (λ r, for_loop (Z.to_nat cols) 0
             (λ c g, _ ← cell_at g (r, c); Some (upd f (r, c) g))) g = Some g' ∧
        shape g' = shape g ∧
        ∀ q, cell_at g' q =
             if decide (i ≤ q.1 < i + Z.of_nat n ∧ 0 ≤ q.2 < cols)
             then f <$> cell_at g q else cell_at g q.
Proof.
  intros n i g Hcols. revert i g.
  induction n as [|n IH]; intros i g Hin; cbn [for_loop].
  - exists g. split; [done|]. split; [done|]. intros q.
    rewrite decide_False; [done|lia].
  - destruct (row_loop_spec f i (Z.to_nat cols) 0 g) as (g1 & Hrow & Hs1 & Hc1).
    { intros c Hc. apply Hin; lia. }
    rewrite Hrow. simpl.
    destruct (IH (i + 1) g1) as (g' & Hrun & Hs & Hcell).
    { intros r c Hr Hc. rewrite (in_grid_shape g) by done. apply Hin; lia. }
    exists g'. split; [done|]. split; [congruence|].
    intros q. rewrite Hcell, Hc1. destruct q as [qr qc]; simpl.
    repeat case_decide; try done; lia.
Qed.

(** On a grid of [rows] by [cols] cells the loops complete, and apply
    the body once to each cell. *)
Lemma each_cell_spec f s :
  dims_ok s = true →
  ∃ g', each_cell (rows s) (cols s) f (grid s) = Some g' ∧
        shape g' = shape (grid s) ∧
        ∀ q, cell_at g' q = f <$> cell_at (grid s) q.
Proof.
  intros Hd. pose proof Hd as Hd'. unfold dims_ok in Hd'.
  apply andb_true_iff in Hd' as [[Hr Hc]%andb_true_iff _].
  apply Z.leb_le in Hr, Hc.
  destruct (board_loop_spec f (cols s) (Z.to_nat (rows s)) 0 (grid s))
    as (g' & Hrun & Hs & Hcell); [done| |].
  { intros r c Hr' Hc'. apply in_grid_dims; [done|]. simpl. lia. }
  exists g'. split; [done|]. split; [done|]. intros q. rewrite Hcell.
  case_decide as Hq; [done|].
  destruct (cell_at (grid s) q) as [c|] eqn:E; [|done].
  exfalso. apply Hq.
  assert (Hin : in_grid (grid s) q = true) by (unfold in_grid; by rewrite E).
  apply in_grid_dims in Hin; [|done]. lia.
Qed.

Lemma renderBoard_ok s : dims_ok s = true → renderBoard s = Some s.
Proof.
  intros Hd. unfold renderBoard.
  destruct (each_cell_spec id s Hd) as (g' & -> & _). done.
Qed.

Lemma dims_ok_shape s s' :
  rows s' = rows s → cols s' = cols s → shape (grid s') = shape (grid s) →
  dims_ok s' = dims_ok s.
Proof. unfold dims_ok. by intros -> -> ->. Qed.

(** [gameOver] on a grid of [rows] by [cols] cells. *)
Lemma gameOver_spec win s :
  dims_ok s = true →
  ∃ g', gameOver win s = Some (set_grid g' (set_status (if win then WON else LOST) s)) ∧
        shape g' = shape (grid s) ∧
        ∀ q, cell_at g' q = reveal_kind win <$> cell_at (grid s) q.
Proof.
  intros Hd. unfold gameOver.
  destruct (each_cell_spec (reveal_kind win) (set_status (if win then WON else LOST) s))
    as (g' & Hrun & Hs & Hcell); [done|].
  rewrite Hrun. simpl. exists g'. split; [|done].
  apply renderBoard_ok. rewrite <- Hd. by apply dims_ok_shape.
Qed.

Lemma gameOver_opens win s g' :
  (∀ q, cell_at g' q = reveal_kind win <$> cell_at (grid s) q) →
  shape g' = shape (grid s) →
  opens (λ c, mine c = negb win ∧ open c = false) (grid s) g'.
Proof.
  intros Hcell Hs. split; [done|]. intros q. rewrite Hcell.
  destruct (cell_at (grid s) q) as [c|]; [|by left]. simpl.
  unfold reveal_kind. destruct win, (mine c) eqn:Hm, (open c) eqn:Ho; simpl;
    try (by left); try (right; exists c; by rewrite ?Hm).
  all: left; f_equal; destruct c; simpl in *; by subst.
Qed.

(** ** End of game *)

(** C9.  On the grid of a session ([rows] rows of [cols] cells),
    [gameOver] completes, sets the status to [WON] or [LOST], and changes
    the grid as follows: on a loss every mine cell has [open = true], on a
    win every non-mine cell has [open = true]; the [open] field of the
    cells of the other kind and every [mine], [flag] and [num] field are
    as before. *)
Theorem gameOver_reveals win s :
  dims_ok s = true →
  ∃ s', gameOver win s = Some s' ∧
        status s' = (if win then WON else LOST) ∧
        shape (grid s') = shape (grid s) ∧
        ∀ p c, cell_at (grid s) p = Some c →
          ∃ c', cell_at (grid s') p = Some c' ∧
                mine c' = mine c ∧ flag c' = flag c ∧ num c' = num c ∧
                open c' = if bool_decide (mine c = negb win) then true else open c.
Proof.
  intros Hd. destruct (gameOver_spec win s Hd) as (g' & Hrun & Hs & Hcell).
  eexists. split; [exact Hrun|]. split; [done|]. split; [done|].
  intros p c Hp. simpl. rewrite Hcell, Hp. simpl. eexists. split; [done|].
  unfold reveal_kind. destruct win, (mine c) eqn:Hm; simpl; rewrite ?Hm; done.
Qed.

(** ** Configuration checks *)

(** *** Comparisons of numbers *)

Lemma SFcompare_antisym f1 f2 :
  SFcompare f2 f1 = CompOpp <$> SFcompare f1 f2.
Proof.
  destruct f1 as [s1|s1| |s1 m1 e1], f2 as [s2|s2| |s2 m2 e2]; simpl;
    try done; try (by destruct s1); try (by destruct s2);
    try (by destruct s1, s2).
  f_equal. destruct s1, s2; simpl; try done.
  - rewrite (Z.compare_antisym e1 e2). destruct (e1 ?= e2) eqn:E; simpl; try done.
    f_equal. symmetry. exact (Pos.compare_cont_antisym m1 m2 Eq).
  - rewrite (Z.compare_antisym e1 e2). destruct (e1 ?= e2) eqn:E; simpl; try done.
    symmetry. exact (Pos.compare_cont_antisym m1 m2 Eq).
Qed.

Lemma not_nan_compare x y :
  PrimFloat.is_nan x = false → PrimFloat.is_nan y = false →
  is_Some (SFcompare (Prim2SF x) (Prim2SF y)).
Proof.
  unfold PrimFloat.is_nan. rewrite !FloatAxioms.eqb_spec. unfold SFeqb.
  destruct (Prim2SF x) as [s1|s1| |s1 m1 e1], (Prim2SF y) as [s2|s2| |s2 m2 e2];
    simpl; try done.
Qed.

(** On numbers that are not [NaN], [x < y] fails exactly when [y <= x]. *)
Lemma ltb_leb x y :
  PrimFloat.is_nan x = false → PrimFloat.is_nan y = false →
  PrimFloat.ltb x y = negb (PrimFloat.leb y x).
Proof.
  intros Hx Hy. rewrite FloatAxioms.ltb_spec, FloatAxioms.leb_spec. unfold SFltb, SFleb.
  rewrite (SFcompare_antisym (Prim2SF x) (Prim2SF y)).
  destruct (not_nan_compare x y Hx Hy) as [c ->]. by destruct c.
Qed.

Lemma is_finite_not_nan x : PrimFloat.is_finite x = true → PrimFloat.is_nan x = false.
Proof. unfold PrimFloat.is_finite. by destruct (PrimFloat.is_nan x). Qed.

(** *** The arithmetic of the checks gives no [NaN] *)

Lemma shr_1_nonneg mrs : 0 ≤ shr_m mrs → 0 ≤ shr_m (shr_1 mrs).
Proof. destruct mrs as [[|[p|p|]|p] r s]; simpl; lia. Qed.

Lemma iter_pos_shr_1_nonneg p : ∀ mrs,
  0 ≤ shr_m mrs → 0 ≤ shr_m (SpecFloat.iter_pos shr_1 p mrs).
Proof.
  induction p as [p IH|p IH|]; intros mrs H; simpl.
  - by apply IH, IH, shr_1_nonneg.
  - by apply IH, IH.
  - by apply shr_1_nonneg.
Qed.

Lemma shr_fexp_nonneg m e l : 0 ≤ m → 0 ≤ shr_m (shr_fexp prec emax m e l).1.
Proof.
  intros H. unfold shr_fexp, shr.
  assert (H0 : 0 ≤ shr_m (shr_record_of_loc m l)) by (by destruct l as [|[]]).
  destruct (_ - e) as [|p|p]; simpl; try done. by apply iter_pos_shr_1_nonneg.
Qed.

Lemma round_nearest_even_nonneg m l : 0 ≤ m → 0 ≤ round_nearest_even m l.
Proof. intros H. destruct l as [|[]]; simpl; try done; [destruct (Z.even m)|]; lia. Qed.

Lemma binary_round_aux_signed sx mx ex lx :
  0 ≤ mx → signed sx (binary_round_aux prec emax sx mx ex lx).
Proof.
  intros H. unfold binary_round_aux.
  pose proof (shr_fexp_nonneg mx ex lx H) as H1.
  destruct (shr_fexp prec emax mx ex lx) as [mrs' e']. simpl in H1.
  pose proof (shr_fexp_nonneg _ e' loc_Exact
                (round_nearest_even_nonneg _ (loc_of_shr_record mrs') H1)) as H2.
  destruct (shr_fexp prec emax _ e' loc_Exact) as [mrs'' e'']. simpl in H2.
  destruct (shr_m mrs'') as [|m|m]; [by left| |lia].
  destruct (e'' <=? emax - prec); [right; right; by eexists _, _|right; by left].
Qed.

Lemma binary_normalize_not_nan m e sz : not_nan (binary_normalize prec emax m e sz).
Proof.
  destruct m as [|m|m]; simpl.
  - exists sz. by left.
  - exists false. unfold binary_round. destruct (shl_align _ _ _) as [mz ez].
    by apply binary_round_aux_signed.
  - exists true. unfold binary_round. destruct (shl_align _ _ _) as [mz ez].
    by apply binary_round_aux_signed.
Qed.

Lemma SFcompare_refl f : not_nan f → SFcompare f f = Some Eq.
Proof.
  intros [s H]. destruct H as [->|[->|(m & e & ->)]]; simpl.
  - done.
  - by destruct s.
  - f_equal. rewrite Z.compare_refl.
    assert (H : Pos.compare_cont Eq m m = Eq) by apply Pos.compare_refl.
    destruct s; [|done]. change (CompOpp (Pos.compare_cont Eq m m) = Eq). by rewrite H.
Qed.

Lemma is_nan_false x : not_nan (Prim2SF x) → PrimFloat.is_nan x = false.
Proof.
  intros H. unfold PrimFloat.is_nan. rewrite FloatAxioms.eqb_spec. unfold SFeqb.
  by rewrite SFcompare_refl.
Qed.

Lemma is_finite_shape x :
  PrimFloat.is_finite x = true →
  (∃ s, Prim2SF x = S754_zero s) ∨ ∃ s m e, Prim2SF x = S754_finite s m e.
Proof.
  unfold PrimFloat.is_finite, PrimFloat.is_nan, PrimFloat.is_infinity.
  rewrite !FloatAxioms.eqb_spec, FloatAxioms.abs_spec.
  assert (Hinf : Prim2SF infinity = S754_infinity false) by (vm_compute; reflexivity).
  rewrite Hinf.
  destruct (Prim2SF x) as [s|s| |s m e]; simpl; try done.
  - left. by exists s.
  - unfold SFeqb. simpl. destruct s; simpl; by rewrite ?orb_true_r.
  - right. by exists s, m, e.
Qed.

(** A finite number that is not below a positive one is positive. *)
Lemma finite_at_least x k mk ek :
  Prim2SF k = S754_finite false mk ek →
  PrimFloat.is_finite x = true → PrimFloat.ltb x k = false →
  ∃ m e, Prim2SF x = S754_finite false m e.
Proof.
  intros Hk Hx. rewrite FloatAxioms.ltb_spec, Hk. unfold SFltb.
  destruct (is_finite_shape x Hx) as [[s ->]|(s & m & e & ->)]; simpl; [done|].
  destruct s; [done|]. intros _. by exists m, e.
Qed.

Lemma SFsub_finite_not_nan x y :
  (∃ s, x = S754_zero s) ∨ (∃ s m e, x = S754_finite s m e) →
  not_nan y → not_nan (SF64sub x y).
Proof.
  intros Hx [sy Hy].
  destruct Hx as [[s ->]|(s & m & e & ->)], Hy as [->|[->|(my & ey & ->)]]; simpl.
  - destruct s, sy; eexists; by left.
  - eexists. right. by left.
  - eexists. right. right. by eexists _, _.
  - eexists. right. right. by eexists _, _.
  - eexists. right. by left.
  - apply binary_normalize_not_nan.
Qed.

Lemma Math_min_cases a b :
  PrimFloat.is_nan a = false → PrimFloat.is_nan b = false →
  Math_min a b = a ∨ Math_min a b = b.
Proof.
  intros Ha Hb. unfold Math_min. rewrite Ha, Hb. simpl.
  repeat case_match; auto.
Qed.

(** For finite rows and columns of at least 5, the limit on the mines is a
    number. *)
Lemma mines_limit_not_nan rows cols :
  PrimFloat.is_finite rows = true → PrimFloat.is_finite cols = true →
  PrimFloat.ltb rows 5 = false → PrimFloat.ltb cols 5 = false →
  PrimFloat.is_nan (mines_limit rows cols) = false.
Proof.
  intros Hr Hc Hr5 Hc5.
  destruct (finite_at_least rows 5 _ _ eq_refl Hr Hr5) as (mr & er & Pr).
  destruct (finite_at_least cols 5 _ _ eq_refl Hc Hc5) as (mc & ec & Pc).
  unfold mines_limit. set (cells := PrimFloat.mul rows cols).
  assert (Pcells : signed false (Prim2SF cells)).
  { unfold cells. rewrite FloatAxioms.mul_spec, Pr, Pc. simpl.
    by apply binary_round_aux_signed. }
  set (y := PrimFloat.sub cells 1).
  assert (Py : Prim2SF y = SF64sub (Prim2SF cells) (Prim2SF 1))
    by apply FloatAxioms.sub_spec.
  apply is_nan_false. rewrite FloatAxioms.sub_spec.
  destruct Pcells as [Pz|[Pi|(m & e & Pf)]].
  - apply SFsub_finite_not_nan; [left; by eexists|].
    assert (Hy : not_nan (Prim2SF y)).
    { rewrite Py, Pz. apply SFsub_finite_not_nan; [left; by eexists|].
      exists false. right. right. by eexists _, _. }
    destruct (Math_min_cases 9 y eq_refl (is_nan_false _ Hy)) as [->| ->]; [|done].
    exists false. right. right. by eexists _, _.
  - assert (Hy : Prim2SF y = S754_infinity false) by (by rewrite Py, Pi).
    assert (Hmin : Math_min 9 y = 9%float).
    { unfold Math_min.
      rewrite (is_nan_false y) by (rewrite Hy; exists false; right; by left).
      rewrite !FloatAxioms.ltb_spec, Hy. reflexivity. }
    rewrite Hmin, Pi. exists false. right. by left.
  - apply SFsub_finite_not_nan; [right; by eexists _, _, _|].
    assert (Hy : not_nan (Prim2SF y)).
    { rewrite Py, Pf. apply SFsub_finite_not_nan; [right; by eexists _, _, _|].
      exists false. right. right. by eexists _, _. }
    destruct (Math_min_cases 9 y eq_refl (is_nan_false _ Hy)) as [->| ->]; [|done].
    exists false. right. right. by eexists _, _.
Qed.

(** *** Integers *)

Lemma in_size_range z : z ∈ size_range ↔ 1 ≤ z ≤ 1200.
Proof. unfold size_range. rewrite elem_of_seqZ. lia. Qed.

Lemma forallb_seqZ (f : Z → bool) lo n :
  forallb f (seqZ lo n) = true → ∀ z, lo ≤ z < lo + n → f z = true.
Proof.
  intros H z Hz. rewrite forallb_forall in H.
  by apply H, list_elem_of_In, elem_of_seqZ.
Qed.

Lemma sizes_table_all : forallb size_ok size_range = true.
Proof. vm_compute. reflexivity. Qed.

Lemma cells_table_all :
  forallb (λ r, forallb (cells_ok r) (seqZ 5 36)) (seqZ 5 26) = true.
Proof. vm_compute. reflexivity. Qed.

Lemma mines_table_all :
  forallb (λ m, forallb (mines_ok m) size_range) size_range = true.
Proof. vm_compute. reflexivity. Qed.

Lemma sizes_table z :
  1 ≤ z ≤ 1200 →
  PrimFloat.is_finite (float_of_Z z) = true ∧
  (PrimFloat.ltb (float_of_Z z) 5 || PrimFloat.ltb 30 (float_of_Z z))
  = negb ((5 <=? z) && (z <=? 30)) ∧
  (PrimFloat.ltb (float_of_Z z) 5 || PrimFloat.ltb 40 (float_of_Z z))
  = negb ((5 <=? z) && (z <=? 40)) ∧
  int_of_float (float_of_Z z) = Some z.
Proof.
  intros Hz.
  assert (H : size_ok z = true) by (apply (forallb_seqZ _ 1 1200 sizes_table_all); lia).
  unfold size_ok in H.
  apply andb_true_iff in H as [[[H1 H2]%andb_true_iff H3]%andb_true_iff H4].
  apply Bool.eqb_prop in H2, H3. by apply bool_decide_eq_true in H4.
Qed.

Lemma cells_table r c :
  5 ≤ r ≤ 30 → 5 ≤ c ≤ 40 →
  mines_limit (float_of_Z r) (float_of_Z c) = float_of_Z (r * c - 9).
Proof.
  intros Hr Hc.
  assert (H : forallb (cells_ok r) (seqZ 5 36) = true)
    by (apply (forallb_seqZ _ 5 26 cells_table_all); lia).
  assert (H' : cells_ok r c = true) by (apply (forallb_seqZ _ 5 36 H); lia).
  by apply FloatAxioms.Leibniz.eqb_spec.
Qed.

Lemma mines_table m l :
  1 ≤ m ≤ 1200 → 1 ≤ l ≤ 1200 →
  PrimFloat.ltb (float_of_Z m) 1 = false ∧
  PrimFloat.ltb (float_of_Z l) (float_of_Z m) = (l <? m).
Proof.
  intros Hm Hl.
  assert (H : forallb (mines_ok m) size_range = true)
    by (apply (forallb_seqZ _ 1 1200 mines_table_all); lia).
  assert (H' : mines_ok m l = true) by (apply (forallb_seqZ _ 1 1200 H); lia).
  unfold mines_ok in H'. apply andb_true_iff in H' as [H1 H2].
  split; [by destruct (PrimFloat.ltb (float_of_Z m) 1)|by apply Bool.eqb_prop].
Qed.

Lemma int_of_float_Some f z :
  int_of_float f = Some z → f = float_of_Z z ∧ 1 ≤ z ≤ 1200.
Proof.
  unfold int_of_float. intros [Hin H]%find_some.
  apply FloatAxioms.Leibniz.eqb_spec in H.
  by apply list_elem_of_In, in_size_range in Hin.
Qed.

Lemma cfg_boundsb_spec r c m : cfg_boundsb r c m = true ↔ cfg_bounds r c m.
Proof.
  unfold cfg_boundsb, cfg_bounds. rewrite !andb_true_iff, !Z.leb_le. tauto.
Qed.

(** [sanitizeCfg] on integers from 1 to 1200 is the test of the bounds on
    integers. *)
Lemma sanitizeCfg_int r c m :
  1 ≤ r ≤ 1200 → 1 ≤ c ≤ 1200 → 1 ≤ m ≤ 1200 →
  sanitizeCfg (Some (mkCfgIn (float_of_Z r) (float_of_Z c) (float_of_Z m))) =
  if cfg_boundsb r c m
  then Some (mkCfg (float_of_Z r) (float_of_Z c) (float_of_Z m)) else None.
Proof.
  intros Hr Hc Hm. unfold sanitizeCfg. simpl.
  destruct (sizes_table r Hr) as (-> & -> & _ & _).
  destruct (sizes_table c Hc) as (-> & _ & -> & _).
  destruct (sizes_table m Hm) as (-> & _ & _ & _). simpl.
  unfold cfg_boundsb.
  destruct (Z.leb_spec 5 r), (Z.leb_spec r 30); simpl; try done.
  destruct (Z.leb_spec 5 c), (Z.leb_spec c 40); simpl; try done.
  fold (mines_limit (float_of_Z r) (float_of_Z c)).
  rewrite cells_table by lia.
  destruct (mines_table m (r * c - 9)) as [-> ->]; [lia|nia|]. simpl.
  destruct (Z.leb_spec 1 m); [|lia]. simpl.
  replace (Z.min 9 (r * c - 1)) with 9 by nia.
  destruct (Z.ltb_spec (r * c - 9) m), (Z.leb_spec m (r * c - 9)); try lia; done.
Qed.

Lemma sanitizeCfg_fields c k :
  sanitizeCfg c = Some k →
  ∃ ci, c = Some ci ∧
        cfg_rows k = in_rows ci ∧ cfg_cols k = in_cols ci ∧ cfg_mines k = in_mines ci.
Proof.
  destruct c as [ci|]; [|done]. unfold sanitizeCfg.
  repeat (case_match; [done|]). intros [= <-]. by exists ci.
Qed.

Lemma integer_sizes_Some k r c m :
  integer_sizes k = Some (r, c, m) →
  cfg_rows k = float_of_Z r ∧ cfg_cols k = float_of_Z c ∧ cfg_mines k = float_of_Z m ∧
  1 ≤ r ≤ 1200 ∧ 1 ≤ c ≤ 1200 ∧ 1 ≤ m ≤ 1200.
Proof.
  unfold integer_sizes.
  destruct (int_of_float (cfg_rows k)) as [r'|] eqn:Hr; simpl; [|done].
  destruct (int_of_float (cfg_cols k)) as [c'|] eqn:Hc; simpl; [|done].
  destruct (int_of_float (cfg_mines k)) as [m'|] eqn:Hm; simpl; [|done].
  intros [= <- <- <-].
  apply int_of_float_Some in Hr as [? ?], Hc as [? ?], Hm as [? ?]. done.
Qed.

(** The integer sizes of a kept configuration are within the bounds. *)
Lemma integer_sizes_bounds c r co m :
  integer_sizes (safe_config c) = Some (r, co, m) → cfg_bounds r co m.
Proof.
  unfold safe_config. destruct (sanitizeCfg c) as [k|] eqn:Hk; simpl.
  - intros (Hr & Hc & Hm & ? & ? & ?)%integer_sizes_Some.
    destruct (sanitizeCfg_fields c k Hk) as ([ri ci mi] & -> & Er & Ec & Em).
    simpl in Er, Ec, Em. rewrite Hr in Er. rewrite Hc in Ec. rewrite Hm in Em. subst.
    rewrite sanitizeCfg_int in Hk by done.
    destruct (cfg_boundsb r co m) eqn:Hb; [|done]. by apply cfg_boundsb_spec.
  - intros [= <- <- <-]. unfold cfg_bounds. lia.
Qed.

Lemma applyConfig_inv c s s' :
  applyConfig c s = Some s' →
  ∃ r co m, integer_sizes (safe_config c) = Some (r, co, m) ∧
            cfg_bounds r co m ∧
            newGame (mkState (safe_config c) r co m
                       (grid s) (status s) (firstClick s) (calls s)) = Some s'.
Proof.
  unfold applyConfig.
  destruct (integer_sizes (safe_config c)) as [[[r co] m]|] eqn:Hs; simpl; [|done].
  intros H. exists r, co, m. split; [done|]. split; [|done].
  by eapply integer_sizes_bounds.
Qed.

(** The two checks make the same tests. *)
Lemma sanitizeCfg_validateCustom k :
  sanitizeCfg (Some k) =
  match validateCustom (in_rows k) (in_cols k) (in_mines k) with
  | None => Some (mkCfg (in_rows k) (in_cols k) (in_mines k))
  | Some _ => None
  end.
Proof.
  unfold sanitizeCfg, validateCustom. cbv zeta.
  destruct (negb (forallb _ _)); [done|].
  destruct (_ || _); [done|]. destruct (_ || _); [done|].
  destruct (PrimFloat.ltb (in_mines k) 1); simpl; [done|].
  by destruct (PrimFloat.ltb _ (in_mines k)).
Qed.

(** [validateCustom] accepts exactly within the bounds. *)
Lemma validateCustom_bounds rows cols mines :
  validateCustom rows cols mines = None ↔ cfg_bounds_num rows cols mines.
Proof.
  assert (H5 : PrimFloat.is_nan 5 = false) by reflexivity.
  assert (H30 : PrimFloat.is_nan 30 = false) by reflexivity.
  assert (H40 : PrimFloat.is_nan 40 = false) by reflexivity.
  assert (H1 : PrimFloat.is_nan 1 = false) by reflexivity.
  unfold validateCustom, cfg_bounds_num. cbv zeta.
  fold (mines_limit rows cols). simpl.
  destruct (PrimFloat.is_finite rows) eqn:Fr; simpl; [|split; [done|by intros (? & _)]].
  destruct (PrimFloat.is_finite cols) eqn:Fc; simpl;
    [|split; [done|by intros (_ & ? & _)]].
  destruct (PrimFloat.is_finite mines) eqn:Fm; simpl;
    [|split; [done|by intros (_ & _ & ? & _)]].
  pose proof (is_finite_not_nan _ Fr) as Nr.
  pose proof (is_finite_not_nan _ Fc) as Nc.
  pose proof (is_finite_not_nan _ Fm) as Nm.
  rewrite (ltb_leb rows 5), (ltb_leb 30 rows), (ltb_leb cols 5), (ltb_leb 40 cols),
    (ltb_leb mines 1) by done.
  destruct (PrimFloat.leb 5 rows) eqn:Er; simpl; [|split; [done|by intros (_&_&_&?&_)]].
  destruct (PrimFloat.leb rows 30) eqn:Er'; simpl;
    [|split; [done|by intros (_&_&_&_&?&_)]].
  destruct (PrimFloat.leb 5 cols) eqn:Ec; simpl;
    [|split; [done|by intros (_&_&_&_&_&?&_)]].
  destruct (PrimFloat.leb cols 40) eqn:Ec'; simpl;
    [|split; [done|by intros (_&_&_&_&_&_&?&_)]].
  destruct (PrimFloat.leb 1 mines) eqn:Em; simpl;
    [|split; [done|by intros (_&_&_&_&_&_&_&?&_)]].
  assert (Nl : PrimFloat.is_nan (mines_limit rows cols) = false).
  { apply mines_limit_not_nan; try done.
    - by rewrite (ltb_leb rows 5), Er.
    - by rewrite (ltb_leb cols 5), Ec. }
  rewrite (ltb_leb (mines_limit rows cols) mines) by done.
  destruct (PrimFloat.leb mines (mines_limit rows cols)); simpl.
  - split; [by intros _|done].
  - split; [done|by intros (_&_&_&_&_&_&_&_&?)].
Qed.

Lemma validateCustom_int r c m :
  1 ≤ r ≤ 1200 → 1 ≤ c ≤ 1200 → 1 ≤ m ≤ 1200 →
  validateCustom (float_of_Z r) (float_of_Z c) (float_of_Z m) = None ↔
  cfg_bounds r c m.
Proof.
  intros Hr Hc Hm.
  pose proof (sanitizeCfg_validateCustom
                (mkCfgIn (float_of_Z r) (float_of_Z c) (float_of_Z m))) as H.
  rewrite sanitizeCfg_int in H by done. cbn [in_rows in_cols in_mines] in H.
  rewrite <- cfg_boundsb_spec.
  destruct (validateCustom _ _ _), (cfg_boundsb r c m); done.
Qed.

(** C6.  [validateCustom] accepts, returning [null], exactly the finite
    numbers with 5 <= rows <= 30, 5 <= cols <= 40, mines >= 1 and
    mines <= rows*cols - min(9, rows*cols - 1), for all numbers, fractions,
    infinities and [NaN] included, the comparisons and the arithmetic being
    those of JavaScript; in every other case the result is a message.  On
    the integers from 1 to 1200 these are the same bounds in integer
    arithmetic. *)
Theorem validateCustom_accepts_iff rows cols mines :
  (validateCustom rows cols mines = None ↔ cfg_bounds_num rows cols mines) ∧
  (validateCustom rows cols mines = None ∨
   ∃ msg, validateCustom rows cols mines = Some msg) ∧
  (∀ r c m, 1 ≤ r ≤ 1200 → 1 ≤ c ≤ 1200 → 1 ≤ m ≤ 1200 →
     validateCustom (float_of_Z r) (float_of_Z c) (float_of_Z m) = None ↔
     cfg_bounds r c m).
Proof.
  split; [apply validateCustom_bounds|]. split.
  - destruct (validateCustom rows cols mines) as [msg|]; [right; by exists msg|by left].
  - apply validateCustom_int.
Qed.

Lemma shape_replicate (n m : nat) (c : Cell) :
  shape (replicate n (replicate m c)) = replicate n m.
Proof. unfold shape. induction n; simpl; [done|]. by rewrite length_replicate, IHn. Qed.

Lemma cell_at_replicate (n m : nat) (c : Cell) p x :
  cell_at (replicate n (replicate m c)) p = Some x → x = c.
Proof.
  unfold cell_at. case_match; [|done].
  destruct (replicate n _ !! _) as [row|] eqn:Hrow; simpl; [|done].
  apply lookup_replicate in Hrow as [-> _].
  by intros [-> _]%lookup_replicate.
Qed.

Lemma newGame_spec s :
  1 ≤ rows s → 1 ≤ cols s →
  newGame s =
  Some (mkState (cfg s) (rows s) (cols s) (mines s)
          (replicate (Z.to_nat (rows s)) (replicate (Z.to_nat (cols s)) default_cell))
          READY true (calls s ++ [CallCreate (rows s) (cols s)])).
Proof.
  intros Hr Hc. unfold newGame, createEmptyGrid.
  destruct (Z.ltb_spec (rows s) 1), (Z.ltb_spec (cols s) 1); try lia. simpl.
  apply renderBoard_ok. unfold dims_ok. simpl.
  rewrite shape_replicate, bool_decide_eq_true_2 by done.
  rewrite andb_true_r. apply andb_true_iff. split; apply Z.leb_le; lia.
Qed.

Lemma applyConfig_spec c s r co m :
  integer_sizes (safe_config c) = Some (r, co, m) →
  cfg_bounds r co m ∧
  applyConfig c s =
  Some (mkState (safe_config c) r co m
          (replicate (Z.to_nat r) (replicate (Z.to_nat co) default_cell))
          READY true (calls s ++ [CallCreate r co])).
Proof.
  intros Hs. pose proof (integer_sizes_bounds c r co m Hs) as Hb.
  split; [done|]. unfold applyConfig. rewrite Hs. simpl.
  rewrite newGame_spec by (simpl; unfold cfg_bounds in Hb; lia). done.
Qed.

Lemma applyConfig_fresh c s s' :
  applyConfig c s = Some s' →
  ∃ r co m, cfg_bounds r co m ∧
            s' = mkState (safe_config c) r co m
                   (replicate (Z.to_nat r) (replicate (Z.to_nat co) default_cell))
                   READY true (calls s ++ [CallCreate r co]).
Proof.
  unfold applyConfig.
  destruct (integer_sizes (safe_config c)) as [[[r co] m]|] eqn:Hs; simpl; [|done].
  destruct (applyConfig_spec c s r co m Hs) as [Hb Happ].
  unfold applyConfig in Happ. rewrite Hs in Happ. simpl in Happ. rewrite Happ.
  intros [= <-]. by exists r, co, m.
Qed.



(** ** Terminal states *)

(** C4.  Once the status is [WON] or [LOST], [openAt], [flagAt] and
    [chordAt] return at once: any sequence of reveal, flag and chord
    requests leaves the whole state, grid and status included, as it
    is.  Only a new game leaves that state. *)
Theorem terminal_state_is_frozen s ops :
  status s = WON ∨ status s = LOST →
  forallb play_op ops = true →
  run ops s = Some s.
Proof.
  intros Hst. induction ops as [|o ops IH]; simpl; [done|].
  intros [Ho Hops]%andb_true_iff.
  assert (Hstep : step o s = Some s).
  { destruct o as [| |rnd r c|r c|r c]; simpl in *; try done.
    - unfold openAt, terminal. by destruct Hst as [-> | ->].
    - unfold flagAt, terminal. by destruct Hst as [-> | ->].
    - unfold chordAt. by destruct Hst as [-> | ->]. }
  rewrite Hstep. simpl. by apply IH.
Qed.

(** ** What the session functions leave alone *)

Lemma renderBoard_inv s s' : renderBoard s = Some s' → s' = s.
Proof.
  unfold renderBoard. destruct (each_cell _ _ _ _); simpl; [|done]. by intros [= <-].
Qed.

Lemma gameOver_inv win s s' :
  gameOver win s = Some s' →
  ∃ g, s' = set_grid g (set_status (if win then WON else LOST) s).
Proof.
  unfold gameOver. destruct (each_cell _ _ _ _) as [g|]; simpl; [|done].
  intros ->%renderBoard_inv. by exists g.
Qed.

Lemma checkWin_inv s s' :
  checkWin s = Some s' →
  s' = s ∨ ∃ g, s' = set_grid g (set_status WON s).
Proof.
  unfold checkWin. destruct (countOpenSafe (grid s)) as [o t].
  destruct (_ && _); [|intros [= <-]; by left].
  intros [g ->]%gameOver_inv. right. by exists g.
Qed.

Lemma ensureMinesPlaced_inv rnd r c s s' :
  ensureMinesPlaced rnd r c s = Some s' →
  (firstClick s = false ∧ s' = s) ∨
  (firstClick s = true ∧
   ∃ g, placeMines rnd (grid s) (mines s) (r, c) = Some g ∧
        s' = set_status RUNNING (set_firstClick false
               (log_call (CallPlace (mines s) r c) (set_grid g s)))).
Proof.
  unfold ensureMinesPlaced. destruct (firstClick s); simpl.
  - destruct (placeMines _ _ _ _) as [g|]; simpl; [|done].
    intros [= <-]. right. split; [done|]. by exists g.
  - intros [= <-]. by left.
Qed.

(** The mutating engine calls one request adds to the log, and what it
    does to [firstClick]. *)
Lemma play_step_calls o s s' :
  play_op o = true → step o s = Some s' →
  ∃ new, calls s' = calls s ++ new ∧
         (length (List.filter is_place new) ≤ if firstClick s then 1 else 0)%nat ∧
         (firstClick s = false → firstClick s' = false) ∧
         (0 < length (List.filter is_place new) → firstClick s' = false)%nat.
Proof.
  destruct o as [| |rnd r c|r c|r c]; simpl; try done; intros _.
  - unfold openAt. destruct (terminal s).
    { intros [= <-]. exists []. rewrite app_nil_r. simpl.
      repeat split; try done; [destruct (firstClick s); lia|lia]. }
    destruct (ensureMinesPlaced rnd r c s) as [s1|] eqn:Hens; simpl; [|done].
    assert (Hs1 : ∃ new1, calls s1 = calls s ++ new1 ∧ firstClick s1 = false ∧
              (length (List.filter is_place new1) ≤ if firstClick s then 1 else 0)%nat).
    { apply ensureMinesPlaced_inv in Hens as [[Hf ->]|[Hf (g & _ & ->)]].
      - exists []. rewrite app_nil_r, Hf. done.
      - eexists. simpl. split; [done|]. rewrite Hf. done. }
    destruct Hs1 as (new1 & Hcalls & Hfc & Hcount).
    assert (Hend : ∀ s2 s3, calls s2 = calls s1 ++ [CallOpen r c] →
                   firstClick s2 = false →
                   (s3 = s2 ∨ ∃ g st, s3 = set_grid g (set_status st s2)) →
                   ∃ new, calls s3 = calls s ++ new ∧
         (length (List.filter is_place new) ≤ if firstClick s then 1 else 0)%nat ∧
         (firstClick s = false → firstClick s3 = false) ∧
         (0 < length (List.filter is_place new) → firstClick s3 = false)%nat).
    { intros s2 s3 Hc2 Hf2 Hs3. exists (new1 ++ [CallOpen r c]).
      assert (calls s3 = calls s2 ∧ firstClick s3 = firstClick s2) as [-> ->].
      { destruct Hs3 as [->|(g & st & ->)]; done. }
      rewrite Hc2, Hcalls, <- app_assoc. split; [done|].
      rewrite List.filter_app, length_app. simpl. split; [lia|]. done. }
    destruct (hitMine _).
    + destruct (cell_at _ _); simpl; [|done].
      destruct (renderBoard _) as [s3|] eqn:Hr; simpl; [|done].
      apply renderBoard_inv in Hr as ->.
      intros [g ->]%gameOver_inv. eapply Hend; [| |right; by eexists _, _]; done.
    + destruct (renderBoard _) as [s3|] eqn:Hr; simpl; [|done].
      apply renderBoard_inv in Hr as ->.
      intros [->|[g ->]]%checkWin_inv;
        [eapply Hend; [| |by left]; done
        |eapply Hend; [| |right; by eexists _, _]; done].
  - unfold flagAt. destruct (terminal s).
    { intros [= <-]. exists []. rewrite app_nil_r. simpl.
      repeat split; try done; [destruct (firstClick s); lia|lia]. }
    destruct (cell_at _ _) as [cell|]; simpl; [|done].
    destruct (open cell).
    { intros [= <-]. exists []. rewrite app_nil_r. simpl.
      repeat split; try done; [destruct (firstClick s); lia|lia]. }
    destruct (toggleFlag _ _) as [g ok].
    assert (Hs1 : ∀ s1, s1 = log_call (CallToggle r c) (set_grid g s) →
       ∃ new, calls s1 = calls s ++ new ∧
         (length (List.filter is_place new) ≤ if firstClick s then 1 else 0)%nat ∧
         (firstClick s = false → firstClick s1 = false) ∧
         (0 < length (List.filter is_place new) → firstClick s1 = false)%nat).
    { intros s1 ->. exists [CallToggle r c]. simpl.
      repeat split; try done; [destruct (firstClick s); lia|lia]. }
    destruct ok; simpl.
    + intros ->%renderBoard_inv. by apply Hs1.
    + intros [= <-]. by apply Hs1.
  - unfold chordAt. destruct (negb _).
    { intros [= <-]. exists []. rewrite app_nil_r. simpl.
      repeat split; try done; [destruct (firstClick s); lia|lia]. }
    assert (Hend : ∀ s1 s3, s1 = log_call (CallChord r c)
                                  (set_grid (c_grid (chordOpen (grid s) (r, c))) s) →
                   (s3 = s1 ∨ ∃ g st, s3 = set_grid g (set_status st s1)) →
                   ∃ new, calls s3 = calls s ++ new ∧
         (length (List.filter is_place new) ≤ if firstClick s then 1 else 0)%nat ∧
         (firstClick s = false → firstClick s3 = false) ∧
         (0 < length (List.filter is_place new) → firstClick s3 = false)%nat).
    { intros s1 s3 -> Hs3. exists [CallChord r c].
      assert (calls s3 = calls s ++ [CallChord r c] ∧ firstClick s3 = firstClick s)
        as [-> ->].
      { destruct Hs3 as [->|(g & st & ->)]; done. }
      simpl. repeat split; try done; [destruct (firstClick s); lia|lia]. }
    destruct (negb (did _)).
    { intros [= <-]. eapply Hend; [|by left]; done. }
    destruct (c_hitMine _).
    + destruct (renderBoard _) as [s3|] eqn:Hr; simpl; [|done].
      apply renderBoard_inv in Hr as ->.
      intros [g ->]%gameOver_inv. eapply Hend; [|right; by eexists _, _]; done.
    + destruct (renderBoard _) as [s3|] eqn:Hr; simpl; [|done].
      apply renderBoard_inv in Hr as ->.
      intros [->|[g ->]]%checkWin_inv;
        [eapply Hend; [|by left]; done
        |eapply Hend; [|right; by eexists _, _]; done].
Qed.

(** ** One placement per game *)

(** C7.  [newGame] sets [firstClick]; [ensureMinesPlaced] does nothing
    when the flag is false, and when it is true it calls [placeMines]
    once and clears the flag.  Hence over any sequence of reveal, flag and
    chord requests, that is between two new games, the session calls
    [placeMines] at most once, and not at all when the flag was already
    cleared. *)
Theorem placeMines_once_per_game :
  (∀ s s', newGame s = Some s' → firstClick s' = true) ∧
  (∀ rnd r c s, firstClick s = false → ensureMinesPlaced rnd r c s = Some s) ∧
  (∀ rnd r c s s',
     firstClick s = true → ensureMinesPlaced rnd r c s = Some s' →
     firstClick s' = false ∧ calls s' = calls s ++ [CallPlace (mines s) r c]) ∧
  (∀ ops s s',
     forallb play_op ops = true → run ops s = Some s' →
     ∃ new, calls s' = calls s ++ new ∧
            (length (List.filter is_place new) ≤ 1)%nat ∧
            (firstClick s = false → length (List.filter is_place new) = 0%nat)).
Proof.
  split; [|split; [|split]].
  - intros s s'. unfold newGame. destruct (createEmptyGrid _ _); simpl; [|done].
    by intros ->%renderBoard_inv.
  - intros rnd r c s Hf. unfold ensureMinesPlaced. by rewrite Hf.
  - intros rnd r c s s' Hf [[Hf' _]|[_ (g & _ & ->)]]%ensureMinesPlaced_inv;
      [congruence|done].
  - intros ops s s' Hops Hrun.
    enough (∃ new, calls s' = calls s ++ new ∧
         (length (List.filter is_place new) ≤ if firstClick s then 1 else 0)%nat ∧
         (firstClick s = false → firstClick s' = false)) as (new & ? & ? & ?).
    { exists new. split; [done|]. destruct (firstClick s); split; try lia; done. }
    revert s Hops Hrun. induction ops as [|o ops IH]; intros s Hops Hrun.
    + injection Hrun as <-. exists []. rewrite app_nil_r. simpl.
      split; [done|]. split; [destruct (firstClick s); lia|done].
    + simpl in Hops, Hrun. apply andb_true_iff in Hops as [Ho Hops].
      destruct (step o s) as [s1|] eqn:Hstep; simpl in Hrun; [|done].
      destruct (play_step_calls o s s1 Ho Hstep) as (n1 & Hc1 & Hn1 & Hf1 & Hp1).
      destruct (IH s1 Hops Hrun) as (n2 & Hc2 & Hn2 & Hf2).
      exists (n1 ++ n2). rewrite Hc2, Hc1, <- app_assoc. split; [done|].
      rewrite List.filter_app, length_app. split; [|auto].
      destruct (firstClick s) eqn:Hfs.
      * destruct (length (List.filter is_place n1)) as [|k] eqn:Hk.
        -- destruct (firstClick s1); lia.
        -- rewrite Hp1 in Hn2 by lia. lia.
      * rewrite Hf1 in Hn2 by done. lia.
Qed.

(** ** Placement *)

Lemma placeMines_shape rnd g m safe g' :
  placeMines rnd g m safe = Some g' → shape g' = shape g.
Proof.
  unfold placeMines. case_match; [done|]. intros [= <-].
  by rewrite !shape_grid_imap.
Qed.

Lemma placeMines_cell rnd g m safe g' q :
  placeMines rnd g m safe = Some g' →
  match cell_at g q with
  | None => cell_at g' q = None
  | Some c => ∃ c', cell_at g' q = Some c' ∧ open c' = open c ∧ flag c' = flag c ∧
                    (mine c' = true → mine c = true ∨ q ∉ reserved g safe)
  end.
Proof.
  unfold placeMines. case_match; [done|]. intros [= <-].
  rewrite !cell_at_grid_imap. destruct (cell_at g q) as [c|]; [|done]. simpl.
  eexists. split; [done|].
  set (chosen := pick _ _ _).
  destruct (inb q chosen) eqn:Hq; simpl.
  - repeat split; try done. intros _. right.
    apply inb_true in Hq. unfold chosen in Hq. clear -Hq.
    assert (Hsub : ∀ k l x, x ∈ pick rnd k l → x ∈ l).
    { induction k as [|k IH]; intros l x; simpl; [by intros ?%elem_of_nil|].
      destruct (l !! _) as [p|] eqn:Hp; [|by intros ?%elem_of_nil].
      intros [->|Hx]%elem_of_cons.
      - by eapply list_elem_of_lookup_2.
      - eapply list_elem_of_delete_inv. by apply IH. }
    apply Hsub in Hq. apply list_elem_of_In, filter_In in Hq as [_ Hq].
    by apply negb_true_iff, inb_false in Hq.
  - destruct (mine c) eqn:Hm; simpl; rewrite ?Hm; repeat split; try done.
    by left.
Qed.

Lemma reserved_safe g safe :
  in_grid g safe = true → 2 ≤ totalCells g → safe ∈ reserved g safe.
Proof.
  intros Hin Htot. unfold reserved. simpl. rewrite Hin.
  destruct (Z.to_nat (Z.min 9 (totalCells g - 1))) as [|n] eqn:Hn; [lia|].
  simpl. by apply elem_of_cons; left.
Qed.

Lemma reserved_length g safe : (length (reserved g safe) ≤ 9)%nat.
Proof. unfold reserved. rewrite length_take. lia. Qed.

Lemma positions_length g : length (positions g) = list_sum (shape g).
Proof.
  unfold positions, shape. rewrite length_concat. f_equal.
  apply list_eq. intros i.
  rewrite !list_lookup_fmap, list_lookup_imap.
  destruct (g !! i); simpl; [|done]. by rewrite length_imap.
Qed.

Lemma totalCells_dims s :
  dims_ok s = true → totalCells (grid s) = rows s * cols s.
Proof.
  unfold dims_ok, totalCells.
  intros [[Hr Hc]%andb_true_iff Hs%bool_decide_eq_true]%andb_true_iff.
  apply Z.leb_le in Hr, Hc. rewrite positions_length, Hs.
  assert (H : ∀ n m, list_sum (replicate n m) = (n * m)%nat).
  { induction n; intros m; simpl; [done|]. by rewrite IHn. }
  rewrite H. lia.
Qed.

Lemma placeMines_feasible rnd s safe :
  dims_ok s = true → cfg_bounds (rows s) (cols s) (mines s) →
  is_Some (placeMines rnd (grid s) (mines s) safe).
Proof.
  intros Hd (Hr & Hc & Hm). unfold placeMines.
  pose proof (reserved_length (grid s) safe).
  rewrite totalCells_dims by done.
  destruct (Z.ltb_spec (rows s * cols s - Z.of_nat (length (reserved (grid s) safe)))
                       (mines s)); [|done].
  nia.
Qed.

(** ** Reveal, win and loss *)

Lemma opens_open_same (P : Cell → Prop) g g' p :
  opens P g g' → (∀ c, P c → mine c = true) →
  mine_at g p = false → open_at g' p = open_at g p.
Proof.
  intros [_ H] HP. unfold mine_at, open_at.
  destruct (H p) as [->|(c & -> & -> & HPc)]; [done|].
  intros Hm. apply HP in HPc. congruence.
Qed.

Lemma ensureMinesPlaced_frame rnd r c s s1 :
  ensureMinesPlaced rnd r c s = Some s1 →
  rows s1 = rows s ∧ cols s1 = cols s ∧ mines s1 = mines s ∧
  shape (grid s1) = shape (grid s) ∧
  (status s1 = status s ∨ status s1 = RUNNING).
Proof.
  intros [[_ ->]|[_ (g & Hg & ->)]]%ensureMinesPlaced_inv; simpl.
  - repeat split; try done. by left.
  - repeat split; try done; [by eapply placeMines_shape|by right].
Qed.

Lemma checkWin_spec s :
  dims_ok s = true → status s ≠ WON →
  ∃ s', checkWin s = Some s' ∧
        (status s' = WON ↔ all_safe_open (grid s)) ∧
        (s' = s ∨ ∃ g', s' = set_grid g' (set_status WON s) ∧
                        all_safe_open (grid s) ∧
                        shape g' = shape (grid s) ∧
                        ∀ q, cell_at g' q = reveal_kind true <$> cell_at (grid s) q).
Proof.
  intros Hd Hst. unfold checkWin, all_safe_open.
  destruct (countOpenSafe (grid s)) as [o t]. simpl.
  assert (Hnw : status_eqb (status s) WON = false) by (by destruct (status s)).
  rewrite Hnw. simpl. rewrite andb_true_r.
  destruct (Nat.eqb_spec o t) as [Heq|Hne].
  - destruct (gameOver_spec true s Hd) as (g' & Hrun & Hs & Hcell).
    eexists. split; [exact Hrun|]. split; [done|]. right. by exists g'.
  - exists s. split; [done|]. split; [|by left]. split; [done|]. intros; done.
Qed.

(** C5.  After a reveal that hit no mine, and after a chord that acted
    and hit no mine, the session checks [countOpenSafe] on the grid the
    engine left: the request completes, and the status it leaves is [WON]
    exactly when [opened = totalSafe] there. *)
Theorem win_checked_after_reveal_and_chord rnd r c s :
  dims_ok s = true →
  (∀ s1, terminal s = false →
         ensureMinesPlaced rnd r c s = Some s1 →
         hitMine (openCell (grid s1) (r, c)) = false →
         ∃ s', openAt rnd r c s = Some s' ∧
               (status s' = WON ↔
                (countOpenSafe (o_grid (openCell (grid s1) (r, c)))).1 =
                (countOpenSafe (o_grid (openCell (grid s1) (r, c)))).2)) ∧
  (status s = RUNNING →
   did (chordOpen (grid s) (r, c)) = true →
   c_hitMine (chordOpen (grid s) (r, c)) = false →
   ∃ s', chordAt r c s = Some s' ∧
         (status s' = WON ↔
          (countOpenSafe (c_grid (chordOpen (grid s) (r, c)))).1 =
          (countOpenSafe (c_grid (chordOpen (grid s) (r, c)))).2)).
Proof.
  intros Hd. split.
  - intros s1 Hterm Hens Hhit. unfold openAt. rewrite Hterm, Hens. simpl.
    rewrite Hhit.
    destruct (ensureMinesPlaced_frame _ _ _ _ _ Hens) as (Hr & Hc & _ & Hs & Hst).
    set (s2 := log_call _ _).
    assert (Hd2 : dims_ok s2 = true).
    { rewrite <- Hd. apply dims_ok_shape; try done. simpl.
      destruct (openCell_opens (grid s1) (r, c)) as [-> _]. done. }
    rewrite (renderBoard_ok s2 Hd2). simpl.
    destruct (checkWin_spec s2 Hd2) as (s' & Hrun & Hiff & _).
    { unfold terminal in Hterm. simpl.
      destruct Hst as [-> | ->]; [|done]. by destruct (status s). }
    exists s'. split; [done|]. exact Hiff.
  - intros Hst Hdid Hhit. unfold chordAt. rewrite Hst. simpl.
    rewrite Hdid, Hhit. simpl.
    set (s1 := log_call _ _).
    assert (Hd1 : dims_ok s1 = true).
    { rewrite <- Hd. apply dims_ok_shape; try done. simpl.
      destruct (chordOpen_opens (grid s) (r, c)) as [-> _]. done. }
    rewrite (renderBoard_ok s1 Hd1). simpl.
    destruct (checkWin_spec s1 Hd1) as (s' & Hrun & Hiff & _).
    { simpl. by rewrite Hst. }
    exists s'. split; [done|]. exact Hiff.
Qed.

(** C8.  When [openCell] reports [hitMine] in a game that is not over,
    the same call of [openAt] completes with the clicked cell open and the
    status [LOST].  The only engine call it logs is that [openCell]; after
    it the session opens mines only: every non-mine cell is open at the
    end exactly if it was when [openCell] returned, and, [openCell] having
    opened the mine alone, exactly if it was before the call. *)
Theorem mine_hit_loses rnd r c s s1 :
  dims_ok s = true →
  terminal s = false →
  ensureMinesPlaced rnd r c s = Some s1 →
  hitMine (openCell (grid s1) (r, c)) = true →
  ∃ s', openAt rnd r c s = Some s' ∧
        status s' = LOST ∧
        open_at (grid s') (r, c) = true ∧
        calls s' = calls s1 ++ [CallOpen r c] ∧
        (∀ p, mine_at (o_grid (openCell (grid s1) (r, c))) p = false →
              open_at (grid s') p = open_at (o_grid (openCell (grid s1) (r, c))) p) ∧
        (∀ p, mine_at (grid s1) p = false →
              mine_at (grid s') p = false ∧
              open_at (grid s') p = open_at (grid s1) p).
Proof.
  intros Hd Hterm Hens Hhit. unfold openAt. rewrite Hterm, Hens. simpl.
  rewrite Hhit.
  destruct (ensureMinesPlaced_frame _ _ _ _ _ Hens) as (Hr & Hc & _ & Hs & Hst).
  destruct (openCell_hit _ _ Hhit) as (c0 & Hc0 & Hm0 & Ho0 & Hf0 & Hg & _).
  simpl. rewrite Hg, cell_at_upd, decide_True, Hc0 by done. simpl.
  set (g1 := upd (set_open true) (r, c) (grid s1)).
  set (g2 := upd (set_open true) (r, c) g1).
  assert (Hg1 : opens (λ c, mine c = true) (grid s1) g1) by (by eapply opens_upd).
  assert (Hg2 : opens (λ c, mine c = true) g1 g2).
  { eapply opens_upd; [by unfold g1; rewrite cell_at_upd, decide_True, Hc0|done]. }
  set (s3 := set_grid g2 _).
  assert (Hd3 : dims_ok s3 = true).
  { rewrite <- Hd. apply dims_ok_shape; try done. simpl.
    destruct Hg2 as [-> _]. destruct Hg1 as [-> _]. done. }
  rewrite (renderBoard_ok s3 Hd3). simpl.
  destruct (gameOver_spec false s3 Hd3) as (g' & Hrun & Hs' & Hcell).
  eexists. split; [exact Hrun|]. simpl. split; [done|].
  assert (Hg' : opens (λ c, mine c = true) g1 g').
  { eapply opens_trans; [done|exact Hg2|].
    eapply opens_weaken; [|by apply (gameOver_opens false s3)]. by intros ? [? _]. }
  split; [|split; [done|split]].
  - unfold open_at. simpl. rewrite Hcell. unfold s3, g2, g1. simpl.
    rewrite !cell_at_upd, !decide_True, Hc0 by done. simpl.
    unfold reveal_kind. simpl. by rewrite Hm0.
  - intros p Hp. by eapply opens_open_same.
  - intros p Hp.
    assert (Hp1 : mine_at g1 p = false) by (by rewrite (opens_mine_at _ _ _ _ Hg1)).
    split.
    + by rewrite (opens_mine_at _ _ _ _ Hg').
    + rewrite (opens_open_same _ _ _ _ Hg') by done. by eapply opens_open_same.
Qed.

(** ** The invariant of the session *)

Lemma all_safe_open_spec g p c :
  (countOpenSafe g).1 = (countOpenSafe g).2 →
  cell_at g p = Some c → mine c = false → open c = true.
Proof.
  unfold countOpenSafe. simpl. intros Heq Hc Hm.
  destruct (open c) eqn:Ho; [done|]. exfalso.
  enough (length (List.filter (λ c, negb (mine c) && open c) (concat g)) <
          length (List.filter (λ c, negb (mine c)) (concat g)))%nat by lia.
  apply filter_length_lt with (x := c).
  - by intros y [? _]%andb_true_iff.
  - by eapply cell_in_concat.
  - by rewrite Hm.
  - by rewrite Ho, andb_false_r.
Qed.

Lemma fresh_state_Inv k r c m l :
  cfg_bounds r c m →
  Inv (mkState k r c m
         (replicate (Z.to_nat r) (replicate (Z.to_nat c) default_cell))
         READY true l).
Proof.
  intros Hb. split; simpl.
  - unfold dims_ok. simpl. rewrite shape_replicate, bool_decide_eq_true_2 by done.
    rewrite andb_true_r. unfold cfg_bounds in Hb.
    apply andb_true_iff. split; apply Z.leb_le; lia.
  - done.
  - intros _. split; [done|]. intros p. unfold mine_at, open_at.
    destruct (cell_at _ p) as [x|] eqn:Hx; [|done].
    by apply cell_at_replicate in Hx as ->.
  - intros p. unfold open_at.
    destruct (cell_at _ p) as [x|] eqn:Hx; [|done].
    by apply cell_at_replicate in Hx as ->.
Qed.

Lemma Inv_applyConfig c s s' : applyConfig c s = Some s' → Inv s'.
Proof.
  intros (r & co & m & Hb & ->)%applyConfig_fresh. by apply fresh_state_Inv.
Qed.

Lemma Inv_newGame s s' : Inv s → newGame s = Some s' → Inv s'.
Proof.
  intros [_ Hb _ _]. rewrite newGame_spec by (unfold cfg_bounds in Hb; lia).
  intros [= <-]. by apply fresh_state_Inv.
Qed.

Lemma Inv_flagAt r c s s' : Inv s → flagAt r c s = Some s' → Inv s'.
Proof.
  intros HI. unfold flagAt. destruct (terminal s); [by intros [= <-]|].
  destruct (cell_at (grid s) (r, c)) as [cell|] eqn:Hcell; simpl; [|done].
  destruct (open cell) eqn:Hopen; [by intros [= <-]|].
  pose proof (toggleFlag_shape (grid s) (r, c)) as Hs.
  pose proof (toggleFlag_cell (grid s) (r, c)) as Ht.
  destruct (toggleFlag (grid s) (r, c)) as [g ok]. simpl in Hs, Ht.
  intros Hs'.
  assert (s' = log_call (CallToggle r c) (set_grid g s)) as ->.
  { destruct ok; simpl in Hs'; [by apply renderBoard_inv in Hs'|by injection Hs']. }
  destruct HI as [Hd Hb Hfresh Hflag].
  assert (Hsame : ∀ q, mine_at g q = mine_at (grid s) q ∧
                       open_at g q = open_at (grid s) q).
  { intros q. unfold mine_at, open_at.
    destruct (Ht q) as [->|(-> & c0 & Hc0 & _ & ->)]; [done|]. by rewrite Hc0. }
  split; simpl.
  - rewrite <- Hd. by apply dims_ok_shape.
  - done.
  - intros Hf. destruct (Hfresh Hf) as [Hst Hall]. split; [done|].
    intros p. destruct (Hsame p) as [-> ->]. apply Hall.
  - intros p Ho Hf. destruct (Hsame p) as [Hm Ho']. rewrite Hm.
    destruct (Ht p) as [E|(-> & c0 & Hc0 & Hoc & E)].
    + apply Hflag; [by rewrite <- Ho'|]. unfold flag_at in *. by rewrite <- E.
    + unfold open_at in Ho. rewrite E in Ho. simpl in Ho. congruence.
Qed.

Lemma PreInv_opens (P : Cell → Prop) s g :
  PreInv s → opens P (grid s) g →
  (∀ c, P c → flag c = false ∨ mine c = true) →
  PreInv (set_grid g s).
Proof.
  intros [Hd Hb Hf Hflag] Hop HP. split; simpl; try done.
  - rewrite <- Hd. apply dims_ok_shape; try done. by destruct Hop.
  - intros p Ho Hfl.
    rewrite (opens_mine_at _ _ _ _ Hop). rewrite (opens_flag_at _ _ _ _ Hop) in Hfl.
    destruct (opens_open_at _ _ _ _ Hop Ho) as [Ho'|(c & Hc & HPc)]; [by apply (Hflag p)|].
    unfold flag_at, mine_at in *. rewrite Hc in *.
    destruct (HP c HPc); [congruence|done].
Qed.

Lemma PreInv_log call s : PreInv s → PreInv (log_call call s).
Proof. by intros [? ? ? ?]. Qed.

Lemma Inv_PreInv s : Inv s → firstClick s = false → terminal s = false → PreInv s.
Proof.
  intros [Hd Hb _ Hflag] Hf Ht. split; try done.
  intros p Ho Hfl. by destruct (Hflag p Ho Hfl).
Qed.

Lemma PreInv_Inv s :
  PreInv s →
  (∀ p, open_at (grid s) p = true → flag_at (grid s) p = true → status s = LOST) →
  Inv s.
Proof.
  intros [Hd Hb Hf Hflag] Hst. split; try done.
  - by rewrite Hf.
  - intros p Ho Hfl. split; [by apply Hflag|by apply (Hst p)].
Qed.

Lemma Inv_gameOver_false s s' : PreInv s → gameOver false s = Some s' → Inv s'.
Proof.
  intros Hpre Hrun. pose proof Hpre as [Hd _ _ _].
  destruct (gameOver_spec false s Hd) as (g' & Hrun' & Hs & Hcell).
  rewrite Hrun in Hrun'. injection Hrun' as ->.
  apply PreInv_Inv; [|done].
  apply (PreInv_opens (λ c, mine c = negb false ∧ open c = false));
    [by destruct Hpre|by apply (gameOver_opens false s)|].
  intros c [Hm _]. by right.
Qed.

Lemma Inv_checkWin s s' :
  PreInv s → status s ≠ WON →
  (∀ p, open_at (grid s) p = true → flag_at (grid s) p = true → False) →
  checkWin s = Some s' → Inv s'.
Proof.
  intros Hpre Hst Hnone Hrun. pose proof Hpre as [Hd _ _ _].
  destruct (checkWin_spec s Hd) as (s'' & Hrun' & _ & Hcases); [congruence|].
  rewrite Hrun in Hrun'. injection Hrun' as <-.
  destruct Hcases as [->|(g' & -> & Hall & Hs & Hcell)].
  - apply PreInv_Inv; [done|]. intros p Ho Hf. by destruct (Hnone p).
  - assert (Hop : opens (λ c, False) (grid s) g').
    { split; [done|]. intros q. left. rewrite Hcell.
      destruct (cell_at (grid s) q) as [c|] eqn:Hc; [|done]. simpl. f_equal.
      unfold reveal_kind. destruct (mine c) eqn:Hm; [done|]. simpl.
      pose proof (all_safe_open_spec _ _ _ Hall Hc Hm).
      destruct c; simpl in *; by subst. }
    apply PreInv_Inv.
    + apply (PreInv_opens (λ c, False)); [by destruct Hpre|done|done].
    + simpl. intros p Ho Hf. exfalso. apply (Hnone p).
      * destruct (opens_open_at _ _ _ _ Hop Ho) as [?|(? & _ & [])]. done.
      * by rewrite <- (opens_flag_at _ _ _ _ Hop).
Qed.

Lemma no_open_flag_opens s g :
  (∀ p, open_at (grid s) p = true → flag_at (grid s) p = true → False) →
  opens (λ c, flag c = false ∧ open c = false) (grid s) g →
  ∀ p, open_at g p = true → flag_at g p = true → False.
Proof.
  intros Hnone Hop p Ho Hf. rewrite (opens_flag_at _ _ _ _ Hop) in Hf.
  destruct (opens_open_at _ _ _ _ Hop Ho) as [Ho'|(c & Hc & Hfc & _)].
  - by apply (Hnone p).
  - unfold flag_at in Hf. rewrite Hc in Hf. congruence.
Qed.

(** After [ensureMinesPlaced] in a game that is not over, no cell is
    both open and flagged. *)
Lemma Inv_ensureMinesPlaced rnd r c s s1 :
  Inv s → terminal s = false → ensureMinesPlaced rnd r c s = Some s1 →
  PreInv s1 ∧ terminal s1 = false ∧
  (∀ p, open_at (grid s1) p = true → flag_at (grid s1) p = true → False).
Proof.
  intros HI Ht [[Hf ->]|[Hf (g & Hg & ->)]]%ensureMinesPlaced_inv.
  - split; [by apply Inv_PreInv|]. split; [done|].
    destruct HI as [_ _ _ Hflag]. intros p Ho Hfl.
    destruct (Hflag p Ho Hfl) as [_ Hst].
    unfold terminal in Ht. by rewrite Hst in Ht.
  - destruct HI as [Hd Hb Hfresh Hflag]. destruct (Hfresh Hf) as [Hst Hall].
    assert (Hopen : ∀ p, open_at g p = false).
    { intros p. pose proof (placeMines_cell _ _ _ _ _ p Hg) as Hp.
      destruct (Hall p) as [_ Hop]. unfold open_at in *.
      destruct (cell_at (grid s) p) as [c0|].
      - destruct Hp as (c' & -> & -> & _). done.
      - by rewrite Hp. }
    split; [|split; [done|]].
    + split; simpl; try done.
      * rewrite <- Hd. apply dims_ok_shape; try done. simpl.
        by eapply placeMines_shape.
      * intros p Ho. by rewrite Hopen in Ho.
    + simpl. intros p Ho. by rewrite Hopen in Ho.
Qed.

Lemma Inv_openAt rnd r c s s' : Inv s → openAt rnd r c s = Some s' → Inv s'.
Proof.
  intros HI. unfold openAt. destruct (terminal s) eqn:Ht; [by intros [= <-]|].
  destruct (ensureMinesPlaced rnd r c s) as [s1|] eqn:Hens; simpl; [|done].
  destruct (Inv_ensureMinesPlaced _ _ _ _ _ HI Ht Hens) as (Hpre & Ht1 & Hnone).
  pose proof (openCell_opens (grid s1) (r, c)) as Hop.
  assert (Hpre2 : PreInv (log_call (CallOpen r c)
                            (set_grid (o_grid (openCell (grid s1) (r, c))) s1))).
  { apply PreInv_log. eapply PreInv_opens; [done|exact Hop|]. intros ? [? _]. by left. }
  destruct (hitMine _) eqn:Hhit.
  - destruct (cell_at _ _) as [c1|] eqn:Hc1; simpl; [|done].
    destruct (renderBoard _) as [s3|] eqn:Hr; simpl; [|done].
    apply renderBoard_inv in Hr as ->.
    apply Inv_gameOver_false.
    apply (PreInv_opens (λ c, mine c = true)) with
      (s := log_call (CallOpen r c)
              (set_grid (o_grid (openCell (grid s1) (r, c))) s1));
      [done| |by right].
    simpl in *. eapply opens_upd; [exact Hc1|].
    destruct (openCell_hit _ _ Hhit) as (c0 & Hc0 & Hm0 & _ & _ & Hg & _).
    rewrite Hg, cell_at_upd, decide_True, Hc0 in Hc1 by done.
    injection Hc1 as <-. done.
  - destruct (renderBoard _) as [s3|] eqn:Hr; simpl; [|done].
    apply renderBoard_inv in Hr as ->.
    apply Inv_checkWin; [done| |].
    + simpl. unfold terminal in Ht1. by destruct (status s1).
    + simpl. by eapply no_open_flag_opens.
Qed.

Lemma Inv_chordAt r c s s' : Inv s → chordAt r c s = Some s' → Inv s'.
Proof.
  intros HI. unfold chordAt.
  destruct (status_eqb (status s) RUNNING) eqn:Hst; simpl; [|by intros [= <-]].
  assert (Hrun : status s = RUNNING) by (by destruct (status s)).
  assert (Ht : terminal s = false) by (unfold terminal; by rewrite Hrun).
  assert (Hf : firstClick s = false).
  { destruct (firstClick s) eqn:E; [|done].
    destruct HI as [_ _ Hfresh _]. destruct (Hfresh E). congruence. }
  assert (Hnone : ∀ p, open_at (grid s) p = true → flag_at (grid s) p = true → False).
  { destruct HI as [_ _ _ Hflag]. intros p Ho Hfl.
    destruct (Hflag p Ho Hfl). congruence. }
  pose proof (chordOpen_opens (grid s) (r, c)) as Hop.
  assert (Hpre1 : PreInv (log_call (CallChord r c)
                            (set_grid (c_grid (chordOpen (grid s) (r, c))) s))).
  { apply PreInv_log. eapply PreInv_opens; [by apply Inv_PreInv|exact Hop|].
    intros ? [? _]. by left. }
  destruct (did _) eqn:Hdid; simpl.
  - destruct (c_hitMine _) eqn:Hhit.
    + destruct (renderBoard _) as [s3|] eqn:Hr; simpl; [|done].
      apply renderBoard_inv in Hr as ->. by apply Inv_gameOver_false.
    + destruct (renderBoard _) as [s3|] eqn:Hr; simpl; [|done].
      apply renderBoard_inv in Hr as ->.
      apply Inv_checkWin; [done| |].
      * simpl. by rewrite Hrun.
      * simpl. by eapply no_open_flag_opens.
  - intros [= <-]. apply PreInv_Inv; [done|]. simpl. intros p Ho Hfl.
    exfalso. by eapply (no_open_flag_opens s).
Qed.

Lemma Inv_step o s s' : Inv s → step o s = Some s' → Inv s'.
Proof.
  destruct o; simpl.
  - intros _. apply Inv_applyConfig.
  - apply Inv_newGame.
  - apply Inv_openAt.
  - apply Inv_flagAt.
  - apply Inv_chordAt.
Qed.

Lemma reachable_Inv s : reachable s → Inv s.
Proof.
  induction 1 as [c s H|o s s' _ IH H]; [by eapply Inv_applyConfig|by eapply Inv_step].
Qed.

(** ** No open flagged cell while the game lasts *)

Lemma run_reachable ops : ∀ s s', reachable s → run ops s = Some s' → reachable s'.
Proof.
  induction ops as [|o ops IH]; intros s s' Hs; simpl; [by intros [= <-]|].
  destruct (step o s) as [s1|] eqn:Hstep; simpl; [|done].
  apply IH. by eapply reachable_step.
Qed.

(** C3 (as amended).  In every state the session reaches through
    [applyConfig], [newGame], [openAt], [flagAt] and [chordAt], a cell that
    is both open and flagged is a mine, and the game is lost: the sweep of
    [gameOver] that reveals the mines skips no flagged one.  While the
    status is [READY], [RUNNING] or [WON] no cell is both open and
    flagged. *)
Theorem open_flag_only_on_lost_mines s :
  reachable s →
  ∀ p, open_at (grid s) p = true → flag_at (grid s) p = true →
       mine_at (grid s) p = true ∧ status s = LOST.
Proof. intros Hs%reachable_Inv. by destruct Hs. Qed.

(** The lost sample game is a state of the session. *)
Lemma demo_lost_reachable : reachable demo_lost.
Proof.
  apply (run_reachable demo_ops demo_fresh);
    [by apply (reachable_start demo_cfg)|reflexivity].
Qed.

(** The theorem at the flagged mine (0,1) of the lost sample game. *)
Lemma open_flag_only_on_lost_mines_witness :
  mine_at (grid demo_lost) (0, 1) = true ∧ status demo_lost = LOST.
Proof.
  apply (open_flag_only_on_lost_mines demo_lost demo_lost_reachable (0, 1));
    reflexivity.
Defined.

(** C3 (as stated) fails.  On a 5 by 5 board with 3 mines: reveal (4,4),
    which places the mines at (0,1), (1,0) and (1,1); flag the mine (0,1);
    reveal the mine (1,0).  The game is lost, [gameOver] opens every mine,
    and the cell (0,1) is open and flagged. *)
Lemma open_and_flag_counterexample :
  run (OpApplyConfig demo_cfg :: demo_ops) initial = Some demo_lost ∧
  status demo_lost = LOST ∧
  open_at (grid demo_lost) (0, 1) = true ∧
  flag_at (grid demo_lost) (0, 1) = true.
Proof. repeat split; reflexivity. Qed.

(** ** The first reveal *)

Lemma openCell_opens_target g p c :
  cell_at g p = Some c → open c = false → flag c = false →
  open_at (o_grid (openCell g p)) p = true.
Proof.
  intros Hc Ho Hf. unfold openCell, open_at. rewrite Hc, Ho, Hf. simpl.
  destruct (mine c) eqn:Hm; simpl.
  - by rewrite cell_at_upd, decide_True, Hc.
  - rewrite cell_at_grid_imap, Hc. simpl.
    assert (Hin : inb p (flood (flood_fuel g) g [] [p]) = true).
    { apply inb_true, flood_exact. constructor.
      unfold floodable. by rewrite Hc, Hm, Hf. }
    by rewrite Hin.
Qed.

Lemma openCell_noop_flagged g p :
  flag_at g p = true → o_grid (openCell g p) = g.
Proof.
  unfold flag_at, openCell. destruct (cell_at g p) as [c|]; [|done].
  intros ->. by rewrite orb_true_r.
Qed.

(** C1 (as amended).  In a fresh game ([firstClick] still set) the first
    reveal request completes; it calls [placeMines] with the clicked
    coordinates as the safe cell and only then [openCell] on them.  The
    clicked cell is not a mine, the game is not lost, and no open cell is
    a mine.  When the clicked cell carries no flag it is open afterwards;
    when it carries a flag the request reveals nothing. *)
Theorem first_reveal_is_safe rnd r c s :
  reachable s → firstClick s = true →
  ∃ s', openAt rnd r c s = Some s' ∧
        calls s' = calls s ++ [CallPlace (mines s) r c; CallOpen r c] ∧
        firstClick s' = false ∧
        mine_at (grid s') (r, c) = false ∧
        status s' ≠ LOST ∧
        (∀ p, open_at (grid s') p = true → mine_at (grid s') p = false) ∧
        (in_grid (grid s) (r, c) = true → flag_at (grid s) (r, c) = false →
         open_at (grid s') (r, c) = true) ∧
        (flag_at (grid s) (r, c) = true → ∀ p, open_at (grid s') p = false).
Proof.
  intros Hreach Hf. destruct (reachable_Inv s Hreach) as [Hd Hb Hfresh _].
  destruct (Hfresh Hf) as [Hst Hall].
  assert (Ht : terminal s = false) by (unfold terminal; by rewrite Hst).
  destruct (placeMines_feasible rnd s (r, c) Hd Hb) as [g Hg].
  unfold openAt. rewrite Ht. unfold ensureMinesPlaced. rewrite Hf. simpl.
  rewrite Hg. simpl.
  assert (Hcells : ∀ p, open_at g p = false ∧ flag_at g p = flag_at (grid s) p ∧
                        in_grid g p = in_grid (grid s) p).
  { intros p. pose proof (placeMines_cell _ _ _ _ _ p Hg) as Hp.
    destruct (Hall p) as [_ Hop]. unfold open_at, flag_at, in_grid in *.
    destruct (cell_at (grid s) p) as [c0|].
    - destruct Hp as (c' & -> & -> & -> & _). done.
    - by rewrite Hp. }
  assert (Hmine : mine_at g (r, c) = false).
  { pose proof (placeMines_cell _ _ _ _ _ (r, c) Hg) as Hp.
    destruct (Hall (r, c)) as [Hm _]. unfold mine_at in *.
    destruct (cell_at (grid s) (r, c)) as [c0|] eqn:Hc0; [|by rewrite Hp].
    destruct Hp as (c' & -> & _ & _ & Hm').
    destruct (mine c') eqn:E; [|done].
    destruct Hm' as [?|Hres]; [done|congruence|]. exfalso. apply Hres.
    apply reserved_safe; [unfold in_grid; by rewrite Hc0|].
    rewrite totalCells_dims by done. unfold cfg_bounds in Hb. nia. }
  destruct (hitMine (openCell g (r, c))) eqn:Hhit.
  { destruct (openCell_hit _ _ Hhit) as (c0 & Hc0 & Hm0 & _).
    unfold mine_at in Hmine. rewrite Hc0 in Hmine. congruence. }
  pose proof (openCell_opens_safe g (r, c) Hhit) as Hop.
  set (s2 := log_call (CallOpen r c) _).
  assert (Hd2 : dims_ok s2 = true).
  { rewrite <- Hd. apply dims_ok_shape; try done. simpl.
    destruct Hop as [-> _]. by eapply placeMines_shape. }
  rewrite (renderBoard_ok s2 Hd2). simpl.
  destruct (checkWin_spec s2 Hd2) as (s' & Hrun & _ & Hcases); [done|].
  exists s'. split; [done|].
  assert (Hop' : opens (λ c, mine c = false ∧ flag c = false) g (grid s') ∧
                 calls s' = calls s2 ∧ firstClick s' = false ∧
                 (status s' = RUNNING ∨ status s' = WON) ∧
                 (all_safe_open (grid s2) ∨ s' = s2)).
  { destruct Hcases as [->|(g' & -> & Hall' & Hs' & Hcell)].
    - simpl. repeat split; try done; [by destruct Hop|apply Hop|by left|by right].
    - simpl. repeat split; try done; [| |by right|by left].
      + rewrite Hs'. simpl. by destruct Hop.
      + destruct Hop as [_ Hop]. intros q. rewrite Hcell. simpl.
        destruct (Hop q) as [E|(c0 & Hc0 & E & HP)]; rewrite E.
        * destruct (cell_at g q) as [c0|] eqn:Hc0; [|by left]. simpl.
          unfold reveal_kind.
          destruct (mine c0) eqn:Hm0; [by left|]. simpl.
          destruct (Hcells q) as (Hoq & _). unfold open_at in Hoq.
          rewrite Hc0 in Hoq.
          pose proof (all_safe_open_spec _ _ _ Hall' E Hm0). congruence.
        * right. exists c0. split; [done|]. split; [|done]. simpl.
          unfold reveal_kind. simpl. destruct HP as [-> _]. done. }
  destruct Hop' as (Hop' & Hcalls & Hfc & Hstat & Hwin).
  split; [by rewrite Hcalls; simpl; rewrite <- app_assoc|].
  split; [done|].
  split; [by rewrite (opens_mine_at _ _ _ _ Hop')|].
  split; [by destruct Hstat as [-> | ->]|].
  split; [|split].
  - intros p Ho. rewrite (opens_mine_at _ _ _ _ Hop').
    destruct (opens_open_at _ _ _ _ Hop' Ho) as [Ho'|(c0 & Hc0 & Hm0 & _)].
    + destruct (Hcells p) as [E _]. congruence.
    + unfold mine_at. by rewrite Hc0.
  - intros Hin Hfl. destruct (Hcells (r, c)) as (Hoc & Hfc' & Hic).
    assert (Hs2 : open_at (grid s2) (r, c) = true).
    { simpl. rewrite Hin in Hic. rewrite Hfl in Hfc'.
      unfold open_at, flag_at, in_grid in Hoc, Hfc', Hic.
      destruct (cell_at g (r, c)) as [c0|] eqn:Hc0; [|done].
      by apply (openCell_opens_target g (r, c) c0). }
    destruct Hcases as [->|(g' & -> & _ & _ & Hcell)]; [done|].
    simpl. unfold open_at in *. rewrite Hcell.
    destruct (cell_at (grid s2) (r, c)) as [c2|]; [|done]. simpl.
    unfold reveal_kind. destruct (mine c2); simpl; [done|done].
  - intros Hfl p. destruct (Hcells (r, c)) as (Hoc & Hfc' & _).
    rewrite <- Hfc' in Hfl.
    assert (Hg2 : grid s2 = g) by (simpl; by apply openCell_noop_flagged).
    destruct Hwin as [Hall'| ->].
    + exfalso. unfold all_safe_open in Hall'. rewrite Hg2 in Hall'.
      unfold flag_at, mine_at, open_at in Hfl, Hmine, Hoc.
      destruct (cell_at g (r, c)) as [c0|] eqn:Hc0; [|done].
      pose proof (all_safe_open_spec _ _ _ Hall' Hc0 Hmine). congruence.
    + rewrite Hg2. apply Hcells.
Qed.

(** The fresh sample game is a state of the session. *)
Lemma demo_fresh_reachable : reachable demo_fresh.
Proof. by apply (reachable_start demo_cfg). Qed.

(** The theorem at the first reveal, at (4,4), of the sample game. *)
Lemma first_reveal_is_safe_witness :
  ∃ s', openAt demo_rnd 4 4 demo_fresh = Some s' ∧
        calls s' = calls demo_fresh ++ [CallPlace (mines demo_fresh) 4 4; CallOpen 4 4] ∧
        firstClick s' = false ∧
        mine_at (grid s') (4, 4) = false ∧
        status s' ≠ LOST ∧
        (∀ p, open_at (grid s') p = true → mine_at (grid s') p = false) ∧
        (in_grid (grid demo_fresh) (4, 4) = true →
         flag_at (grid demo_fresh) (4, 4) = false →
         open_at (grid s') (4, 4) = true) ∧
        (flag_at (grid demo_fresh) (4, 4) = true → ∀ p, open_at (grid s') p = false).
Proof.
  apply (first_reveal_is_safe demo_rnd 4 4 demo_fresh demo_fresh_reachable).
  reflexivity.
Defined.

(** C1 (as stated) fails.  On a 5 by 5 board with 3 mines: flag (4,4);
    reveal (4,4), which places the mines at (0,1), (1,0) and (1,1) and
    opens nothing, the cell being flagged; reveal (1,0).  No cell was open
    before that last request: the first cell revealed in the game is the
    mine (1,0), and the game is lost. *)
Lemma first_revealed_cell_counterexample :
  run [OpApplyConfig demo_cfg; OpFlag 4 4; OpOpen demo_rnd 4 4] initial
    = Some demo_blocked ∧
  calls demo_blocked
    = [CallCreate 5 5; CallToggle 4 4; CallPlace 3 4 4; CallOpen 4 4] ∧
  any_open (grid demo_blocked) = false ∧
  openAt demo_rnd 1 0 demo_blocked = Some demo_blocked_lost ∧
  opened (openCell (grid demo_blocked) (1, 0)) = [(1, 0)] ∧
  mine_at (grid demo_blocked_lost) (1, 0) = true ∧
  open_at (grid demo_blocked_lost) (1, 0) = true ∧
  status demo_blocked_lost = LOST.
Proof. repeat split; vm_compute; reflexivity. Qed.

(** ** Every request completes *)

(** X3.  In a state of a session with integer sizes, every request runs
    to its end without an exception: [newGame] and [chordAt] for any
    arguments, [openAt] and [flagAt] for the coordinates of a cell of the
    board, which is what the page sends, and [applyConfig] for every
    argument whose kept sizes are integers. *)
Lemma step_completes o s :
  reachable s →
  (∀ c, o = OpApplyConfig c → is_Some (integer_sizes (safe_config c))) →
  (∀ rnd r c, o = OpOpen rnd r c → in_grid (grid s) (r, c) = true) →
  (∀ r c, o = OpFlag r c → in_grid (grid s) (r, c) = true) →
  is_Some (step o s).
Proof.
  intros Hreach Hcfg _ Hflag. pose proof (reachable_Inv s Hreach) as HI.
  destruct o as [k| |rnd r c|r c|r c]; simpl.
  - destruct (Hcfg k eq_refl) as [[[r co] m] Hs].
    by destruct (applyConfig_spec k s r co m Hs) as [_ ->].
  - destruct HI as [_ Hb _ _].
    rewrite newGame_spec by (unfold cfg_bounds in Hb; lia). done.
  - unfold openAt. destruct (terminal s) eqn:Ht; [done|].
    assert (Hens : is_Some (ensureMinesPlaced rnd r c s)).
    { unfold ensureMinesPlaced. destruct (firstClick s); simpl; [|done].
      destruct HI as [Hd Hb _ _].
      destruct (placeMines_feasible rnd s (r, c) Hd Hb) as [g ->]. done. }
    destruct Hens as [s1 Hens]. rewrite Hens. simpl.
    destruct (Inv_ensureMinesPlaced _ _ _ _ _ HI Ht Hens) as (Hpre & Ht1 & _).
    pose proof (openCell_opens (grid s1) (r, c)) as Hop.
    set (s2 := log_call (CallOpen r c) _).
    assert (Hpre2 : PreInv s2).
    { apply PreInv_log. eapply PreInv_opens; [done|exact Hop|]. intros ? [? _]. by left. }
    destruct (hitMine _) eqn:Hhit.
    + destruct (openCell_hit _ _ Hhit) as (c0 & Hc0 & Hm0 & _ & _ & Hg & _).
      simpl. rewrite Hg, cell_at_upd, decide_True, Hc0 by done. simpl.
      set (s3 := set_grid _ s2).
      assert (Hd3 : dims_ok s3 = true).
      { destruct Hpre2 as [Hd2 _ _ _]. rewrite <- Hd2.
        apply dims_ok_shape; try done. simpl. rewrite !shape_upd.
        by destruct Hop as [-> _]. }
      rewrite (renderBoard_ok s3 Hd3). simpl.
      destruct (gameOver_spec false s3 Hd3) as (g' & -> & _). done.
    + destruct Hpre2 as [Hd2 _ _ _]. rewrite (renderBoard_ok s2 Hd2). simpl.
      destruct (checkWin_spec s2 Hd2) as (s' & -> & _); [|done].
      simpl. unfold terminal in Ht1. by destruct (status s1).
  - unfold flagAt. destruct (terminal s); [done|].
    specialize (Hflag r c eq_refl). pose proof Hflag as Hin.
    unfold in_grid in Hin.
    destruct (cell_at (grid s) (r, c)) as [cell|]; [|done]. simpl.
    destruct (open cell); [done|].
    pose proof (toggleFlag_shape (grid s) (r, c)) as Hs.
    destruct (toggleFlag (grid s) (r, c)) as [g ok]. simpl in Hs.
    destruct ok; simpl; [|done].
    rewrite renderBoard_ok; [done|].
    destruct HI as [Hd _ _ _]. rewrite <- Hd. by apply dims_ok_shape.
  - unfold chordAt.
    destruct (status_eqb (status s) RUNNING) eqn:Hst; simpl; [|done].
    destruct (did _); simpl; [|done].
    set (s1 := log_call (CallChord r c) _).
    assert (Hd1 : dims_ok s1 = true).
    { destruct HI as [Hd _ _ _]. rewrite <- Hd. apply dims_ok_shape; try done.
      simpl. by destruct (chordOpen_opens (grid s) (r, c)). }
    rewrite (renderBoard_ok s1 Hd1). simpl.
    destruct (c_hitMine _).
    + destruct (gameOver_spec false s1 Hd1) as (g' & -> & _). done.
    + destruct (checkWin_spec s1 Hd1) as (s' & -> & _); [|done].
      simpl. by destruct (status s).
Qed.

(** ** The statements at the sample game *)

(** [gameOver(false)] on the running sample game. *)
Lemma gameOver_reveals_witness :
  ∃ s', gameOver false demo_running = Some s' ∧
        status s' = LOST ∧
        shape (grid s') = shape (grid demo_running) ∧
        ∀ p c, cell_at (grid demo_running) p = Some c →
          ∃ c', cell_at (grid s') p = Some c' ∧
                mine c' = mine c ∧ flag c' = flag c ∧ num c' = num c ∧
                open c' = if bool_decide (mine c = negb false) then true else open c.
Proof. apply (gameOver_reveals false demo_running). reflexivity. Defined.

(** Three requests on the lost sample game. *)
Lemma terminal_state_is_frozen_witness :
  run [OpOpen demo_rnd 0 0; OpFlag 2 2; OpChord 3 3] demo_lost = Some demo_lost.
Proof.
  apply (terminal_state_is_frozen demo_lost
           [OpOpen demo_rnd 0 0; OpFlag 2 2; OpChord 3 3]);
    [right; reflexivity|reflexivity].
Defined.

(** The engine calls of the sample game, from its first reveal to the loss. *)
Lemma placeMines_once_per_game_witness :
  ∃ new, calls demo_lost = calls demo_fresh ++ new ∧
         (length (List.filter is_place new) ≤ 1)%nat ∧
         (firstClick demo_fresh = false → length (List.filter is_place new) = 0%nat).
Proof.
  apply (proj2 (proj2 (proj2 placeMines_once_per_game)) demo_ops demo_fresh demo_lost);
    reflexivity.
Defined.

(** A reveal of the walled-in corner (0,0), and a chord at (2,0) with its
    two mines flagged. *)
Lemma win_checked_after_reveal_and_chord_witness :
  (∃ s', openAt demo_rnd 0 0 demo_running = Some s' ∧
         (status s' = WON ↔
          (countOpenSafe (o_grid (openCell (grid demo_running) (0, 0)))).1 =
          (countOpenSafe (o_grid (openCell (grid demo_running) (0, 0)))).2)) ∧
  (∃ s', chordAt 2 0 demo_flagged = Some s' ∧
         (status s' = WON ↔
          (countOpenSafe (c_grid (chordOpen (grid demo_flagged) (2, 0)))).1 =
          (countOpenSafe (c_grid (chordOpen (grid demo_flagged) (2, 0)))).2)).
Proof.
  split.
  - apply (proj1 (win_checked_after_reveal_and_chord demo_rnd 0 0 demo_running eq_refl)
             demo_running); reflexivity.
  - apply (proj2 (win_checked_after_reveal_and_chord demo_rnd 2 0 demo_flagged eq_refl));
      reflexivity.
Defined.

(** A reveal of the mine (1,0) in the running sample game. *)
Lemma mine_hit_loses_witness :
  ∃ s', openAt demo_rnd 1 0 demo_running = Some s' ∧
        status s' = LOST ∧
        open_at (grid s') (1, 0) = true ∧
        calls s' = calls demo_running ++ [CallOpen 1 0] ∧
        (∀ p, mine_at (o_grid (openCell (grid demo_running) (1, 0))) p = false →
              open_at (grid s') p
              = open_at (o_grid (openCell (grid demo_running) (1, 0))) p) ∧
        (∀ p, mine_at (grid demo_running) p = false →
              mine_at (grid s') p = false ∧
              open_at (grid s') p = open_at (grid demo_running) p).
Proof.
  apply (mine_hit_loses demo_rnd 1 0 demo_running demo_running); reflexivity.
Defined.

(** ** Status and revealed cells *)

Lemma Inv2_fresh k r c m l :
  Inv2 (mkState k r c m
          (replicate (Z.to_nat r) (replicate (Z.to_nat c) default_cell))
          READY true l).
Proof.
  split; simpl; try done.
  intros p. unfold open_at.
  destruct (cell_at _ p) as [x|] eqn:Hx; [|done].
  by apply cell_at_replicate in Hx as ->.
Qed.

Lemma Inv2_lost s s' : firstClick s = false → gameOver false s = Some s' → Inv2 s'.
Proof. intros Hf [g ->]%gameOver_inv. split; simpl; try done; congruence. Qed.

Lemma Inv2_checkWin s s' :
  dims_ok s = true → status s = RUNNING → firstClick s = false →
  (∀ p, open_at (grid s) p = true → mine_at (grid s) p = true → False) →
  checkWin s = Some s' → Inv2 s'.
Proof.
  intros Hd Hst Hf Hnone Hrun.
  destruct (checkWin_spec s Hd) as (s'' & Hrun' & _ & Hcases); [congruence|].
  rewrite Hrun in Hrun'. injection Hrun' as <-.
  destruct Hcases as [->|(g' & -> & _ & Hs & Hcell)].
  - split; try congruence. intros p Ho Hm. by destruct (Hnone p).
  - pose proof (gameOver_opens true s g' Hcell Hs) as Hop.
    split; simpl; try done.
    + intros p Ho Hm. exfalso. rewrite (opens_mine_at _ _ _ _ Hop) in Hm.
      destruct (opens_open_at _ _ _ _ Hop Ho) as [Ho'|(c & Hc & Hmc & _)].
      * by apply (Hnone p).
      * unfold mine_at in Hm. rewrite Hc in Hm. simpl in Hmc. congruence.
    + intros _ p c. rewrite Hcell.
      destruct (cell_at (grid s) p) as [c0|]; [|done]. simpl. intros [= <-].
      unfold reveal_kind. destruct (mine c0) eqn:Hm; simpl; [congruence|done].
Qed.

Lemma no_open_mine_opens s g :
  (∀ p, open_at (grid s) p = true → mine_at (grid s) p = true → False) →
  opens (λ c, mine c = false ∧ flag c = false) (grid s) g →
  ∀ p, open_at g p = true → mine_at g p = true → False.
Proof.
  intros Hnone Hop p Ho Hm. rewrite (opens_mine_at _ _ _ _ Hop) in Hm.
  destruct (opens_open_at _ _ _ _ Hop Ho) as [Ho'|(c & Hc & Hmc & _)].
  - by apply (Hnone p).
  - unfold mine_at in Hm. rewrite Hc in Hm. congruence.
Qed.

Lemma chordOpen_not_did g p :
  did (chordOpen g p) = false → c_grid (chordOpen g p) = g.
Proof.
  unfold chordOpen. destruct (cell_at g p) as [c|]; [|done].
  case_match; [|done]. by destruct (chord_loop g (neighbors p)).
Qed.

Lemma Inv2_step o s s' : Inv s → Inv2 s → step o s = Some s' → Inv2 s'.
Proof.
  intros HI HI2. destruct o as [k| |rnd r c|r c|r c]; simpl.
  - intros (r & co & m & Hb & ->)%applyConfig_fresh. apply Inv2_fresh.
  - destruct HI as [_ Hb _ _].
    rewrite newGame_spec by (unfold cfg_bounds in Hb; lia).
    intros [= <-]. apply Inv2_fresh.
  - unfold openAt. destruct (terminal s) eqn:Ht; [by intros [= <-]|].
    destruct (ensureMinesPlaced rnd r c s) as [s1|] eqn:Hens; simpl; [|done].
    destruct (Inv_ensureMinesPlaced _ _ _ _ _ HI Ht Hens) as ([Hd1 _ Hf1 _] & Ht1 & _).
    assert (Hs1 : status s1 = RUNNING ∧
                  ∀ p, open_at (grid s1) p = true → mine_at (grid s1) p = true → False).
    { destruct HI2 as [Hready Hmine Hwon].
      apply ensureMinesPlaced_inv in Hens as [[Hf ->]|[Hf (g & Hg & ->)]].
      - split.
        + unfold terminal in Ht. destruct (status s) eqn:E; try done.
          rewrite Hready in Hf; done.
        + intros p Ho Hm. specialize (Hmine p Ho Hm).
          unfold terminal in Ht. by rewrite Hmine in Ht.
      - split; [done|]. simpl. intros p Ho _.
        destruct HI as [_ _ Hfresh _]. destruct (Hfresh Hf) as [_ Hall].
        pose proof (placeMines_cell _ _ _ _ _ p Hg) as Hp.
        destruct (Hall p) as [_ Hop]. unfold open_at in *.
        destruct (cell_at (grid s) p) as [c0|].
        + destruct Hp as (c' & E & Ho' & _). rewrite E in Ho. congruence.
        + by rewrite Hp in Ho. }
    destruct Hs1 as [Hst1 Hnone1].
    destruct (hitMine _) eqn:Hhit.
    + destruct (cell_at _ _); simpl; [|done].
      destruct (renderBoard _) as [s3|] eqn:Hr; simpl; [|done].
      apply renderBoard_inv in Hr as ->. by apply Inv2_lost.
    + destruct (renderBoard _) as [s3|] eqn:Hr; simpl; [|done].
      apply renderBoard_inv in Hr as ->.
      pose proof (openCell_opens_safe _ _ Hhit) as Hop.
      apply Inv2_checkWin; try done.
      * rewrite <- Hd1. apply dims_ok_shape; try done. by destruct Hop.
      * simpl. by eapply no_open_mine_opens.
  - unfold flagAt. destruct (terminal s) eqn:Ht; [by intros [= <-]|].
    destruct (cell_at (grid s) (r, c)) as [cell|] eqn:Hcell; simpl; [|done].
    destruct (open cell) eqn:Hopen; [by intros [= <-]|].
    pose proof (toggleFlag_cell (grid s) (r, c)) as Htg.
    destruct (toggleFlag (grid s) (r, c)) as [g ok]. simpl in Htg.
    intros Hs'.
    assert (s' = log_call (CallToggle r c) (set_grid g s)) as ->.
    { destruct ok; simpl in Hs'; [by apply renderBoard_inv in Hs'|by injection Hs']. }
    destruct HI2 as [Hready Hmine Hwon].
    split; simpl; try done.
    + intros p Ho Hm. apply (Hmine p).
      * unfold open_at in *.
        destruct (Htg p) as [<-|(-> & c0 & Hc0 & Hoc & E)]; [done|].
        rewrite E in Ho. simpl in Ho. congruence.
      * unfold mine_at in *.
        destruct (Htg p) as [<-|(-> & c0 & Hc0 & Hoc & E)]; [done|].
        rewrite E in Hm. by rewrite Hc0.
    + intros Hw. unfold terminal in Ht. by rewrite Hw in Ht.
  - unfold chordAt.
    destruct (status_eqb (status s) RUNNING) eqn:Hst; simpl; [|by intros [= <-]].
    assert (Hrun : status s = RUNNING) by (by destruct (status s)).
    destruct HI2 as [Hready Hmine Hwon].
    assert (Hf : firstClick s = false).
    { destruct (firstClick s) eqn:E; [|done].
      destruct HI as [_ _ Hfresh _]. destruct (Hfresh E). congruence. }
    assert (Hnone : ∀ p, open_at (grid s) p = true → mine_at (grid s) p = true → False).
    { intros p Ho Hm. specialize (Hmine p Ho Hm). congruence. }
    destruct HI as [Hd _ _ _].
    assert (Hd1 : dims_ok (log_call (CallChord r c)
                     (set_grid (c_grid (chordOpen (grid s) (r, c))) s)) = true).
    { rewrite <- Hd. apply dims_ok_shape; try done. simpl.
      by destruct (chordOpen_opens (grid s) (r, c)). }
    destruct (did (chordOpen (grid s) (r, c))) eqn:Hdid; simpl.
    + destruct (c_hitMine (chordOpen (grid s) (r, c))) eqn:Hhit.
      * destruct (renderBoard _) as [s3|] eqn:Hr; simpl; [|done].
        apply renderBoard_inv in Hr as ->. by apply Inv2_lost.
      * destruct (renderBoard _) as [s3|] eqn:Hr; simpl; [|done].
        apply renderBoard_inv in Hr as ->.
        apply Inv2_checkWin; try done. simpl.
        eapply no_open_mine_opens; [done|]. by apply chordOpen_opens_safe.
    + intros [= <-]. rewrite (chordOpen_not_did _ _ Hdid).
      split; simpl; try done; congruence.
Qed.

Lemma reachable_Inv2 s : reachable s → Inv2 s.
Proof.
  induction 1 as [c s H|o s s' Hs IH H].
  - apply applyConfig_fresh in H as (r & co & m & Hb & ->). apply Inv2_fresh.
  - eapply Inv2_step; eauto using reachable_Inv.
Qed.

(** X1.  In every state the session reaches, a mine is open only when
    the game is lost, a won game has every non-mine cell open, and the
    status is [READY] exactly while the first click is pending. *)
Theorem status_matches_revealed_cells s :
  reachable s →
  (∀ p, open_at (grid s) p = true → mine_at (grid s) p = true → status s = LOST) ∧
  (status s = WON →
   ∀ p c, cell_at (grid s) p = Some c → mine c = false → open c = true) ∧
  (status s = READY ↔ firstClick s = true).
Proof.
  intros Hs. destruct (reachable_Inv2 s Hs) as [Hready Hmine Hwon].
  destruct (reachable_Inv s Hs) as [_ _ Hfresh _].
  split; [done|]. split; [done|]. split; [done|]. intros Hf. by destruct (Hfresh Hf).
Qed.

(** The theorem at the lost sample game. *)
Lemma status_matches_revealed_cells_witness :
  (∀ p, open_at (grid demo_lost) p = true → mine_at (grid demo_lost) p = true →
        status demo_lost = LOST) ∧
  (status demo_lost = WON →
   ∀ p c, cell_at (grid demo_lost) p = Some c → mine c = false → open c = true) ∧
  (status demo_lost = READY ↔ firstClick demo_lost = true).
Proof. apply (status_matches_revealed_cells demo_lost demo_lost_reachable). Defined.

(** ** The two configuration checks agree *)

(** X2.  For all numbers, fractions, infinities and [NaN] included,
    [sanitizeCfg] keeps a configuration exactly when [validateCustom]
    accepts its three numbers, and then returns those numbers unchanged. *)
Theorem sanitizeCfg_agrees_with_validateCustom k :
  (is_Some (sanitizeCfg (Some k)) ↔
   validateCustom (in_rows k) (in_cols k) (in_mines k) = None) ∧
  (∀ k', sanitizeCfg (Some k) = Some k' →
         cfg_rows k' = in_rows k ∧ cfg_cols k' = in_cols k ∧
         cfg_mines k' = in_mines k).
Proof.
  rewrite sanitizeCfg_validateCustom.
  destruct (validateCustom (in_rows k) (in_cols k) (in_mines k)) as [msg|].
  - split; [split; [by intros [? [=]]|done]|done].
  - split; [done|]. by intros k' [= <-].
Qed.

(** ** The board of a session *)

(** X4.  In every state of a session with integer sizes (every
    configuration applied has kept a whole number of rows, columns and
    mines), the grid has [rows] rows of [cols] cells, the three sizes are
    within the bounds of [sanitizeCfg], and while the first click is
    pending the grid holds no mine and no open cell. *)
Theorem session_board_is_well_formed s :
  reachable s →
  dims_ok s = true ∧
  cfg_bounds (rows s) (cols s) (mines s) ∧
  (firstClick s = true →
   ∀ p, mine_at (grid s) p = false ∧ open_at (grid s) p = false).
Proof.
  intros Hs. destruct (reachable_Inv s Hs) as [Hd Hb Hfresh _].
  split; [done|]. split; [done|]. intros Hf. by destruct (Hfresh Hf).
Qed.

(** The theorem at the fresh sample game. *)
Lemma session_board_is_well_formed_witness :
  dims_ok demo_fresh = true ∧
  cfg_bounds (rows demo_fresh) (cols demo_fresh) (mines demo_fresh) ∧
  (firstClick demo_fresh = true →
   ∀ p, mine_at (grid demo_fresh) p = false ∧ open_at (grid demo_fresh) p = false).
Proof. apply (session_board_is_well_formed demo_fresh demo_fresh_reachable). Defined.

(** The running sample game is a state of the session. *)
Lemma demo_running_reachable : reachable demo_running.
Proof.
  apply (reachable_step (OpOpen demo_rnd 4 4) demo_fresh);
    [apply demo_fresh_reachable|reflexivity].
Qed.

(** A flag request at (2,2) in the running sample game. *)
Lemma step_completes_witness : is_Some (step (OpFlag 2 2) demo_running).
Proof.
  apply (step_completes (OpFlag 2 2) demo_running demo_running_reachable).
  - intros c [=].
  - intros rnd r c [=].
  - intros r c [= <- <-]. reflexivity.
Defined.

(** * The displays *)

Lemma clamp_range n lo hi : lo ≤ hi → lo ≤ clamp n lo hi ≤ hi.
Proof. unfold clamp. lia. Qed.

Lemma clamp_fixed n lo hi : lo ≤ n ≤ hi → clamp n lo hi = n.
Proof. unfold clamp. lia. Qed.

Lemma pad3_clamp n : pad3 n = pad3 (clamp n (-99) 999).
Proof.
  unfold pad3. rewrite (clamp_fixed (clamp n (-99) 999)); [done|].
  apply clamp_range. lia.
Qed.

Lemma counter_range_all : forallb pad3_ok counter_range = true.
Proof. vm_compute. reflexivity. Qed.

Lemma pad3_ok_clamped n : pad3_ok (clamp n (-99) 999) = true.
Proof.
  pose proof counter_range_all as H. rewrite forallb_forall in H. apply H.
  apply list_elem_of_In, elem_of_seqZ.
  pose proof (clamp_range n (-99) 999). lia.
Qed.

Lemma clock_range_all : forallb formatTime_ok clock_range = true.
Proof. vm_compute. reflexivity. Qed.

Lemma pad3_Number n : Number_dec (pad3 n) = Fin (clamp n (-99) 999).
Proof.
  pose proof (pad3_ok_clamped n) as H. rewrite pad3_clamp.
  unfold pad3_ok in H.
  apply andb_true_iff in H as [[_ Hn]%andb_true_iff _].
  by apply bool_decide_eq_true in Hn.
Qed.

(** X5.  For every integer [n], [pad3 n] is a text of exactly three
    characters, each with an entry in [DIGIT_MAP], and read back as a number
    it is [n] clamped to -99..999. *)
Theorem pad3_three_glyphs n :
  String.length (pad3 n) = 3%nat ∧
  (∀ i, (i < 3)%nat →
        ∃ ch segs, String.get i (pad3 n) = Some ch ∧ DIGIT_MAP ch = Some segs) ∧
  Number_dec (pad3 n) = Fin (clamp n (-99) 999).
Proof.
  pose proof (pad3_ok_clamped n) as H. rewrite pad3_clamp.
  unfold pad3_ok in H.
  apply andb_true_iff in H as [[[Hg Hl]%andb_true_iff Hn]%andb_true_iff _].
  split; [by apply Nat.eqb_eq|].
  split; [|rewrite <- pad3_clamp; apply pad3_Number].
  intros i Hi. rewrite forallb_forall in Hg.
  specialize (Hg i). destruct (String.get i _) as [ch|].
  - assert (Hin : In i [0; 1; 2]%nat) by (simpl; lia).
    apply Hg, bool_decide_eq_true in Hin as [segs Hs]. by exists ch, segs.
  - assert (Hin : In i [0; 1; 2]%nat) by (simpl; lia). by apply Hg in Hin.
Qed.

(** X6.  For a time of 0 to 5999 seconds, which covers the timer's 0 to
    999, [formatTime] gives five characters with a colon in the middle; the
    two digits before it read as the minutes and the two after it as the
    seconds, so that two such times with the same text are equal. *)
Theorem formatTime_reads_back s :
  0 ≤ s ≤ 5999 →
  String.length (formatTime s) = 5%nat ∧
  String.get 2 (formatTime s) = Some ":"%char ∧
  read_clock (formatTime s) = (Fin (s / 60), Fin (s mod 60)) ∧
  ∀ s', 0 ≤ s' ≤ 5999 → formatTime s' = formatTime s → s' = s.
Proof.
  assert (Hall : ∀ t, 0 ≤ t ≤ 5999 → formatTime_ok t = true).
  { intros t Ht. pose proof clock_range_all as H. rewrite forallb_forall in H.
    apply H, list_elem_of_In, elem_of_seqZ. lia. }
  intros Hs. pose proof (Hall s Hs) as H. unfold formatTime_ok in H.
  apply andb_true_iff in H as [[Hl Hc]%andb_true_iff Hr].
  apply Nat.eqb_eq in Hl. apply bool_decide_eq_true in Hc, Hr.
  repeat split; try done.
  intros s' Hs' Heq. pose proof (Hall s' Hs') as H'. unfold formatTime_ok in H'.
  apply andb_true_iff in H' as [_ Hr']. apply bool_decide_eq_true in Hr'.
  rewrite Heq, Hr in Hr'. injection Hr' as Hm Hsec.
  rewrite (Z.div_mod s 60), (Z.div_mod s' 60) by lia. lia.
Qed.

Lemma formatTime_reads_back_witness :
  String.length (formatTime 754) = 5%nat ∧
  String.get 2 (formatTime 754) = Some ":"%char ∧
  read_clock (formatTime 754) = (Fin (754 / 60), Fin (754 mod 60)) ∧
  ∀ s', 0 ≤ s' ≤ 5999 → formatTime s' = formatTime 754 → s' = 754.
Proof. apply (formatTime_reads_back 754). lia. Defined.

Lemma setDigit_setDigit d ch ch' : setDigit (setDigit d ch) ch' = setDigit d ch'.
Proof.
  unfold setDigit. rewrite map_map. apply map_ext. by intros [name b].
Qed.

Lemma setSevenSeg_read k :
  setSevenSeg buildSevenSeg k ≫= read_display = Some (pad3 k).
Proof.
  pose proof (pad3_ok_clamped k) as H. unfold pad3_ok in H.
  apply andb_true_iff in H as [_ H]. apply bool_decide_eq_true in H.
  rewrite pad3_clamp. rewrite <- H. unfold setSevenSeg.
  by rewrite <- pad3_clamp.
Qed.

Lemma setSevenSeg_form k :
  setSevenSeg buildSevenSeg k =
  Some (imap (λ i d, setDigit d (String.get i (pad3 k))) buildSevenSeg).
Proof. unfold setSevenSeg. generalize (pad3 k). intros text. reflexivity. Qed.

(** A display keeps no trace of the values it showed before. *)
Lemma display_setSevenSeg c :
  display c → ∀ m, setSevenSeg c m = setSevenSeg buildSevenSeg m.
Proof.
  intros Hc.
  assert (Hf : ∃ f : nat → option ascii,
             c = imap (λ i d, setDigit d (f i)) buildSevenSeg).
  { induction Hc as [|c v c' _ [f ->] Hset]; [by exists (λ _, None)|].
    exists (λ i, String.get i (pad3 v)). revert Hset. unfold setSevenSeg.
    generalize (pad3 v). intros t. unfold buildSevenSeg.
    cbn -[setDigit String.get]. rewrite !setDigit_setDigit. by intros [= <-]. }
  destruct Hf as [f ->]. intros m. unfold setSevenSeg.
  generalize (pad3 m). intros t. unfold buildSevenSeg.
  cbn -[setDigit String.get]. by rewrite !setDigit_setDigit.
Qed.

(** X7.  On a display made by [buildSevenSeg], [setSevenSeg] completes for
    every integer; the pattern it lights reads as the text [pad3] of the
    value; two values light the same pattern exactly when they are equal
    once clamped to -99..999; and a display that showed other values before
    shows a value exactly as a fresh display does. *)
Theorem setSevenSeg_shows_value n :
  ∃ d, setSevenSeg buildSevenSeg n = Some d ∧
       read_display d = Some (pad3 n) ∧
       (∀ m, setSevenSeg buildSevenSeg m = Some d ↔
             clamp m (-99) 999 = clamp n (-99) 999) ∧
       (∀ c m, display c → setSevenSeg c m = setSevenSeg buildSevenSeg m).
Proof.
  eexists. split; [apply setSevenSeg_form|]. split; [|split].
  - pose proof (setSevenSeg_read n) as Hread. by rewrite setSevenSeg_form in Hread.
  - intros m. split.
    + intros Hm. pose proof (setSevenSeg_read m) as Hrm. rewrite Hm in Hrm.
      pose proof (setSevenSeg_read n) as Hrn. rewrite setSevenSeg_form in Hrn.
      simpl in Hrm, Hrn.
      rewrite Hrn in Hrm. injection Hrm as Heq.
      pose proof (pad3_Number n) as Hn. pose proof (pad3_Number m) as Hm'.
      rewrite Heq, Hm' in Hn. by injection Hn.
    + intros Heq. rewrite setSevenSeg_form. do 2 f_equal.
      by rewrite (pad3_clamp m), (pad3_clamp n), Heq.
  - intros c m Hc. by apply display_setSevenSeg.
Qed.

(** * The whole state *)

(** ** The game fields of the whole state follow the session *)

Lemma core_newGameU ui : core <$> newGameU ui = newGame (core ui).
Proof. unfold newGameU. by destruct (newGame (core ui)). Qed.

Lemma core_applyConfigU c ui : core <$> applyConfigU c ui = applyConfig c (core ui).
Proof.
  unfold applyConfigU, applyConfig.
  destruct (integer_sizes (safe_config c)) as [[[r co] m]|]; simpl; [|done].
  apply core_newGameU.
Qed.

Lemma core_gameOverU win ui : core <$> gameOverU win ui = gameOver win (core ui).
Proof. unfold gameOverU. simpl. by destruct (gameOver win (core ui)). Qed.

Lemma core_checkWinU ui : core <$> checkWinU ui = checkWin (core ui).
Proof.
  unfold checkWinU, checkWin. destruct (countOpenSafe _) as [o t].
  destruct (_ && _); [apply core_gameOverU|done].
Qed.

Lemma core_ensureMinesPlacedU rnd r c ui :
  core <$> ensureMinesPlacedU rnd r c ui = ensureMinesPlaced rnd r c (core ui).
Proof.
  unfold ensureMinesPlacedU. destruct (firstClick (core ui)) eqn:Hf; simpl.
  - by destruct (ensureMinesPlaced rnd r c (core ui)).
  - unfold ensureMinesPlaced. by rewrite Hf.
Qed.

Lemma core_openAtU rnd r c ui : core <$> openAtU rnd r c ui = openAt rnd r c (core ui).
Proof.
  unfold openAtU, openAt. destruct (terminal (core ui)); [done|].
  rewrite <- core_ensureMinesPlacedU.
  destruct (ensureMinesPlacedU rnd r c ui) as [ui1|]; simpl; [|done].
  destruct (hitMine _); simpl.
  - destruct (cell_at _ _); simpl; [|done].
    destruct (renderBoard _) as [s3|]; simpl; [|done].
    apply core_gameOverU.
  - destruct (renderBoard _) as [s3|]; simpl; [|done].
    apply core_checkWinU.
Qed.

Lemma core_flagAtU r c ui : core <$> flagAtU r c ui = flagAt r c (core ui).
Proof. unfold flagAtU. by destruct (flagAt r c (core ui)). Qed.

Lemma core_chordAtU r c ui : core <$> chordAtU r c ui = chordAt r c (core ui).
Proof.
  unfold chordAtU, chordAt. destruct (negb (status_eqb _ _)); [done|].
  destruct (negb (did _)); [done|].
  destruct (c_hitMine _); simpl.
  - destruct (renderBoard _) as [s2|]; simpl; [|done]. apply core_gameOverU.
  - destruct (renderBoard _) as [s2|]; simpl; [|done]. apply core_checkWinU.
Qed.

Lemma fmap_core_Some (f : option UI) (g : option State) ui' :
  core <$> f = g → f = Some ui' → g = Some (core ui').
Proof. by intros <- ->. Qed.

Lemma keydown_core rnd key ui ui' :
  keydown rnd key ui = Some ui' →
  core ui' = core ui ∨ ∃ o, step o (core ui) = Some (core ui').
Proof.
  unfold keydown. destruct (focus ui) as [r c].
  repeat (case_match; [intros [= <-]; by left|]).
  case_match; [intros Hk; right; exists (OpOpen rnd r c);
               by eapply fmap_core_Some; [apply core_openAtU|]|].
  case_match; [intros Hk; right; exists (OpFlag r c);
               by eapply fmap_core_Some; [apply core_flagAtU|]|].
  case_match; [intros Hk; right; exists (OpChord r c);
               by eapply fmap_core_Some; [apply core_chordAtU|]|].
  intros [= <-]. by left.
Qed.

Lemma ustep_core o ui ui' :
  ustep o ui = Some ui' →
  core ui' = core ui ∨ ∃ op, step op (core ui) = Some (core ui').
Proof.
  destruct o as [k| |rnd r c|r c|r c| |rnd key|r c|mode|touch rnd r c]; simpl.
  - intros H. right. exists (OpApplyConfig k).
    by eapply fmap_core_Some; [apply core_applyConfigU|].
  - intros H. right. exists OpNewGame.
    by eapply fmap_core_Some; [apply core_newGameU|].
  - intros H. right. exists (OpOpen rnd r c).
    by eapply fmap_core_Some; [apply core_openAtU|].
  - intros H. right. exists (OpFlag r c).
    by eapply fmap_core_Some; [apply core_flagAtU|].
  - intros H. right. exists (OpChord r c).
    by eapply fmap_core_Some; [apply core_chordAtU|].
  - intros [= <-]. left. unfold timerTick.
    destruct (timerId ui); [|done]. by destruct (negb _).
  - apply keydown_core.
  - intros [= <-]. by left.
  - intros [= <-]. by left.
  - unfold performByMode. intros H. right.
    destruct touch; [destruct (String.eqb (touchMode ui) "flag");
                     [|destruct (String.eqb (touchMode ui) "chord")]|].
    + exists (OpFlag r c). by eapply fmap_core_Some; [apply core_flagAtU|].
    + exists (OpChord r c). by eapply fmap_core_Some; [apply core_chordAtU|].
    + exists (OpOpen rnd r c). by eapply fmap_core_Some; [apply core_openAtU|].
    + exists (OpOpen rnd r c). by eapply fmap_core_Some; [apply core_openAtU|].
Qed.

Lemma ureachable_core ui : ureachable ui → reachable (core ui).
Proof.
  induction 1 as [mode c ui H|o ui ui' _ IH H].
  - apply (reachable_start c).
    by eapply (fmap_core_Some _ _ _ (core_applyConfigU c (initialU mode))).
  - destruct (ustep_core _ _ _ H) as [->|[op Hop]]; [done|].
    by eapply reachable_step.
Qed.

Lemma urun_ureachable ops :
  ∀ ui ui', ureachable ui → urun ops ui = Some ui' → ureachable ui'.
Proof.
  induction ops as [|o ops IH]; intros ui ui' Hu; simpl; [by intros [= <-]|].
  destruct (ustep o ui) as [ui1|] eqn:Hstep; simpl; [|done].
  apply IH. by eapply ureachable_step.
Qed.

(** ** Timer, interval and focus *)

Lemma kept_refl ui : kept ui ui.
Proof. repeat split; try done. by left. Qed.

Lemma kept_trans a b c : kept a b → kept b c → kept a c.
Proof.
  intros (Ht & Hf & Hm & Hr & Hc & H1) (Ht' & Hf' & Hm' & Hr' & Hc' & H2).
  repeat split; try congruence.
  destruct H2 as [[Hs Hi]|[?|?]]; [|by right; left|by right; right].
  destruct H1 as [[Hs1 Hi1]|[[Hs1 Hi1]|[Hs1 Hi1]]].
  - left. split; congruence.
  - right. left. unfold terminal in *. split; [by rewrite Hs|congruence].
  - right. right. split; congruence.
Qed.

Lemma gameOverU_kept win ui ui' : gameOverU win ui = Some ui' → kept ui ui'.
Proof.
  unfold gameOverU. simpl.
  destruct (gameOver win (core ui)) as [s|] eqn:Hg; simpl; [|done].
  intros [= <-]. apply gameOver_inv in Hg as [g ->].
  repeat split; try done. right. left. by destruct win.
Qed.

Lemma checkWinU_kept ui ui' : checkWinU ui = Some ui' → kept ui ui'.
Proof.
  unfold checkWinU. destruct (countOpenSafe _) as [o t].
  destruct (_ && _); [apply gameOverU_kept|intros [= <-]; apply kept_refl].
Qed.

Lemma ensureMinesPlacedU_kept rnd r c ui ui' :
  ensureMinesPlacedU rnd r c ui = Some ui' → kept ui ui'.
Proof.
  unfold ensureMinesPlacedU. destruct (firstClick (core ui)) eqn:Hf; simpl;
    [|intros [= <-]; apply kept_refl].
  destruct (ensureMinesPlaced rnd r c (core ui)) as [s|] eqn:He; simpl; [|done].
  intros [= <-].
  apply ensureMinesPlaced_inv in He as [[? _]|[_ (g & _ & ->)]]; [congruence|].
  repeat split; try done. by right; right.
Qed.

Lemma set_core_kept s ui :
  rows s = rows (core ui) → cols s = cols (core ui) → status s = status (core ui) →
  kept ui (set_core s ui).
Proof. intros. repeat split; try done. by left. Qed.

Lemma openAtU_kept rnd r c ui ui' : openAtU rnd r c ui = Some ui' → kept ui ui'.
Proof.
  unfold openAtU. destruct (terminal (core ui)); [intros [= <-]; apply kept_refl|].
  destruct (ensureMinesPlacedU rnd r c ui) as [ui1|] eqn:He; simpl; [|done].
  apply ensureMinesPlacedU_kept in He.
  destruct (hitMine _); simpl.
  - destruct (cell_at _ _); simpl; [|done].
    destruct (renderBoard _) as [s3|] eqn:Hr; simpl; [|done].
    apply renderBoard_inv in Hr as ->. intros Hg%gameOverU_kept.
    eapply kept_trans; [exact He|]. eapply kept_trans; [|exact Hg].
    by apply set_core_kept.
  - destruct (renderBoard _) as [s3|] eqn:Hr; simpl; [|done].
    apply renderBoard_inv in Hr as ->. intros Hg%checkWinU_kept.
    eapply kept_trans; [exact He|]. eapply kept_trans; [|exact Hg].
    by apply set_core_kept.
Qed.

Lemma flagAt_frame r c s s' :
  flagAt r c s = Some s' →
  rows s' = rows s ∧ cols s' = cols s ∧ status s' = status s.
Proof.
  unfold flagAt. destruct (terminal s); [by intros [= <-]|].
  destruct (cell_at _ _) as [cell|]; simpl; [|done].
  destruct (open cell); [by intros [= <-]|].
  destruct (toggleFlag _ _) as [g ok].
  destruct ok; simpl; [|by intros [= <-]].
  by intros ->%renderBoard_inv.
Qed.

Lemma flagAtU_kept r c ui ui' : flagAtU r c ui = Some ui' → kept ui ui'.
Proof.
  unfold flagAtU. destruct (flagAt r c (core ui)) as [s|] eqn:Hf; simpl; [|done].
  intros [= <-]. apply flagAt_frame in Hf as (? & ? & ?). by apply set_core_kept.
Qed.

Lemma chordAtU_kept r c ui ui' : chordAtU r c ui = Some ui' → kept ui ui'.
Proof.
  unfold chordAtU. destruct (negb (status_eqb _ _)); [intros [= <-]; apply kept_refl|].
  destruct (negb (did _)); [intros [= <-]; by apply set_core_kept|].
  destruct (c_hitMine _); simpl.
  - destruct (renderBoard _) as [s2|] eqn:Hr; simpl; [|done].
    apply renderBoard_inv in Hr as ->. intros Hg%gameOverU_kept.
    eapply kept_trans; [|exact Hg]. by apply set_core_kept.
  - destruct (renderBoard _) as [s2|] eqn:Hr; simpl; [|done].
    apply renderBoard_inv in Hr as ->. intros Hg%checkWinU_kept.
    eapply kept_trans; [|exact Hg]. by apply set_core_kept.
Qed.

Lemma UInv_kept ui ui' :
  UInv ui → dims_ok (core ui) = true → dims_ok (core ui') = true →
  kept ui ui' → UInv ui'.
Proof.
  intros [Ht Hc Hr Hf] Hd Hd' (Et & Ef & _ & Er & Ec & Hs). split.
  - by rewrite Et.
  - destruct Hs as [[-> ->]|[[Hterm ->]|[-> ->]]]; [done| |done].
    split; [done|]. intros Hrun. unfold terminal in Hterm. by rewrite Hrun in Hterm.
  - rewrite Et. destruct Hs as [[-> _]|[[Hterm _]|[-> _]]]; [done| |done].
    intros Hrd. unfold terminal in Hterm. by rewrite Hrd in Hterm.
  - rewrite Ef. apply in_grid_dims; [done|]. rewrite Er, Ec. by apply in_grid_dims.
Qed.

Lemma newGameU_UInv ui ui' :
  newGameU ui = Some ui' → Inv (core ui') → UInv ui'.
Proof.
  unfold newGameU. destruct (newGame (core ui)) as [s|] eqn:Hn; simpl; [|done].
  intros [= <-] [Hd Hb _ _]. simpl in Hd, Hb.
  assert (Hst : status s = READY).
  { unfold newGame in Hn. destruct (createEmptyGrid _ _) as [g|]; simpl in Hn; [|done].
    by apply renderBoard_inv in Hn as ->. }
  split; simpl.
  - lia.
  - by rewrite Hst.
  - done.
  - apply (in_grid_dims s); [done|]. simpl. unfold cfg_bounds in Hb. lia.
Qed.

Lemma focusCell_UInv r c ui : Inv (core ui) → UInv ui → UInv (focusCell r c ui).
Proof.
  intros [Hd Hb _ _] [Ht Hc Hr _]. split; try done. simpl.
  apply in_grid_dims; [done|]. simpl. unfold cfg_bounds in Hb.
  pose proof (clamp_range r 0 (rows (core ui) - 1)).
  pose proof (clamp_range c 0 (cols (core ui) - 1)). lia.
Qed.

Lemma timerTick_UInv ui : timerId ui = true → UInv ui → UInv (timerTick ui).
Proof.
  intros Hid [Ht Hc Hr Hf]. unfold timerTick.
  pose proof (proj1 Hc Hid) as Hrun. rewrite Hrun. simpl.
  split; simpl; try done; [|by rewrite Hrun].
  apply clamp_range. lia.
Qed.

Lemma keydown_kept rnd key ui ui' :
  keydown rnd key ui = Some ui' →
  kept ui ui' ∨ ∃ r c, ui' = focusCell r c ui.
Proof.
  unfold keydown. destruct (focus ui) as [r c].
  repeat (case_match; [intros [= <-]; right; by eexists _, _|]).
  case_match; [intros ?%openAtU_kept; by left|].
  case_match; [intros ?%flagAtU_kept; by left|].
  case_match; [intros ?%chordAtU_kept; by left|].
  intros [= <-]. left. apply kept_refl.
Qed.

Lemma UInv_ustep o ui ui' :
  reachable (core ui) → reachable (core ui') →
  UInv ui → ustep o ui = Some ui' → UInv ui'.
Proof.
  intros HI%reachable_Inv HI'%reachable_Inv HU.
  pose proof (inv_dims _ HI) as Hd. pose proof (inv_dims _ HI') as Hd'.
  destruct o as [k| |rnd r c|r c|r c| |rnd key|r c|mode|touch rnd r c]; simpl.
  - unfold applyConfigU.
    destruct (integer_sizes (safe_config k)) as [[[r co] m]|]; simpl; [|done].
    intros H. by eapply newGameU_UInv.
  - intros H. by eapply newGameU_UInv.
  - intros H%openAtU_kept. by eapply UInv_kept.
  - intros H%flagAtU_kept. by eapply UInv_kept.
  - intros H%chordAtU_kept. by eapply UInv_kept.
  - intros [= <-]. destruct (timerId ui) eqn:Hid; [by apply timerTick_UInv|done].
  - intros [H|(r & c & ->)]%keydown_kept; [by eapply UInv_kept|by apply focusCell_UInv].
  - intros [= <-]. by apply focusCell_UInv.
  - intros [= <-]. by destruct HU.
  - unfold performByMode. intros H. eapply UInv_kept; try done.
    destruct touch; [destruct (String.eqb (touchMode ui) "flag");
                     [|destruct (String.eqb (touchMode ui) "chord")]|].
    + by eapply flagAtU_kept.
    + by eapply chordAtU_kept.
    + by eapply openAtU_kept.
    + by eapply openAtU_kept.
Qed.

Lemma ureachable_UInv ui : ureachable ui → UInv ui.
Proof.
  intros Hu. pose proof (ureachable_core ui Hu) as Hc.
  induction Hu as [mode c ui H|o ui ui' Hu IH H].
  - unfold applyConfigU in H.
    destruct (integer_sizes (safe_config c)) as [[[r co] m]|]; simpl in H; [|done].
    eapply newGameU_UInv; [done|by apply reachable_Inv].
  - eapply UInv_ustep; [by apply ureachable_core|done|by apply IH, ureachable_core|done].
Qed.

Lemma timerTick_iter k ui :
  status (core ui) = RUNNING → 0 ≤ timer ui ≤ 999 →
  status (core (Nat.iter k timerTick ui)) = RUNNING ∧
  timer (Nat.iter k timerTick ui) = Z.min 999 (timer ui + Z.of_nat k) ∧
  timerId (Nat.iter k timerTick ui) = timerId ui.
Proof.
  intros Hrun Ht. induction k as [|k (IH1 & IH2 & IH3)]; simpl; [repeat split; try done; lia|].
  unfold timerTick at 1 3 5. rewrite IH1. simpl.
  repeat split; try done. rewrite IH2. unfold clamp. lia.
Qed.

(** X8.  In every state the page reaches, the timer lies in 0..999, an
    interval is installed exactly while the status is [RUNNING], and a game
    that is [READY] shows time 0; the three-digit display of the timer reads
    back as the timer itself; and while the game runs, [k] ticks from a
    timer value [t] leave [min(999, t + k)]. *)
Theorem timer_follows_the_game ui :
  ureachable ui →
  0 ≤ timer ui ≤ 999 ∧
  (timerId ui = true ↔ status (core ui) = RUNNING) ∧
  (status (core ui) = READY → timer ui = 0) ∧
  Number_dec (pad3 (timer ui)) = Fin (timer ui) ∧
  (status (core ui) = RUNNING →
   ∀ k, timer (Nat.iter k timerTick ui) = Z.min 999 (timer ui + Z.of_nat k)).
Proof.
  intros [Ht Hc Hr _]%ureachable_UInv.
  split; [done|]. split; [done|]. split; [done|]. split.
  - rewrite pad3_Number. by rewrite clamp_fixed by lia.
  - intros Hrun k. by apply timerTick_iter.
Qed.

Lemma demo_ui_reachable : ureachable demo_ui.
Proof.
  apply (urun_ureachable demo_ui_ops demo_ui_fresh);
    [by apply (ureachable_start "flag" demo_cfg)|reflexivity].
Qed.

(** The theorem at the sample game, two ticks into the game. *)
Lemma timer_follows_the_game_witness :
  0 ≤ timer demo_ui ≤ 999 ∧
  (timerId demo_ui = true ↔ status (core demo_ui) = RUNNING) ∧
  (status (core demo_ui) = READY → timer demo_ui = 0) ∧
  Number_dec (pad3 (timer demo_ui)) = Fin (timer demo_ui) ∧
  (status (core demo_ui) = RUNNING →
   ∀ k, timer (Nat.iter k timerTick demo_ui) = Z.min 999 (timer demo_ui + Z.of_nat k)).
Proof. apply (timer_follows_the_game demo_ui demo_ui_reachable). Defined.

(** ** The keyboard *)

(** On a board of the right size within the bounds, a request completes. *)
Lemma request_completes o s :
  Inv s →
  (∀ c, o = OpApplyConfig c → is_Some (integer_sizes (safe_config c))) →
  (∀ r c, o = OpFlag r c → in_grid (grid s) (r, c) = true) →
  is_Some (step o s).
Proof.
  intros HI Hcfg Hflag.
  destruct o as [k| |rnd r c|r c|r c]; simpl.
  - destruct (Hcfg k eq_refl) as [[[r co] m] Hs].
    by destruct (applyConfig_spec k s r co m Hs) as [_ ->].
  - destruct HI as [_ Hb _ _].
    rewrite newGame_spec by (unfold cfg_bounds in Hb; lia). done.
  - unfold openAt. destruct (terminal s) eqn:Ht; [done|].
    assert (Hens : is_Some (ensureMinesPlaced rnd r c s)).
    { unfold ensureMinesPlaced. destruct (firstClick s); simpl; [|done].
      destruct HI as [Hd Hb _ _].
      destruct (placeMines_feasible rnd s (r, c) Hd Hb) as [g ->]. done. }
    destruct Hens as [s1 Hens]. rewrite Hens. simpl.
    destruct (Inv_ensureMinesPlaced _ _ _ _ _ HI Ht Hens) as (Hpre & Ht1 & _).
    pose proof (openCell_opens (grid s1) (r, c)) as Hop.
    set (s2 := log_call (CallOpen r c) _).
    assert (Hpre2 : PreInv s2).
    { apply PreInv_log. eapply PreInv_opens; [done|exact Hop|]. intros ? [? _]. by left. }
    destruct (hitMine _) eqn:Hhit.
    + destruct (openCell_hit _ _ Hhit) as (c0 & Hc0 & Hm0 & _ & _ & Hg & _).
      simpl. rewrite Hg, cell_at_upd, decide_True, Hc0 by done. simpl.
      set (s3 := set_grid _ s2).
      assert (Hd3 : dims_ok s3 = true).
      { destruct Hpre2 as [Hd2 _ _ _]. rewrite <- Hd2.
        apply dims_ok_shape; try done. simpl. rewrite !shape_upd.
        by destruct Hop as [-> _]. }
      rewrite (renderBoard_ok s3 Hd3). simpl.
      destruct (gameOver_spec false s3 Hd3) as (g' & -> & _). done.
    + destruct Hpre2 as [Hd2 _ _ _]. rewrite (renderBoard_ok s2 Hd2). simpl.
      destruct (checkWin_spec s2 Hd2) as (s' & -> & _); [|done].
      simpl. unfold terminal in Ht1. by destruct (status s1).
  - unfold flagAt. destruct (terminal s); [done|].
    specialize (Hflag r c eq_refl). pose proof Hflag as Hin.
    unfold in_grid in Hin.
    destruct (cell_at (grid s) (r, c)) as [cell|]; [|done]. simpl.
    destruct (open cell); [done|].
    pose proof (toggleFlag_shape (grid s) (r, c)) as Hs.
    destruct (toggleFlag (grid s) (r, c)) as [g ok]. simpl in Hs.
    destruct ok; simpl; [|done].
    rewrite renderBoard_ok; [done|].
    destruct HI as [Hd _ _ _]. rewrite <- Hd. by apply dims_ok_shape.
  - unfold chordAt.
    destruct (status_eqb (status s) RUNNING) eqn:Hst; simpl; [|done].
    destruct (did _); simpl; [|done].
    set (s1 := log_call (CallChord r c) _).
    assert (Hd1 : dims_ok s1 = true).
    { destruct HI as [Hd _ _ _]. rewrite <- Hd. apply dims_ok_shape; try done.
      simpl. by destruct (chordOpen_opens (grid s) (r, c)). }
    rewrite (renderBoard_ok s1 Hd1). simpl.
    destruct (c_hitMine _).
    + destruct (gameOver_spec false s1 Hd1) as (g' & -> & _). done.
    + destruct (checkWin_spec s1 Hd1) as (s' & -> & _); [|done].
      simpl. by destruct (status s).
Qed.

Lemma fmap_core_is_Some (f : option UI) (g : option State) :
  core <$> f = g → is_Some g → is_Some f.
Proof. intros <-. destruct f; simpl; [by eexists|by intros [? ?]]. Qed.

(** X9.  In every state the page reaches in a session with integer sizes,
    the focus is a cell of the board, and every key completes: an arrow
    moves the focus by one cell in its direction and stops at the border of
    the board, leaving the game as it is; any other key leaves the focus
    where it is. *)
Theorem keyboard_stays_on_the_board ui rnd key :
  ureachable ui →
  in_grid (grid (core ui)) (focus ui) = true ∧
  ∃ ui', keydown rnd key ui = Some ui' ∧
         in_grid (grid (core ui')) (focus ui') = true ∧
         (key = "ArrowUp" →
          ui' = set_focus (Z.max 0 ((focus ui).1 - 1), (focus ui).2) ui) ∧
         (key = "ArrowDown" →
          ui' = set_focus (Z.min (rows (core ui) - 1) ((focus ui).1 + 1),
                           (focus ui).2) ui) ∧
         (key = "ArrowLeft" →
          ui' = set_focus ((focus ui).1, Z.max 0 ((focus ui).2 - 1)) ui) ∧
         (key = "ArrowRight" →
          ui' = set_focus ((focus ui).1,
                           Z.min (cols (core ui) - 1) ((focus ui).2 + 1)) ui) ∧
         (key ∉ arrows → focus ui' = focus ui).
Proof.
  intros Hu. pose proof (ureachable_UInv ui Hu) as HU.
  pose proof (reachable_Inv _ (ureachable_core ui Hu)) as HI.
  pose proof (uinv_focus _ HU) as Hf. split; [done|].
  assert (Hsome : is_Some (keydown rnd key ui)).
  { unfold keydown. destruct (focus ui) as [r c] eqn:Hfc.
    repeat (case_match; [done|]).
    case_match; [eapply fmap_core_is_Some; [apply core_openAtU|];
                 apply (request_completes (OpOpen rnd r c));
                 [done|by intros ? [=]|by intros ? ? [=]]|].
    case_match; [eapply fmap_core_is_Some; [apply core_flagAtU|];
                 apply (request_completes (OpFlag r c));
                 [done|by intros ? [=]|by intros ? ? [= <- <-]]|].
    case_match; [eapply fmap_core_is_Some; [apply core_chordAtU|];
                 apply (request_completes (OpChord r c));
                 [done|by intros ? [=]|by intros ? ? [=]]|].
    done. }
  destruct Hsome as [ui' Hk]. exists ui'. split; [done|].
  split.
  { apply ureachable_UInv. by apply (ureachable_step (UKey rnd key) ui). }
  apply (in_grid_dims _ _ (inv_dims _ HI)) in Hf. destruct HI as [Hd Hb _ _]. unfold cfg_bounds in Hb.
  unfold keydown in Hk. destruct (focus ui) as [r c] eqn:Hfc. simpl in Hf.
  repeat split.
  - intros ->. simpl in Hk. injection Hk as <-.
    unfold focusCell, clamp. simpl. f_equal. f_equal; lia.
  - intros ->. simpl in Hk. injection Hk as <-.
    unfold focusCell, clamp. simpl. f_equal. f_equal; lia.
  - intros ->. simpl in Hk. injection Hk as <-.
    unfold focusCell, clamp. simpl. f_equal. f_equal; lia.
  - intros ->. simpl in Hk. injection Hk as <-.
    unfold focusCell, clamp. simpl. f_equal. f_equal; lia.
  - intros Hna. unfold arrows in Hna.
    rewrite !not_elem_of_cons in Hna. destruct Hna as (N1 & N2 & N3 & N4 & _).
    apply String.eqb_neq in N1, N2, N3, N4. rewrite N1, N2, N3, N4 in Hk.
    assert (Hkept : kept ui ui' ∨ ui' = ui).
    { repeat case_match; try (injection Hk as <-; by right); left.
      - by eapply openAtU_kept.
      - by eapply flagAtU_kept.
      - by eapply chordAtU_kept. }
    destruct Hkept as [(_ & -> & _)| ->]; by rewrite Hfc.
Qed.

(** The theorem at the sample game, whose focus is at (1,0), and the key
    ArrowUp, which moves it to (0,0). *)
Lemma keyboard_stays_on_the_board_witness :
  in_grid (grid (core demo_ui)) (focus demo_ui) = true ∧
  ∃ ui', keydown demo_rnd "ArrowUp" demo_ui = Some ui' ∧
         in_grid (grid (core ui')) (focus ui') = true ∧
         ("ArrowUp" = "ArrowUp" →
          ui' = set_focus (Z.max 0 ((focus demo_ui).1 - 1), (focus demo_ui).2) demo_ui) ∧
         ("ArrowUp" = "ArrowDown" →
          ui' = set_focus (Z.min (rows (core demo_ui) - 1) ((focus demo_ui).1 + 1),
                           (focus demo_ui).2) demo_ui) ∧
         ("ArrowUp" = "ArrowLeft" →
          ui' = set_focus ((focus demo_ui).1, Z.max 0 ((focus demo_ui).2 - 1)) demo_ui) ∧
         ("ArrowUp" = "ArrowRight" →
          ui' = set_focus ((focus demo_ui).1,
                           Z.min (cols (core demo_ui) - 1) ((focus demo_ui).2 + 1))
                          demo_ui) ∧
         ("ArrowUp" ∉ arrows → focus ui' = focus demo_ui).
Proof. apply (keyboard_stays_on_the_board demo_ui demo_rnd "ArrowUp" demo_ui_reachable). Defined.

(** ** The touch mode *)

Lemma normal_mode_cases mode :
  (mode ∈ modes ∧ normal_mode mode = mode) ∨
  ((mode ∉ modes) ∧ normal_mode mode = "reveal").
Proof.
  unfold normal_mode. case_bool_decide; [by left|by right].
Qed.

(** X10.  For every stored touch mode, valid or not, exactly one of the
    three tabs is shown as selected, and on a touch device a tap performs
    the action of that tab: flag for the flag tab, chord for the chord tab,
    reveal for the reveal tab; elsewhere a click always reveals.
    [setTouchMode] stores one of the three modes and shows the same tab as
    selected as its argument would. *)
Theorem selected_tab_is_the_tap_action ui mode rnd r c :
  (∃ tab, applyTouchModeUI (touchMode ui) =
          (bool_decide (tab = 0%nat), bool_decide (tab = 1%nat), bool_decide (tab = 2%nat)) ∧
          (tab < 3)%nat ∧
          performByMode true rnd r c ui =
          match tab with
          | 1%nat => flagAtU r c ui
          | 2%nat => chordAtU r c ui
          | _ => openAtU rnd r c ui
          end) ∧
  performByMode false rnd r c ui = openAtU rnd r c ui ∧
  touchMode (setTouchMode mode ui) ∈ modes ∧
  applyTouchModeUI (touchMode (setTouchMode mode ui)) = applyTouchModeUI mode.
Proof.
  split; [|split; [done|split]].
  - unfold applyTouchModeUI, performByMode.
    destruct (normal_mode_cases (touchMode ui)) as [[Hin ->]|[Hnin ->]].
    + unfold modes in Hin. rewrite !elem_of_cons in Hin.
      destruct Hin as [Hm|[Hm|[Hm|Hin]]]; [| | |by apply elem_of_nil in Hin];
        rewrite Hm;
        [exists 0%nat|exists 1%nat|exists 2%nat]; (split; [reflexivity|split; [lia|reflexivity]]).
    + unfold modes in Hnin. rewrite !not_elem_of_cons in Hnin.
      destruct Hnin as (_ & N2 & N3 & _).
      apply String.eqb_neq in N2, N3. rewrite N2, N3. exists 0%nat.
      split; [reflexivity|split; [lia|reflexivity]].
  - simpl. destruct (normal_mode_cases mode) as [[Hin ->]|[_ ->]]; [done|].
    unfold modes. apply elem_of_cons. by left.
  - simpl. unfold applyTouchModeUI.
    destruct (normal_mode_cases mode) as [[Hin ->]|[_ ->]]; [|done].
    destruct (normal_mode_cases mode) as [[_ ->]|[Hn _]]; done.
Qed.

(** * The board on the page *)

Lemma mapM_elem {A B} (f : A → option B) l k :
  mapM f l = Some k → ∀ y, y ∈ k ↔ ∃ x, x ∈ l ∧ f x = Some y.
Proof.
  rewrite mapM_Some. induction 1 as [|x y l k Hxy _ IH]; intros z.
  - split; [by intros ?%elem_of_nil|by intros (? & ?%elem_of_nil & _)].
  - rewrite elem_of_cons, IH. split.
    + intros [->|(x' & Hx' & Hf)]; [exists x; split; [by left|done]|].
      exists x'. split; [by right|done].
    + intros (x' & [->|Hx']%elem_of_cons & Hf); [left; congruence|].
      right. by exists x'.
Qed.

Lemma mapM_fmap {A B C} (f : A → option B) (h : B → C) (g : A → C) l k :
  mapM f l = Some k → (∀ x y, x ∈ l → f x = Some y → h y = g x) →
  h <$> k = g <$> l.
Proof.
  rewrite mapM_Some. induction 1 as [|x y l k Hxy _ IH]; intros Hh; [done|].
  simpl. f_equal; [apply (Hh x y); [by left|done]|].
  apply IH. intros x' y' Hx'. apply Hh. by right.
Qed.

Lemma loop_cells_length rs cs :
  length (loop_cells rs cs) = (length rs * length cs)%nat.
Proof.
  unfold loop_cells. induction rs as [|r rs IH]; simpl; [done|].
  by rewrite length_app, length_map, IH.
Qed.

Lemma loop_cells_elem rs cs p : p ∈ loop_cells rs cs ↔ p.1 ∈ rs ∧ p.2 ∈ cs.
Proof.
  unfold loop_cells. induction rs as [|r rs IH]; simpl.
  - split; [by intros ?%elem_of_nil|by intros [?%elem_of_nil _]].
  - rewrite elem_of_app, IH, elem_of_cons, list_elem_of_fmap. split.
    + intros [(c & -> & Hc)|[? ?]]; simpl; [split; [by left|done]|split; [by right|done]].
    + intros [[Hr|Hr] Hc]; [left; exists p.2; split; [destruct p; simpl in *; by subst|done]
                           |right; done].
Qed.

Lemma loop_cells_NoDup rs cs : NoDup rs → NoDup cs → NoDup (loop_cells rs cs).
Proof.
  intros Hrs Hcs. induction Hrs as [|r rs Hr Hrs IH]; [constructor|].
  change (loop_cells (r :: rs) cs) with (map (λ c, (r, c)) cs ++ loop_cells rs cs).
  apply NoDup_app. split_and!.
  - by apply (NoDup_fmap_2 (λ c, (r, c))).
  - intros p (c & -> & _)%list_elem_of_fmap [Hin _]%loop_cells_elem. done.
  - done.
Qed.

(** The buttons of a board of the right size: one for each cell, row after
    row. *)
Lemma renderBoard_buttons_spec boomAt s :
  dims_ok s = true →
  ∃ bs, renderBoard_buttons boomAt s = Some bs ∧
        (λ b, (b_r b, b_c b)) <$> bs
        = loop_cells (seqZ 0 (rows s)) (seqZ 0 (cols s)) ∧
        ∀ b, b ∈ bs ↔
             ∃ r c cell, cell_at (grid s) (r, c) = Some cell ∧
                         b = cellButton (status s) boomAt r c cell.
Proof.
  intros Hd. unfold renderBoard_buttons.
  match goal with |- context [mapM ?f (seqZ 0 (rows s))] => set (rowf := f) end.
  assert (Hin : ∀ r c, r ∈ seqZ 0 (rows s) → c ∈ seqZ 0 (cols s) →
                       is_Some (cell_at (grid s) (r, c))).
  { intros r c Hr%elem_of_seqZ Hc%elem_of_seqZ.
    apply in_grid_is_Some, in_grid_dims; [done|]. simpl. lia. }
  assert (Hrow : ∀ r, r ∈ seqZ 0 (rows s) → is_Some (rowf r)).
  { intros r Hr. apply mapM_is_Some, Forall_forall. intros c Hc. simpl.
    by destruct (Hin r c Hr Hc) as [cell ->]. }
  assert (Hrows : is_Some (mapM rowf (seqZ 0 (rows s)))).
  { apply mapM_is_Some, Forall_forall. intros r Hr. by apply Hrow. }
  destruct Hrows as [rs Hrs]. rewrite Hrs. simpl. eexists. split; [done|].
  split.
  { unfold loop_cells.
    change (map (λ b, (b_r b, b_c b)) (concat rs) = concat
              (map (λ r, map (λ c, (r, c)) (seqZ 0 (cols s))) (seqZ 0 (rows s)))).
    rewrite concat_map. f_equal.
    apply (mapM_fmap rowf _ _ _ _ Hrs). intros r row _ Hrw.
    apply (mapM_fmap _ _ _ _ _ Hrw). intros c b _ Hb.
    destruct (cell_at (grid s) (r, c)) as [cell|]; [|done]. by injection Hb as <-. }
  intros b. rewrite list_elem_of_In, in_concat. split.
  - intros (row & Hrw%list_elem_of_In & Hb%list_elem_of_In).
    apply (mapM_elem _ _ _ Hrs) in Hrw as (r & Hr & Hrw).
    apply (mapM_elem _ _ _ Hrw) in Hb as (c & Hc & Hb).
    destruct (cell_at (grid s) (r, c)) as [cell|] eqn:E; [|done].
    injection Hb as <-. by exists r, c, cell.
  - intros (r & c & cell & Hcell & ->).
    assert (Hg : in_grid (grid s) (r, c) = true) by (by apply in_grid_is_Some).
    apply in_grid_dims in Hg; [|done]. simpl in Hg.
    assert (Hr : r ∈ seqZ 0 (rows s)) by (apply elem_of_seqZ; lia).
    assert (Hc : c ∈ seqZ 0 (cols s)) by (apply elem_of_seqZ; lia).
    destruct (Hrow r Hr) as [row Hrw]. exists row. split; apply list_elem_of_In.
    + apply (mapM_elem _ _ _ Hrs). by exists r.
    + apply (mapM_elem _ _ _ Hrw). exists c. split; [done|].
      by rewrite Hcell.
Qed.

(** One button for each cell of the board. *)
Lemma buttons_one_per_cell s (bs : list Button) :
  dims_ok s = true →
  (λ b, (b_r b, b_c b)) <$> bs = loop_cells (seqZ 0 (rows s)) (seqZ 0 (cols s)) →
  length bs = Z.to_nat (rows s * cols s) ∧
  NoDup ((λ b, (b_r b, b_c b)) <$> bs) ∧
  ∀ p, in_grid (grid s) p = true ↔ p ∈ (λ b, (b_r b, b_c b)) <$> bs.
Proof.
  intros Hd Hbs. pose proof Hd as Hd'. unfold dims_ok in Hd'.
  apply andb_true_iff in Hd' as [[Hr Hc]%andb_true_iff _]. apply Z.leb_le in Hr, Hc.
  split; [|split].
  - rewrite <- (length_fmap (λ b, (b_r b, b_c b))), Hbs, loop_cells_length, !length_seqZ.
    lia.
  - rewrite Hbs. apply loop_cells_NoDup; apply NoDup_seqZ.
  - intros p. rewrite Hbs, loop_cells_elem, !elem_of_seqZ, (in_grid_dims s p Hd). lia.
Qed.

(** ** A lost game shows every mine *)

Lemma lost_step o s s' :
  Inv s → step o s = Some s' → status s' = LOST →
  s' = s ∨ ∃ s0, dims_ok s0 = true ∧ gameOver false s0 = Some s'.
Proof.
  intros HI. destruct o as [k| |rnd r c|r c|r c]; simpl.
  - by intros (r & co & m & Hb & ->)%applyConfig_fresh.
  - destruct HI as [_ Hb _ _].
    rewrite newGame_spec by (unfold cfg_bounds in Hb; lia). by intros [= <-].
  - unfold openAt. destruct (terminal s) eqn:Ht; [intros [= <-]; by left|].
    destruct (ensureMinesPlaced rnd r c s) as [s1|] eqn:Hens; simpl; [|done].
    destruct (Inv_ensureMinesPlaced _ _ _ _ _ HI Ht Hens) as (Hpre & Ht1 & _).
    pose proof (openCell_opens (grid s1) (r, c)) as Hop.
    set (s2 := log_call (CallOpen r c) _).
    assert (Hpre2 : PreInv s2).
    { apply PreInv_log. eapply PreInv_opens; [done|exact Hop|]. intros ? [? _]. by left. }
    destruct (hitMine _) eqn:Hhit.
    + destruct (cell_at _ _); simpl; [|done].
      destruct (renderBoard _) as [s3|] eqn:Hr; simpl; [|done].
      apply renderBoard_inv in Hr as ->. intros Hg _. right. eexists. split; [|exact Hg].
      destruct Hpre2 as [Hd2 _ _ _]. rewrite <- Hd2.
      apply dims_ok_shape; try done. simpl. rewrite !shape_upd. by destruct Hop as [-> _].
    + destruct (renderBoard _) as [s3|] eqn:Hr; simpl; [|done].
      apply renderBoard_inv in Hr as ->.
      intros [->|[g ->]]%checkWin_inv; simpl; [|done].
      intros Hl. unfold terminal in Ht1. by rewrite Hl in Ht1.
  - intros Hf Hl. left. unfold flagAt in Hf.
    destruct (terminal s) eqn:Ht; [by injection Hf|]. exfalso.
    assert (status s' = status s) as Hst.
    { destruct (cell_at _ _) as [cell|]; simpl in Hf; [|done].
      destruct (open cell); [by injection Hf as <-|].
      destruct (toggleFlag _ _) as [g ok].
      destruct ok; simpl in Hf; [by apply renderBoard_inv in Hf as ->|by injection Hf as <-]. }
    unfold terminal in Ht. by rewrite <- Hst, Hl in Ht.
  - unfold chordAt.
    destruct (status_eqb (status s) RUNNING) eqn:Hst; simpl; [|intros [= <-]; by left].
    assert (Hrun : status s = RUNNING) by (by destruct (status s)).
    destruct (did _); simpl; [|intros [= <-]; simpl; congruence].
    set (s1 := log_call (CallChord r c) _).
    assert (Hd1 : dims_ok s1 = true).
    { destruct HI as [Hd _ _ _]. rewrite <- Hd. apply dims_ok_shape; try done.
      simpl. by destruct (chordOpen_opens (grid s) (r, c)). }
    rewrite (renderBoard_ok s1 Hd1). simpl.
    destruct (c_hitMine _).
    + intros Hg _. right. by exists s1.
    + intros [->|[g ->]]%checkWin_inv; simpl; [congruence|done].
Qed.

Lemma reachable_Inv3 s : reachable s → Inv3 s.
Proof.
  induction 1 as [k s H|o s s' Hs IH H].
  - by apply applyConfig_fresh in H as (r & co & m & Hb & ->).
  - intros Hl.
    destruct (lost_step o s s' (reachable_Inv s Hs) H Hl) as [->|(s0 & Hd & Hg)];
      [by apply IH|].
    destruct (gameOver_spec false s0 Hd) as (g' & Hrun & _ & Hcell).
    rewrite Hg in Hrun. injection Hrun as ->. simpl. intros p c. rewrite Hcell.
    destruct (cell_at (grid s0) p) as [c0|]; [|done]. simpl. intros [= <-].
    unfold reveal_kind. destruct (mine c0) eqn:Hm; simpl; [done|congruence].
Qed.

(** X11.  In a session with integer sizes, while the game is not lost what
    [renderBoard] draws when it is called without [boomAt], as at the end
    of every request and on a resize, shows no mine: it completes with
    exactly one button for each cell of the board, row after row; no button
    has the bomb or the explosion, the [boom] class, or a label that names
    a mine; and the button of a closed cell is decided by its flag
    alone. *)
Theorem no_mine_shown_before_loss s :
  reachable s → status s ≠ LOST →
  ∃ bs, renderBoard_buttons None s = Some bs ∧
        (λ b, (b_r b, b_c b)) <$> bs
        = loop_cells (seqZ 0 (rows s)) (seqZ 0 (cols s)) ∧
        length bs = Z.to_nat (rows s * cols s) ∧
        NoDup ((λ b, (b_r b, b_c b)) <$> bs) ∧
        (∀ p, in_grid (grid s) p = true ↔ p ∈ (λ b, (b_r b, b_c b)) <$> bs) ∧
        ∀ b, b ∈ bs →
             shows_mine b = false ∧ b_boom b = false ∧
             (b_open b = false →
              b = mkButton (b_r b) (b_c b) false false
                    (if flag_at (grid s) (b_r b, b_c b) then ContentFlag else ContentNone)
                    (b_r b + 1, b_c b + 1,
                     if flag_at (grid s) (b_r b, b_c b) then LabelFlagged
                     else LabelClosed)).
Proof.
  intros Hs Hnl. pose proof (reachable_Inv s Hs) as [Hd _ _ _].
  pose proof (reachable_Inv2 s Hs) as [_ Hmine _].
  destruct (renderBoard_buttons_spec None s Hd) as (bs & Hbs & Hcells & Hspec).
  destruct (buttons_one_per_cell s bs Hd Hcells) as (Hlen & Hnd & Hall).
  exists bs. do 5 (split; [done|]).
  intros b (r & c & cell & Hcell & ->)%Hspec.
  assert (Hnm : open cell = true → mine cell = true → False).
  { intros Ho Hm. apply Hnl, (Hmine (r, c)); unfold open_at, mine_at; by rewrite Hcell. }
  assert (Hst : status_eqb (status s) LOST = false) by (by destruct (status s)).
  unfold shows_mine, cellButton, getCellAriaLabel, flag_at. simpl.
  rewrite Hcell, Hst. simpl.
  destruct (open cell) eqn:Ho, (mine cell) eqn:Hm; try (by destruct Hnm);
    (split; [|split]); try done; repeat case_match; done.
Qed.

(** X12.  In a session with integer sizes, in a lost game [renderBoard],
    called without [boomAt] as at the end of every request, completes with
    exactly one button for each cell of the board, row after row; a button
    has the bomb exactly when its cell is a mine, and its label is the one
    for a mine exactly then; no button has the explosion, the [boom] class
    or the label of an exploded mine. *)
Theorem lost_board_shows_every_mine s :
  reachable s → status s = LOST →
  ∃ bs, renderBoard_buttons None s = Some bs ∧
        (λ b, (b_r b, b_c b)) <$> bs
        = loop_cells (seqZ 0 (rows s)) (seqZ 0 (cols s)) ∧
        length bs = Z.to_nat (rows s * cols s) ∧
        NoDup ((λ b, (b_r b, b_c b)) <$> bs) ∧
        (∀ p, in_grid (grid s) p = true ↔ p ∈ (λ b, (b_r b, b_c b)) <$> bs) ∧
        ∀ b, b ∈ bs →
             (mine_at (grid s) (b_r b, b_c b) = true ↔ b_content b = ContentBomb) ∧
             (mine_at (grid s) (b_r b, b_c b) = true ↔ (b_label b).2 = LabelMine) ∧
             b_boom b = false ∧ b_content b ≠ ContentBoom ∧
             (b_label b).2 ≠ LabelMineExploded.
Proof.
  intros Hs Hl. pose proof (reachable_Inv s Hs) as [Hd _ _ _].
  pose proof (reachable_Inv3 s Hs Hl) as Hopen.
  destruct (renderBoard_buttons_spec None s Hd) as (bs & Hbs & Hcells & Hspec).
  destruct (buttons_one_per_cell s bs Hd Hcells) as (Hlen & Hnd & Hall).
  exists bs. do 5 (split; [done|]).
  intros b (r & c & cell & Hcell & ->)%Hspec.
  specialize (Hopen (r, c) cell Hcell).
  unfold cellButton, getCellAriaLabel, mine_at. simpl. rewrite Hcell, Hl. simpl.
  destruct (mine cell) eqn:Hm; simpl.
  - rewrite Hopen by done. by repeat split.
  - repeat split; try done; repeat case_match; done.
Qed.

(** The theorem at the running sample game. *)
Lemma no_mine_shown_before_loss_witness :
  ∃ bs, renderBoard_buttons None demo_running = Some bs ∧
        (λ b, (b_r b, b_c b)) <$> bs
        = loop_cells (seqZ 0 (rows demo_running)) (seqZ 0 (cols demo_running)) ∧
        length bs = Z.to_nat (rows demo_running * cols demo_running) ∧
        NoDup ((λ b, (b_r b, b_c b)) <$> bs) ∧
        (∀ p, in_grid (grid demo_running) p = true ↔ p ∈ (λ b, (b_r b, b_c b)) <$> bs) ∧
        ∀ b, b ∈ bs →
             shows_mine b = false ∧ b_boom b = false ∧
             (b_open b = false →
              b = mkButton (b_r b) (b_c b) false false
                    (if flag_at (grid demo_running) (b_r b, b_c b)
                     then ContentFlag else ContentNone)
                    (b_r b + 1, b_c b + 1,
                     if flag_at (grid demo_running) (b_r b, b_c b) then LabelFlagged
                     else LabelClosed)).
Proof.
  apply (no_mine_shown_before_loss demo_running demo_running_reachable).
  vm_compute. congruence.
Defined.

(** The theorem at the lost sample game. *)
Lemma lost_board_shows_every_mine_witness :
  ∃ bs, renderBoard_buttons None demo_lost = Some bs ∧
        (λ b, (b_r b, b_c b)) <$> bs
        = loop_cells (seqZ 0 (rows demo_lost)) (seqZ 0 (cols demo_lost)) ∧
        length bs = Z.to_nat (rows demo_lost * cols demo_lost) ∧
        NoDup ((λ b, (b_r b, b_c b)) <$> bs) ∧
        (∀ p, in_grid (grid demo_lost) p = true ↔ p ∈ (λ b, (b_r b, b_c b)) <$> bs) ∧
        ∀ b, b ∈ bs →
             (mine_at (grid demo_lost) (b_r b, b_c b) = true ↔ b_content b = ContentBomb) ∧
             (mine_at (grid demo_lost) (b_r b, b_c b) = true ↔
              (b_label b).2 = LabelMine) ∧
             b_boom b = false ∧ b_content b ≠ ContentBoom ∧
             (b_label b).2 ≠ LabelMineExploded.
Proof.
  apply (lost_board_shows_every_mine demo_lost demo_lost_reachable). reflexivity.
Defined.

(** * The stored settings *)

Lemma storage_key_prefix key : String.prefix PREFIX (storage_key key) = true.
Proof. unfold PREFIX, storage_key, KEY_PREFIX. simpl. by destruct key. Qed.

Lemma storage_key_inj k1 k2 : storage_key k1 = storage_key k2 → k1 = k2.
Proof. unfold storage_key, KEY_PREFIX. intros H. by simplify_eq/=. Qed.

Lemma foldl_delete_lookup (keys : list string) (m : gmap string string) k :
  foldl (λ m k, delete k m) m keys !! k = if bool_decide (k ∈ keys) then None else m !! k.
Proof.
  revert m. induction keys as [|k' keys IH]; intros m; simpl; [done|].
  rewrite IH. destruct (decide (k = k')) as [->|Hne].
  - rewrite lookup_delete_eq. rewrite (bool_decide_eq_true_2 (k' ∈ k' :: keys)); [|by left].
    by case_bool_decide.
  - rewrite lookup_delete_ne by done.
    case_bool_decide as H1; case_bool_decide as H2; try done.
    + destruct H2. by right.
    + apply elem_of_cons in H2 as [?|?]; done.
Qed.

Lemma clearSettings_lookup ls k :
  ls_denied ls = false →
  ls_items (clearSettings ls) !! k =
  if String.prefix PREFIX k then None else ls_items ls !! k.
Proof.
  intros Hd. unfold clearSettings. rewrite Hd. simpl.
  rewrite foldl_delete_lookup.
  destruct (String.prefix PREFIX k) eqn:Hp.
  - destruct (ls_items ls !! k) as [v|] eqn:Hk.
    + rewrite bool_decide_eq_true_2; [done|].
      apply list_elem_of_In, filter_In. split.
      * apply list_elem_of_In, list_elem_of_fmap. exists (k, v). split; [done|].
        by apply elem_of_map_to_list.
      * rewrite Hp, andb_true_r. destruct k; [|done]. done.
    + by case_bool_decide.
  - rewrite bool_decide_eq_false_2; [done|].
    intros [_ Hf]%list_elem_of_In%filter_In. rewrite Hp, andb_false_r in Hf. done.
Qed.

(** X13.  [clearSettings] of the entry script removes every entry the
    storage helper can have written, and nothing else: afterwards [load]
    gives its fallback for every key, with any [JSON.parse], also when the
    storage is disabled; entries whose key does not start with "msw_ret:"
    are as before; and a second call changes nothing. *)
Theorem clearSettings_resets_every_setting {V} (parse : string → option V) ls :
  (∀ key fallback, load parse key fallback (clearSettings ls) = fallback) ∧
  (∀ k, String.prefix PREFIX k = false →
        ls_items (clearSettings ls) !! k = ls_items ls !! k) ∧
  (ls_denied ls = false →
   ∀ k, String.prefix PREFIX k = true → ls_items (clearSettings ls) !! k = None) ∧
  clearSettings (clearSettings ls) = clearSettings ls.
Proof.
  destruct (ls_denied ls) eqn:Hd.
  - assert (Hc : clearSettings ls = ls) by (unfold clearSettings; by rewrite Hd).
    rewrite !Hc. repeat split; try done.
    intros key fallback. unfold load, getItem. by rewrite Hd.
  - assert (Hd' : ls_denied (clearSettings ls) = false).
    { unfold clearSettings. by rewrite Hd. }
    repeat split.
    + intros key fallback. unfold load, getItem. rewrite Hd'. simpl.
      by rewrite clearSettings_lookup, storage_key_prefix.
    + intros k Hk. by rewrite clearSettings_lookup, Hk.
    + intros _ k Hk. by rewrite clearSettings_lookup, Hk.
    + assert (Hitems : ls_items (clearSettings (clearSettings ls)) =
                       ls_items (clearSettings ls)).
      { apply map_eq. intros k. rewrite !clearSettings_lookup by done.
        by destruct (String.prefix PREFIX k). }
      unfold clearSettings at 1. unfold clearSettings at 1 in Hitems.
      rewrite Hd' in *. simpl in Hitems. rewrite Hitems.
      unfold clearSettings. by rewrite Hd.
Qed.

(** X14.  A value [save] has written, [load] gives back: when the write
    goes through and [JSON.parse] inverts [JSON.stringify] on the value
    (whose text is not empty), [load] with the same key returns it.  For
    every other key [load] returns what it did before the [save], and a
    [save] whose write raises leaves the storage as it was. *)
Theorem save_then_load {V} (stringify : V → option string) (parse : string → option V)
    key value text ls :
  stringify value = Some text → text ≠ "" → parse text = Some value →
  (ls_denied ls = false → ls_room ls (storage_key key) text = true →
   ∀ fallback, load parse key fallback (save stringify key value ls) = value) ∧
  (∀ key' fallback, key' ≠ key →
     load parse key' fallback (save stringify key value ls) = load parse key' fallback ls) ∧
  (ls_denied ls = true ∨ ls_room ls (storage_key key) text = false →
   save stringify key value ls = ls).
Proof.
  intros Hs Hne Hp. unfold save, load, setItem, getItem. rewrite Hs. simpl.
  repeat split.
  - intros -> -> fallback. simpl. rewrite lookup_insert_eq. simpl.
    destruct text; [done|by rewrite Hp].
  - intros key' fallback Hk.
    destruct (ls_denied ls) eqn:Hd; simpl; [by rewrite ?Hd|].
    destruct (ls_room ls _ _); simpl; [|by rewrite ?Hd].
    rewrite ?Hd. simpl. rewrite lookup_insert_ne; [done|].
    intros Heq%storage_key_inj. done.
  - intros [-> | ->]; [done|]. by rewrite orb_true_r.
Qed.

(** The theorem at the sound setting of the sample storage. *)
Lemma save_then_load_witness :
  (ls_denied demo_storage = false →
   ls_room demo_storage (storage_key "sound") "true" = true →
   ∀ fallback,
     load parse_bool "sound" fallback (save stringify_bool "sound" true demo_storage)
     = true) ∧
  (∀ key' fallback, key' ≠ "sound" →
     load parse_bool key' fallback (save stringify_bool "sound" true demo_storage)
     = load parse_bool key' fallback demo_storage) ∧
  (ls_denied demo_storage = true ∨
   ls_room demo_storage (storage_key "sound") "true" = false →
   save stringify_bool "sound" true demo_storage = demo_storage).
Proof.
  apply (save_then_load stringify_bool parse_bool "sound" true "true" demo_storage);
    [reflexivity|discriminate|reflexivity].
Defined.

(** ** The mine counter *)

Lemma countFlags_le s :
  dims_ok s = true → Z.of_nat (countFlags (grid s)) ≤ rows s * cols s.
Proof.
  intros Hd. rewrite <- totalCells_dims by done.
  unfold totalCells, countFlags. rewrite positions_length.
  pose proof (List.filter_length_le flag (concat (grid s))) as H.
  rewrite length_concat in H. unfold shape. 
  replace (length <$> grid s) with (map (@length Cell) (grid s)) by done. lia.
Qed.

(** X15.  In every state of a session with integer sizes (in particular
    a whole number of mines), [updateCounters] completes on a display of
    the page; the number it shows, mines minus flags, is an integer in
    -1199..1191; the display reads as that number clamped to -99..999, so
    that the display and the text beside it agree exactly when the number
    lies in -99..999. *)
Theorem mines_counter_saturates s c :
  reachable s → display c →
  -1199 ≤ remaining s ≤ 1191 ∧
  ∃ d, updateCounters c s = (Some d, remaining s) ∧
       display d ∧
       read_display d = Some (pad3 (remaining s)) ∧
       Number_dec (pad3 (remaining s)) = Fin (clamp (remaining s) (-99) 999) ∧
       (Number_dec (pad3 (remaining s)) = Fin (remaining s) ↔
        -99 ≤ remaining s ≤ 999).
Proof.
  intros [Hd Hb _ _]%reachable_Inv Hc. split.
  - pose proof (countFlags_le s Hd). unfold remaining, cfg_bounds in *. nia.
  - unfold updateCounters. fold (remaining s).
    pose proof (setSevenSeg_read (remaining s)) as Hread.
    rewrite (display_setSevenSeg c Hc).
    destruct (setSevenSeg buildSevenSeg (remaining s)) as [d|] eqn:Hset; [|done].
    exists d. split; [done|]. split; [by eapply display_set; [apply display_built|]|].
    split; [done|]. split; [apply pad3_Number|].
    rewrite pad3_Number. split.
    + intros [= Heq]. pose proof (clamp_range (remaining s) (-99) 999). lia.
    + intros H. by rewrite clamp_fixed.
Qed.

Lemma demo_big_reachable : reachable demo_big.
Proof.
  by apply (reachable_start (Some (mkCfgIn 30 40 1191))).
Qed.

(** The theorem at a fresh game with 1191 mines, where the display shows
    999. *)
Lemma mines_counter_saturates_witness :
  -1199 ≤ remaining demo_big ≤ 1191 ∧
  ∃ d, updateCounters buildSevenSeg demo_big = (Some d, remaining demo_big) ∧
       display d ∧
       read_display d = Some (pad3 (remaining demo_big)) ∧
       Number_dec (pad3 (remaining demo_big)) = Fin (clamp (remaining demo_big) (-99) 999) ∧
       (Number_dec (pad3 (remaining demo_big)) = Fin (remaining demo_big) ↔
        -99 ≤ remaining demo_big ≤ 999).
Proof.
  apply (mines_counter_saturates demo_big buildSevenSeg demo_big_reachable display_built).
Defined.
